(** * define-os: the multi-page analysis job server

    A shallow embedding of [ui/process_utils.js] and of the job server
    (start-analysis, analysis-stream, [isHomePageUrl], [broadcastToJob],
    [processAnalysisJob], [runPythonScript], [runAIAnalysis]) together with
    the properties of the job orchestration and of the output parsers.

    JavaScript strings are modelled as [string]: one [ascii] per code unit,
    which covers the code units below 256.  Host functions whose code is not
    part of the repository (the WHATWG [URL] constructor, [JSON.parse], the
    [path] module) are the fields of the [Platform] class; every theorem
    about the server holds for any platform.  The URLs of a request are
    strings; the height hints of a job and what the analysis child prints
    are any JSON values, with the exceptions their conversion to a string
    can throw. *)

From Stdlib Require Import Ascii ZArith.
From stdpp Require Import base option list gmap strings pretty.

Local Open Scope Z_scope.
Local Open Scope nat_scope.
Local Set Warnings "-register-all".

(** ** JavaScript string primitives *)

Module Js.

(** Line terminators excluded by the regular expression atom [.]. *)
Definition is_line_terminator (c : ascii) : bool :=
  match nat_of_ascii c with
  | 10 | 13 => true
  | _ => false
  end.

(** White space and line terminators stripped by [String.prototype.trim]. *)
Definition is_white_space (c : ascii) : bool :=
  match nat_of_ascii c with
  | 9 | 10 | 11 | 12 | 13 | 32 | 160 => true
  | _ => false
  end.

Fixpoint trimStart (s : string) : string :=
  match s with
  | String c s' => if is_white_space c then trimStart s' else s
  | EmptyString => EmptyString
  end.

Fixpoint trimEnd (s : string) : string :=
  match s with
  | String c s' =>
      match trimEnd s' with
      | EmptyString => if is_white_space c then EmptyString else String c EmptyString
      | t => String c t
      end
  | EmptyString => EmptyString
  end.

Definition trim (s : string) : string := trimEnd (trimStart s).

(** [s.substring(0, n)] *)
Fixpoint substring0 (n : nat) (s : string) : string :=
  match n, s with
  | S n', String c s' => String c (substring0 n' s')
  | _, _ => EmptyString
  end.

(** [strip_prefix p s] is the rest of [s] after the literal [p], when [s]
    starts with [p]. *)
Fixpoint strip_prefix (p s : string) : option string :=
  match p with
  | EmptyString => Some s
  | String a p' =>
      match s with
      | String b s' => if bool_decide (a = b) then strip_prefix p' s' else None
      | EmptyString => None
      end
  end.

(** The greedy run matched by [(.+)]: the longest prefix without a line
    terminator. *)
Fixpoint dot_plus (s : string) : string :=
  match s with
  | String c s' => if is_line_terminator c then EmptyString else String c (dot_plus s')
  | EmptyString => EmptyString
  end.

(** An attempt of the pattern [/label(.+)/] at the start of [s]; the value is
    capture group 1. *)
Definition match_here (label s : string) : option string :=
  match strip_prefix label s with
  | Some rest =>
      match dot_plus rest with
      | EmptyString => None
      | cap => Some cap
      end
  | None => None
  end.

(** [s.match(/label(.+)/)] for a [label] of literal characters: the attempt
    is made at every position from the left; the value is [match[1]] of the
    leftmost success, [None] for a [null] result. *)
Fixpoint regexp_match (label s : string) : option string :=
  match match_here label s with
  | Some cap => Some cap
  | None =>
      match s with
      | String _ s' => regexp_match label s'
      | EmptyString => None
      end
  end.

(** The one-character string holding a line feed. *)
Definition LF : string := String "010" EmptyString.

(** [a === b] on strings. *)
Definition str_eq (a b : string) : bool := bool_decide (a = b).

End Js.

(** ** JavaScript values *)

Module JsValue.

(** The values that reach the server: [undefined] and what [JSON.parse]
    and the request body produce.  Numbers are the integers a double holds
    exactly and prints in full (pixel heights, exit codes: magnitudes below
    2^53); fractions, larger numbers and [NaN] are outside the model. *)
Inductive value :=
| Undefined
| Null
| Bool (b : bool)
| Num (z : Z)
| Str (s : string)
| Arr (items : list value)
| Obj (fields : list (string * value)).

(** ToBoolean, as used by [if (v)] and [v || w]. *)
Definition truthy (v : value) : bool :=
  match v with
  | Undefined | Null => false
  | Bool b => b
  | Num z => negb (Z.eqb z 0)
  | Str s => negb (bool_decide (s = EmptyString))
  | Arr _ | Obj _ => true
  end.

(** [k in fields] for the members of a parsed object: the object has an own
    property of that name. *)
Fixpoint has_key (k : string) (fields : list (string * value)) : bool :=
  match fields with
  | [] => false
  | (k', _) :: r => bool_decide (k = k') || has_key k r
  end.

(** ToString, as a template literal applies it: the text, or [None] when
    the conversion throws a [TypeError].  An array joins its elements with
    a comma, printing [null] and [undefined] elements as the empty string,
    and throws when an element does.  An object is printed by the
    [toString] it inherits, unless it has a member of that name: a member
    of a parsed object is never a function, the conversion skips it, finds
    no primitive and throws. *)
Fixpoint to_String (v : value) : option string :=
  match v with
  | Undefined => Some "undefined"
  | Null => Some "null"
  | Bool true => Some "true"
  | Bool false => Some "false"
  | Num z => Some (pretty z)
  | Str s => Some s
  | Arr items =>
      (fix join (l : list value) : option string :=
         match l with
         | [] => Some EmptyString
         | x :: r =>
             match (match x with
                    | Undefined | Null => Some EmptyString
                    | _ => to_String x
                    end) with
             | Some sx =>
                 match r with
                 | [] => Some sx
                 | _ =>
                     match join r with
                     | Some sr => Some (sx +:+ "," +:+ sr)
                     | None => None
                     end
                 end
             | None => None
             end
         end) items
  | Obj fields => if has_key "toString" fields then None else Some "[object Object]"
  end.

(** The message of the [TypeError] of a conversion that finds no primitive
    (the text of V8, the engine of Node). *)
Definition cannot_convert_message : string := "Cannot convert object to primitive value".

(** The message of the [TypeError] of a call [expr.toString()] on an
    object whose member [toString] is no function (the text of V8). *)
Definition not_a_function_message (expr : string) : string :=
  expr +:+ ".toString is not a function".

(** The message of the [TypeError] of [expr.toString()] on [null] or
    [undefined] (the text of V8). *)
Definition no_properties_message (v : string) : string :=
  "Cannot read properties of " +:+ v +:+ " (reading 'toString')".

(** What the call [expr.toString()] gives on the value [v] of [expr]: the
    text, or the message of the [TypeError] it throws. *)
Definition toString_call (expr : string) (v : value) : string + string :=
  match v with
  | Undefined => inr (no_properties_message "undefined")
  | Null => inr (no_properties_message "null")
  | Obj fields =>
      if has_key "toString" fields then inr (not_a_function_message expr)
      else inl "[object Object]"
  | _ =>
      match to_String v with
      | Some s => inl s
      | None => inr cannot_convert_message
      end
  end.

Fixpoint assoc (k : string) (fields : list (string * value)) : value :=
  match fields with
  | [] => Undefined
  | (k', v) :: r => if bool_decide (k = k') then v else assoc k r
  end.

(** [v.k] for one of the keys the server reads ([success], [error],
    [results], [body], [header], [footer], [sitelinks]) on a value that is
    neither [null] nor [undefined]: only an object can hold them. *)
Definition get (v : value) (k : string) : value :=
  match v with
  | Obj fields => assoc k fields
  | _ => Undefined
  end.

(** [v?.k] *)
Definition opt_get (v : value) (k : string) : value :=
  match v with
  | Undefined | Null => Undefined
  | _ => get v k
  end.

(** [v || null] *)
Definition or_null (v : value) : value := if truthy v then v else Null.

End JsValue.

(** ** Host functions *)

Module Host.
Import JsValue.

(** The fields of a [URL] object the server reads. *)
Record URLObject := { pathname : string; origin : string; href : string }.

(** What [JSON.parse] does with a text: a value, or a [SyntaxError] with its
    message. *)
Inductive parsed :=
| Parsed (v : value)
| SyntaxError (message : string).

(** The host functions the server calls and whose code is not in the
    repository.  [URL_new url] is [new URL(url)] and [URL_new_base rel base]
    is [new URL(rel, base)], with [None] when the constructor throws. *)
Class Platform := {
  URL_new : string → option URLObject;
  URL_new_base : string → string → option URLObject;
  JSON_parse : string → parsed;
  path_join : list string → string;
  path_basename : string → string;
  dirname : string
}.

(** What becomes of a call of [spawn]: the child ends with the [close]
    event, with its exit code ([None] when a signal killed it) and what it
    wrote; the launch fails with the [error] event; or the call itself
    throws before there is a child (as Node does for an argument that holds
    a null character). *)
Inductive ChildExit :=
| Closed (code : option Z) (stdout stderr : string)
| SpawnError (message : string)
| Thrown (message : string).

(** The world one URL of a job is processed in: what each spawned command
    does and which files exist. *)
Record World := {
  spawn : string → list string → ChildExit;
  existsSync : string → bool
}.

(** A computation that may throw an [Error] with a message and that records
    the calls of [spawn] it makes. *)
Inductive outcome (A : Type) :=
| Return (a : A)
| Throw (message : string).
Global Arguments Return {A} a.
Global Arguments Throw {A} message.

Definition Spawned : Type := string * list string.

Definition Exec (A : Type) : Type := list Spawned → outcome A * list Spawned.

Definition exec_ret {A} (a : A) : Exec A := λ log, (Return a, log).

Definition exec_bind {A B} (m : Exec A) (k : A → Exec B) : Exec B :=
  λ log, match m log with
         | (Return a, log') => k a log'
         | (Throw msg, log') => (Throw msg, log')
         end.

Global Instance exec_mret : MRet Exec := @exec_ret.
Global Instance exec_mbind : MBind Exec := λ A B k m, exec_bind m k.

Definition throw {A} (message : string) : Exec A := λ log, (Throw message, log).

(** [try { m } catch (error) { h(error.message) }] *)
Definition try_catch {A} (m : Exec A) (h : string → Exec A) : Exec A :=
  λ log, match m log with
         | (Return a, log') => (Return a, log')
         | (Throw msg, log') => h msg log'
         end.

(** A computation that has settled without spawning. *)
Definition settle {A} (o : outcome A) : Exec A := λ log, (o, log).

(** The template literal [`${v}`] on a value. *)
Definition template (v : value) : Exec string :=
  match to_String v with
  | Some s => mret s
  | None => throw cannot_convert_message
  end.

(** The message of the exception of [throw new Error(`prefix${v}`)]: that
    of the [Error], or that of the [TypeError] of the template literal. *)
Definition thrown_message (prefix : string) (v : value) : string :=
  match to_String v with
  | Some text => prefix +:+ text
  | None => cannot_convert_message
  end.

(** The call [spawn(command, args)], recorded, and what becomes of it. *)
Definition spawn_wait (w : World) (command : string) (args : list string) : Exec ChildExit :=
  λ log, (Return (spawn w command args), log ++ [(command, args)]).

End Host.

(** ** ui/process_utils.js: the output parsers *)

Module ProcessUtils.
Import Js JsValue Host.

Definition primary_label : string := "Output saved in: ".
Definition secondary_label : string := "> Output saved in: ".

(** [output.match(/Output saved in: (.+)/)] *)
Definition primary_match (output : string) : option string :=
  regexp_match primary_label output.

(** [output.match(/> Output saved in: (.+)/)] *)
Definition secondary_match (output : string) : option string :=
  regexp_match secondary_label output.

(** [extractOutputDirectory(output)]; [None] is the [null] result (the log
    line written before it is not modelled). *)
Definition extractOutputDirectory (output : string) : option string :=
  match primary_match output with
  | Some cap => Some (trim cap)
  | None =>
      match secondary_match output with
      | Some cap => Some (trim cap)
      | None => None
      end
  end.

(** The function the redundancy claim compares with: the primary pattern
    alone. *)
Definition extractOutputDirectory_primary_only (output : string) : option string :=
  match primary_match output with
  | Some cap => Some (trim cap)
  | None => None
  end.

(** [parseProcessOutput(output, context)]: the parsed value, or the
    failure object built in the [catch] branch (the two log lines written
    there are not modelled). *)
Definition parseProcessOutput `{Platform} (output context : string) : value :=
  match JSON_parse output with
  | Parsed v => v
  | SyntaxError message =>
      Obj [("success", Bool false);
           ("error", Str ("Failed to parse " +:+ context +:+ " response: " +:+ message));
           ("raw_output", Str (substring0 200 output))]
  end.

End ProcessUtils.

(** ** The job server: page roles and the per-URL pipeline *)

Module Server.
Import Js JsValue Host.

(** *** Jobs, results, events and connections *)

Inductive Status := started | finished.

Global Instance Status_eq_dec : EqDecision Status.
Proof. solve_decision. Defined.

(** The [images] object of a result: [header] and [footer] are present only
    after a full analysis. *)
Record Images := {
  img_body : string;
  img_header : option string;
  img_footer : option string
}.

(** The analysis fields added to a result only for the analysis type [all]. *)
Record FullAnalysis := {
  headerAnalysis : value;
  footerAnalysis : value;
  siteLinksAnalysis : value
}.

(** One entry of [job.completed]: the [result] object of a page that went
    through ([success: true]) or the [errorResult] object ([success: false]). *)
Inductive PageResult :=
| Success (url outputDir analysisType : string) (images : Images)
          (bodyAnalysis : value) (full : option FullAnalysis)
| Failure (url : string) (error : string).

Definition result_url (r : PageResult) : string :=
  match r with
  | Success url _ _ _ _ _ => url
  | Failure url _ => url
  end.

Definition is_failure (r : PageResult) : bool :=
  match r with
  | Success _ _ _ _ _ _ => false
  | Failure _ _ => true
  end.

(** The objects sent over a stream; the framing as [data: <JSON>] followed
    by an empty line is not modelled. *)
Inductive Event :=
| EvStarted (jobId : string) (totalPages : nat) (completed : nat)
| EvPageComplete (result : PageResult)
| EvFinished (jobId : string) (totalCompleted : nat) (duration : Z).

Definition is_finished_event (e : Event) : bool :=
  match e with
  | EvFinished _ _ _ => true
  | _ => false
  end.


(** A response object [res]: the events written to it so far, whether
    [res.end()] was called on it, whether [res.write] currently throws, and
    the job its [close] handler holds ([None] for the response of a request
    that named no known job: it is answered with the 404 error and gets no
    handler). *)
Record Conn := {
  written : list Event;
  ended : bool;
  write_throws : bool;
  conn_job : option string
}.

(** An entry of [global.analysisJobs], for a request whose [urls] are
    strings (the handler takes any array that is not empty; see
    [loop_iteration] for an element that is no string).  [sseConnections]
    holds references to response objects (indices of the store of
    connections) and is [None] until the first subscriber creates the
    array. *)
Record Job := {
  urls : list string;
  headerHeight : value;
  footerHeight : value;
  status : Status;
  completed : list PageResult;
  total : nat;
  startTime : Z;
  sseConnections : option (list nat)
}.

Definition set_completed (job : Job) (c : list PageResult) : Job :=
  {| urls := urls job; headerHeight := headerHeight job; footerHeight := footerHeight job;
     status := status job; completed := c; total := total job;
     startTime := startTime job; sseConnections := sseConnections job |}.

Definition set_status (job : Job) (st : Status) : Job :=
  {| urls := urls job; headerHeight := headerHeight job; footerHeight := footerHeight job;
     status := st; completed := completed job; total := total job;
     startTime := startTime job; sseConnections := sseConnections job |}.

Definition set_sseConnections (job : Job) (l : option (list nat)) : Job :=
  {| urls := urls job; headerHeight := headerHeight job; footerHeight := footerHeight job;
     status := status job; completed := completed job; total := total job;
     startTime := startTime job; sseConnections := l |}.

(** The state of the server process: the job table, the store of response
    objects, the suspended calls of [processAnalysisJob] (job id and loop
    index [i] of the URL being awaited), and the history of the calls of
    [broadcastToJob] (a history variable, not read by the program). *)
Record State := {
  analysisJobs : gmap string Job;
  conns : list Conn;
  tasks : gmap string nat;
  broadcast_log : list (string * Event)
}.

(** The events broadcast for one job, in order. *)
Definition events_of (jobId : string) (log : list (string * Event)) : list Event :=
  (filter (λ p, p.1 = jobId) log).*2.

Definition init : State :=
  {| analysisJobs := ∅; conns := []; tasks := ∅; broadcast_log := [] |}.

Definition conn_append (c : Conn) (e : Event) : Conn :=
  {| written := written c ++ [e]; ended := ended c;
     write_throws := write_throws c; conn_job := conn_job c |}.

Definition conn_end (c : Conn) : Conn :=
  {| written := written c; ended := true;
     write_throws := write_throws c; conn_job := conn_job c |}.

(** [res.write(message)] on the store: [None] when it throws.  A write to
    an ended response delivers nothing. *)
Definition res_write (res : nat) (e : Event) (cs : list Conn) : option (list Conn) :=
  match cs !! res with
  | Some c =>
      if write_throws c then None
      else if ended c then Some cs
      else Some (<[res := conn_append c e]> cs)
  | None => None
  end.

(** [res.end()]; an exception from it is swallowed at each call site. *)
Definition res_end (res : nat) (cs : list Conn) : list Conn :=
  match cs !! res with
  | Some c => <[res := conn_end c]> cs
  | None => cs
  end.

(** The [forEach] of [broadcastToJob]: [Array.prototype.forEach] reads the
    length once, visits the indices [k], [k+1], ... below it, skips an index
    that is no longer in the array, and calls the callback on the element
    found at the index at that moment; the callback writes to the response
    and, when the write throws, removes the element at the index from the
    array it is iterating ([splice(index, 1)]).  [n] is the number of indices
    left to visit. *)
Fixpoint forEach_write (n k : nat) (e : Event) (arr : list nat) (cs : list Conn)
  : list nat * list Conn :=
  match n with
  | 0 => (arr, cs)
  | S n' =>
      match arr !! k with
      | None => forEach_write n' (S k) e arr cs
      | Some res =>
          match res_write res e cs with
          | Some cs' => forEach_write n' (S k) e arr cs'
          | None => forEach_write n' (S k) e (delete k arr) cs
          end
      end
  end.

(** [job.sseConnections.forEach(res => res.end())] *)
Definition forEach_end (arr : list nat) (cs : list Conn) : list Conn :=
  foldl (λ acc res, res_end res acc) cs arr.

(** [arr.indexOf(res)] with [None] for [-1]. *)
Fixpoint indexOf (res : nat) (arr : list nat) : option nat :=
  match arr with
  | [] => None
  | x :: r => if bool_decide (x = res) then Some 0 else S <$> indexOf res r
  end.

Section Pipeline.
Context `{Platform}.

(** [pathname === '/' || pathname === '' || pathname === '/index.html' ||
    pathname === '/home'] *)
Definition is_home_path (pathname : string) : bool :=
  str_eq pathname "/" || str_eq pathname EmptyString ||
  str_eq pathname "/index.html" || str_eq pathname "/home".

Definition homePatterns : list string := ["/"; "/index.html"; "/home"; "/index.php"].

(** The loop over [homePatterns]: it returns [true] at the first pattern
    whose address under the origin is the URL itself ([Hit]), runs to its end
    ([Miss]), or leaves through the exception of [new URL(pattern, origin)]
    ([Raised]). *)
Inductive pattern_scan := Hit | Miss | Raised.

Fixpoint scan_home_patterns (url origin : string) (patterns : list string) : pattern_scan :=
  match patterns with
  | [] => Miss
  | pattern :: rest =>
      match URL_new_base pattern origin with
      | None => Raised
      | Some homeUrl =>
          if str_eq url (href homeUrl) then Hit
          else scan_home_patterns url origin rest
      end
  end.

(** [isHomePageUrl(url, allUrls)]; every exception ends in the [catch]
    branch, which returns [false]. *)
Definition isHomePageUrl (url : string) (allUrls : list string) : bool :=
  match URL_new url with
  | None => false
  | Some urlObj =>
      if is_home_path (pathname urlObj) then true
      else if bool_decide (1 < length allUrls) then
        match scan_home_patterns url (origin urlObj) homePatterns with
        | Hit => true
        | Raised => false
        | Miss =>
            match allUrls !! 0 with
            | Some first => str_eq url first
            | None => false
            end
        end
      else false
  end.

(** [isHomepage ? 'all' : 'body']: the role [full] is the analysis type
    [all], the role [body-only] is the analysis type [body]. *)
Definition analysisType_of (isHomepage : bool) : string :=
  if isHomepage then "all" else "body".

Definition role_of (url : string) (allUrls : list string) : string :=
  analysisType_of (isHomePageUrl url allUrls).

(** What [runPythonScript] resolves to; [error] is [null] or a string. *)
Record ProcessResult := { output : string; error : value }.

(** What [runAIAnalysis] resolves to. *)
Record AIResult := { analysis : value; ai_error : value }.

Definition pythonPath : string :=
  path_join [dirname; ".."; "venv2"; "Scripts"; "python.exe"].

Definition aiScriptPath : string := path_join [dirname; "middleware.py"].

(** The text of an exit code in a template literal. *)
Definition code_text (code : option Z) : string :=
  match code with
  | Some z => pretty z
  | None => "null"
  end.

(** [stderr || fallback] *)
Definition or_text (stderr fallback : string) : string :=
  if bool_decide (stderr = EmptyString) then fallback else stderr.

(** How the promise of [runPythonScript] settles: the [close] and [error]
    handlers resolve it; a call of [spawn] that throws does so inside the
    executor of the promise, which rejects it. *)
Definition python_exit_result (exit : ChildExit) : outcome ProcessResult :=
  match exit with
  | Closed code stdout stderr =>
      if bool_decide (code = Some 0%Z)
      then Return {| output := stdout; error := Null |}
      else Return {| output := stdout;
                     error := Str (or_text stderr
                                     ("Process exited with code " +:+ code_text code)) |}
  | SpawnError message => Return {| output := EmptyString; error := Str message |}
  | Thrown message => Throw message
  end.

(** [await runPythonScript(module, args)] of the server. *)
Definition runPythonScript (w : World) (module : string) (args : list string)
  : Exec ProcessResult :=
  exit ← spawn_wait w pythonPath ("-m" :: module :: args);
  settle (python_exit_result exit).

(** The message of the [TypeError] raised by reading [success] from [null]
    (the text of V8). *)
Definition null_read_message (v : value) : string :=
  "Cannot read properties of "
  +:+ match v with Undefined => "undefined" | _ => "null" end
  +:+ " (reading 'success')".

Definition parse_failure (message stdout : string) : AIResult :=
  {| analysis := Null;
     ai_error := Str ("Failed to parse AI response: " +:+ message +:+
                      ". Raw output: " +:+ substring0 200 stdout) |}.

(** What [runAIAnalysis] resolves to once the files are there: the [close]
    and [error] handlers of the analysis child, and the [catch] block of the
    function for a call of [spawn] that throws. *)
Definition ai_exit_result (exit : ChildExit) : AIResult :=
  match exit with
  | Closed code stdout stderr =>
      if bool_decide (code = Some 0%Z) then
        match JSON_parse stdout with
        | Parsed parsed_value =>
            match parsed_value with
            | Null | Undefined => parse_failure (null_read_message parsed_value) stdout
            | _ =>
                match get parsed_value "success" with
                | Bool false =>
                    let e := get parsed_value "error" in
                    {| analysis := Null;
                       ai_error := if truthy e then e else Str "AI analysis returned error" |}
                | _ => {| analysis := parsed_value; ai_error := Null |}
                end
            end
        | SyntaxError message => parse_failure message stdout
        end
      else {| analysis := Null;
              ai_error := Str (or_text stderr ("AI analysis failed with code " +:+ code_text code)) |}
  | SpawnError message => {| analysis := Null; ai_error := Str message |}
  | Thrown message => {| analysis := Null; ai_error := Str message |}
  end.

(** [hasHeader], [hasFooter] and [hasBody] of [runAIAnalysis]: the image
    and the markup file of the region both exist. *)
Definition hasHeader (w : World) (outputDir : string) : bool :=
  existsSync w (path_join [outputDir; "header.png"])
  && existsSync w (path_join [outputDir; "header.html"]).

Definition hasFooter (w : World) (outputDir : string) : bool :=
  existsSync w (path_join [outputDir; "footer.png"])
  && existsSync w (path_join [outputDir; "footer.html"]).

Definition hasBody (w : World) (outputDir : string) : bool :=
  existsSync w (path_join [outputDir; "body.png"])
  && existsSync w (path_join [outputDir; "body.html"]).

(** The validation of the required files in [runAIAnalysis]. *)
Definition validate_files (w : World) (outputDir analysisType : string) : Exec unit :=
  if str_eq analysisType "all" then
    if negb (hasHeader w outputDir) && negb (hasFooter w outputDir)
    then throw "No header or footer files found for full analysis"
    else mret ()
  else if str_eq analysisType "body" then
    if negb (hasBody w outputDir)
    then throw "No body files found for body analysis"
    else mret ()
  else mret ().

(** When [validate_files] lets the analysis go on, and the message it
    throws otherwise (both read off its branches). *)
Definition files_ok (w : World) (outputDir analysisType : string) : bool :=
  if str_eq analysisType "all" then hasHeader w outputDir || hasFooter w outputDir
  else if str_eq analysisType "body" then hasBody w outputDir
  else true.

Definition missing_files_message (analysisType : string) : string :=
  if str_eq analysisType "all"
  then "No header or footer files found for full analysis"
  else "No body files found for body analysis".

(** The command line of the analysis child. *)
Definition ai_command (outputDir url analysisType : string) : Spawned :=
  (pythonPath, [aiScriptPath; outputDir; url; analysisType]).

(** The command line of the capture child. *)
Definition capture_command (args : list string) : Spawned :=
  (pythonPath, "-m" :: "screenshot_urlbox.processor" :: args).

(** [runAIAnalysis(outputDir, url, analysisType)] *)
Definition runAIAnalysis (w : World) (outputDir url analysisType : string) : Exec AIResult :=
  try_catch
    (_ ← validate_files w outputDir analysisType;
     exit ← spawn_wait w pythonPath [aiScriptPath; outputDir; url; analysisType];
     mret (ai_exit_result exit))
    (λ message, mret {| analysis := Null; ai_error := Str message |}).

(** [if (hint) screenshotArgs.push(flag, hint.toString())]: the arguments
    a height hint adds, or the message of the [TypeError] of its
    [toString]. *)
Definition hint_args (flag expr : string) (hint : value) : outcome (list string) :=
  if truthy hint then
    match toString_call expr hint with
    | inl text => Return [flag; text]
    | inr message => Throw message
    end
  else Return [].

(** [screenshotArgs] of one loop iteration (lines 430 to 432): the
    arguments of the capture child, or the message of the [TypeError] that
    ends the [try] block before any child is spawned. *)
Definition screenshotArgs (job : Job) (url : string) : outcome (list string) :=
  match hint_args "--header-height" "job.headerHeight" (headerHeight job) with
  | Return header =>
      match hint_args "--footer-height" "job.footerHeight" (footerHeight job) with
      | Return footer => Return ([url] ++ header ++ footer)
      | Throw message => Throw message
      end
  | Throw message => Throw message
  end.

(** [output.match(/Output saved in: (.+)/) || output.match(/> Output saved in: (.+)/)] *)
Definition outputDirMatch (output : string) : option string :=
  match regexp_match "Output saved in: " output with
  | Some cap => Some cap
  | None => regexp_match "> Output saved in: " output
  end.

(** The [result] object of a page whose analysis went through. *)
Definition build_result (url outputDirName analysisType : string) (aiResult : AIResult)
  : PageResult :=
  let results := opt_get (analysis aiResult) "results" in
  let shot name := "/screenshots/" +:+ outputDirName +:+ name in
  let is_all := str_eq analysisType "all" in
  Success url outputDirName analysisType
    {| img_body := shot "/body.png";
       img_header := if is_all then Some (shot "/header.png") else None;
       img_footer := if is_all then Some (shot "/footer.png") else None |}
    (or_null (opt_get results "body"))
    (if is_all
     then Some {| headerAnalysis := or_null (opt_get results "header");
                  footerAnalysis := or_null (opt_get results "footer");
                  siteLinksAnalysis := or_null (opt_get results "sitelinks") |}
     else None).

(** The [try] block of one loop iteration of [processAnalysisJob] from
    line 430 to the result object, for a URL that is a string. *)
Definition analyse_page (w : World) (job : Job) (url : string) : Exec PageResult :=
  args ← settle (screenshotArgs job url);
  screenshotResult ← runPythonScript w "screenshot_urlbox.processor" args;
  if truthy (error screenshotResult)
  then (text ← template (error screenshotResult);
        throw ("Screenshot failed: " +:+ text))
  else
    match outputDirMatch (output screenshotResult) with
    | None => throw "Could not find output directory"
    | Some cap =>
        let outputDir := trim cap in
        let outputDirName := path_basename outputDir in
        let analysisType := analysisType_of (isHomePageUrl url (urls job)) in
        aiResult ← runAIAnalysis w outputDir url analysisType;
        if truthy (ai_error aiResult)
        then (text ← template (ai_error aiResult);
              throw ("AI analysis failed: " +:+ text))
        else mret (build_result url outputDirName analysisType aiResult)
    end.

(** One loop iteration around the rest [body] of its [try] block, for any
    element [url] of [job.urls]: the [try] block starts with the log line
    of line 427, whose template literal converts [url] to a string; the
    [catch] block (lines 496 to 511) starts with the log line of line 497,
    which converts [url] again, outside any [try], and then builds the
    [errorResult] from [error.message].  An exception of the [catch] block
    leaves the iteration, and with it the loop. *)
Definition loop_iteration {A} (url : value) (body : Exec A) (errorResult : string → A)
  : Exec A :=
  try_catch (_ ← template url; body)
            (λ message, _ ← template url; mret (errorResult message)).

(** One loop iteration on a URL that is a string, up to the object pushed
    to [job.completed]: the result of the [try] block, or the [errorResult]
    of the [catch] block. *)
Definition page_exec (w : World) (job : Job) (url : string) : Exec PageResult :=
  loop_iteration (Str url) (analyse_page w job url) (Failure url).

(** What one loop iteration pushes to [job.completed], or the message of
    the exception that leaves it. *)
Definition page_result (w : World) (job : Job) (url : string) : outcome PageResult :=
  (page_exec w job url []).1.

(** The calls of [spawn] one loop iteration makes, in order. *)
Definition page_spawned (w : World) (job : Job) (url : string) : list Spawned :=
  (page_exec w job url []).2.

(** The iteration pushed a result with [success: true]. *)
Definition succeeded (o : outcome PageResult) : bool :=
  match o with
  | Return r => negb (is_failure r)
  | Throw _ => false
  end.

(** *** The job table and the streams *)

Definition set_job (st : State) (jobId : string) (job : Job) : State :=
  {| analysisJobs := <[jobId := job]> (analysisJobs st); conns := conns st;
     tasks := tasks st; broadcast_log := broadcast_log st |}.

(** The loop of the job suspends on the URL at index [i]. *)
Definition set_task (st : State) (jobId : string) (i : nat) : State :=
  {| analysisJobs := analysisJobs st; conns := conns st;
     tasks := <[jobId := i]> (tasks st); broadcast_log := broadcast_log st |}.

(** [broadcastToJob(jobId, eventData)] *)
Definition broadcastToJob (jobId : string) (eventData : Event) (st : State) : State :=
  let log := broadcast_log st ++ [(jobId, eventData)] in
  match analysisJobs st !! jobId with
  | Some job =>
      match sseConnections job with
      | Some arr =>
          let '(arr', cs') := forEach_write (length arr) 0 eventData arr (conns st) in
          {| analysisJobs := <[jobId := set_sseConnections job (Some arr')]> (analysisJobs st);
             conns := cs'; tasks := tasks st; broadcast_log := log |}
      | None =>
          {| analysisJobs := analysisJobs st; conns := conns st;
             tasks := tasks st; broadcast_log := log |}
      end
  | None =>
      {| analysisJobs := analysisJobs st; conns := conns st;
         tasks := tasks st; broadcast_log := log |}
  end.

(** [job.completed.push(result)] followed by the broadcast of the
    [page-complete] event, as both the [try] and the [catch] block do. *)
Definition commit_page (jobId : string) (r : PageResult) (st : State) : State :=
  match analysisJobs st !! jobId with
  | Some job =>
      broadcastToJob jobId (EvPageComplete r)
        (set_job st jobId (set_completed job (completed job ++ [r])))
  | None => st
  end.

(** The code of [processAnalysisJob] after its loop: the job is marked
    finished, the terminal event is broadcast, every response still in the
    array is ended and the array is replaced by an empty one; the call
    returns. *)
Definition finish_job (jobId : string) (now : Z) (st : State) : State :=
  match analysisJobs st !! jobId with
  | Some job =>
      let st1 := set_job st jobId (set_status job finished) in
      let st2 := broadcastToJob jobId
                   (EvFinished jobId (length (completed job)) (now - startTime job)%Z) st1 in
      let jobs3 :=
        match analysisJobs st2 !! jobId with
        | Some job2 =>
            match sseConnections job2 with
            | Some arr => Some (forEach_end arr (conns st2), set_sseConnections job2 (Some []))
            | None => None
            end
        | None => None
        end in
      match jobs3 with
      | Some (cs3, job3) =>
          {| analysisJobs := <[jobId := job3]> (analysisJobs st2); conns := cs3;
             tasks := delete jobId (tasks st2); broadcast_log := broadcast_log st2 |}
      | None =>
          {| analysisJobs := analysisJobs st2; conns := conns st2;
             tasks := delete jobId (tasks st2); broadcast_log := broadcast_log st2 |}
      end
  | None => st
  end.

(** The call of [processAnalysisJob] for the job is gone: an exception
    left its loop and rejected its promise.  The job keeps its status. *)
Definition abort_job (jobId : string) (st : State) : State :=
  {| analysisJobs := analysisJobs st; conns := conns st;
     tasks := delete jobId (tasks st); broadcast_log := broadcast_log st |}.

(** [processAnalysisJob] from the point where the subprocesses of the URL
    at index [i] have ended (in the world [w]) to its next suspension: the
    result of the URL is pushed and broadcast; then the loop either suspends
    on the next URL or, after the last one, runs [finish_job] in the same
    turn of the event loop.  When the iteration throws instead, nothing is
    pushed and the loop is gone.  Handlers of other requests run only
    between such resumptions, and what they change (the arrays of
    connections) is not read before the push. *)
Definition resume (jobId : string) (w : World) (now : Z) (st : State) : State :=
  match analysisJobs st !! jobId, tasks st !! jobId with
  | Some job, Some i =>
      match urls job !! i with
      | Some url =>
          match page_result w job url with
          | Return r =>
              let st1 := commit_page jobId r st in
              if bool_decide (S i < length (urls job))
              then set_task st1 jobId (S i)
              else finish_job jobId now st1
          | Throw _ => abort_job jobId st
          end
      | None => finish_job jobId now st
      end
  | _, _ => st
  end.

(** [processAnalysisJob] run to its end without other handlers in between:
    the world [ws i] is the one the URL at index [i] is processed in. *)
Fixpoint processAnalysisJob (fuel : nat) (jobId : string) (ws : nat → World) (now : Z)
  (st : State) : State :=
  match fuel with
  | 0 => st
  | S fuel' =>
      match tasks st !! jobId with
      | Some i => processAnalysisJob fuel' jobId ws now (resume jobId (ws i) now st)
      | None => st
      end
  end.

(** The handler of [POST /start-analysis] with the job id it generated, on
    a request whose [urls] are strings: the job is assigned to the table
    under the id, whatever the table held there, and [processAnalysisJob]
    runs up to its first suspension.  An empty list of URLs is answered
    with the 400 error. *)
Definition start_analysis (jobId : string) (urls0 : list string)
  (headerHeight0 footerHeight0 : value) (now : Z) (st : State) : State :=
  match urls0 with
  | [] => st
  | _ :: _ =>
      {| analysisJobs :=
           <[jobId := {| urls := urls0; headerHeight := headerHeight0;
                         footerHeight := footerHeight0; status := started;
                         completed := []; total := length urls0; startTime := now;
                         sseConnections := None |}]> (analysisJobs st);
         conns := conns st;
         tasks := <[jobId := 0]> (tasks st);
         broadcast_log := broadcast_log st |}
  end.

(** A sequence of [res.write] calls outside any [try]: the first one that
    throws ends the sequence. *)
Fixpoint write_each (res : nat) (es : list Event) (cs : list Conn) : option (list Conn) :=
  match es with
  | [] => Some cs
  | e :: r =>
      match res_write res e cs with
      | Some cs' => write_each res r cs'
      | None => None
      end
  end.

(** The property names a plain object inherits from [Object.prototype].
    The job table is a plain object, so [global.analysisJobs[jobId]] is
    truthy for them although no job has such an id. *)
Definition inherited_key (jobId : string) : bool :=
  bool_decide (jobId ∈ ["__proto__"; "constructor"; "hasOwnProperty"; "isPrototypeOf";
                         "propertyIsEnumerable"; "toLocaleString"; "toString"; "valueOf";
                         "__defineGetter__"; "__defineSetter__"; "__lookupGetter__";
                         "__lookupSetter__"]).

(** The handler of [GET /analysis-stream/:jobId], for a [jobId] that is no
    inherited property name: the guard of line 306 then answers 404 exactly
    when the table has no job of that id.  The response object of the
    request is the next free index of the store. *)
Definition analysis_stream (jobId : string) (now : Z) (st : State) : State :=
  match analysisJobs st !! jobId with
  | None =>
      {| analysisJobs := analysisJobs st;
         conns := conns st ++ [{| written := []; ended := true; write_throws := false;
                                  conn_job := None |}];
         tasks := tasks st; broadcast_log := broadcast_log st |}
  | Some job =>
      let res := length (conns st) in
      let cs0 := conns st ++ [{| written := []; ended := false; write_throws := false;
                                 conn_job := Some jobId |}] in
      let job1 := set_sseConnections job (Some (default [] (sseConnections job) ++ [res])) in
      let replay := EvStarted jobId (total job) (length (completed job))
                    :: (EvPageComplete <$> completed job) in
      let cs2 :=
        match write_each res replay cs0 with
        | Some cs1 =>
            if bool_decide (status job = finished) then
              match res_write res (EvFinished jobId (length (completed job))
                                     (now - startTime job)%Z) cs1 with
              | Some cs2 => res_end res cs2
              | None => cs1
              end
            else cs1
        | None => cs0
        end in
      {| analysisJobs := <[jobId := job1]> (analysisJobs st); conns := cs2;
         tasks := tasks st; broadcast_log := broadcast_log st |}
  end.

(** The [close] handler of the request whose response is [res]. *)
Definition close_event (res : nat) (st : State) : State :=
  match conns st !! res with
  | Some c =>
      match conn_job c with
      | Some jobId =>
          match analysisJobs st !! jobId with
          | Some job =>
              match sseConnections job with
              | Some arr =>
                  match indexOf res arr with
                  | Some index =>
                      set_job st jobId (set_sseConnections job (Some (delete index arr)))
                  | None => st
                  end
              | None => st
              end
          | None => st
          end
      | None => st
      end
  | None => st
  end.

(** The network: from now on writing to [res] throws, or no longer does. *)
Definition set_write_throws (res : nat) (b : bool) (st : State) : State :=
  match conns st !! res with
  | Some c =>
      {| analysisJobs := analysisJobs st;
         conns := <[res := {| written := written c; ended := ended c; write_throws := b;
                              conn_job := conn_job c |}]> (conns st);
         tasks := tasks st; broadcast_log := broadcast_log st |}
  | None => st
  end.

(** What happens in one turn of the event loop. *)
Inductive Action :=
| StartAnalysis (jobId : string) (urls0 : list string) (headerHeight0 footerHeight0 : value)
    (now : Z)
| Resume (jobId : string) (w : World) (now : Z)
| AnalysisStream (jobId : string) (now : Z)
| CloseEvent (res : nat)
| SetWriteThrows (res : nat) (b : bool).

Definition apply_action (a : Action) (st : State) : State :=
  match a with
  | StartAnalysis jobId urls0 hh fh now => start_analysis jobId urls0 hh fh now st
  | Resume jobId w now => resume jobId w now st
  | AnalysisStream jobId now => analysis_stream jobId now st
  | CloseEvent res => close_event res st
  | SetWriteThrows res b => set_write_throws res b st
  end.

(** The turns the model follows.  A job id is generated from the clock
    and a random number: it starts with a digit, so it is no inherited
    property name, and it is taken to be new, which the handler does not
    check.  A stream is requested under any name but the inherited property
    names, for which the handler reads a member of [Object.prototype] in
    place of a job.  Every other action can happen at any time. *)
Definition enabled (a : Action) (st : State) : Prop :=
  match a with
  | StartAnalysis jobId _ _ _ _ =>
      analysisJobs st !! jobId = None ∧ inherited_key jobId = false
  | AnalysisStream jobId _ => inherited_key jobId = false
  | _ => True
  end.

Inductive step : State → State → Prop :=
| step_action a st : enabled a st → step st (apply_action a st).

(** The states of the server: those reached from the start of the process. *)
Definition reachable (st : State) : Prop := rtc step init st.




End Pipeline.

End Server.

(** ** What holds of every state of the server *)

Module Invariants.
Import Js JsValue Host Server.

(** A response to which a write does not throw. *)
Definition can_write (cs : list Conn) (res : nat) : Prop :=
  ∃ c, cs !! res = Some c ∧ write_throws c = false.

(** No terminal event among the events. *)
Definition no_finished (l : list Event) : Prop :=
  Forall (λ e, is_finished_event e = false) l.

(** A job of the table: its counters, its place in the processing loop,
    its array of connections and the events broadcast for it. *)
Definition job_ok (st : State) (jobId : string) (job : Job) : Prop :=
  total job = length (urls job) ∧
  result_url <$> completed job = take (length (completed job)) (urls job) ∧
  match tasks st !! jobId with
  | Some i => status job = started ∧ i = length (completed job) ∧ i ≤ length (urls job)
  | None => status job = finished ∧ length (completed job) = length (urls job)
  end ∧
  (∀ arr, sseConnections job = Some arr →
     NoDup arr ∧
     ∀ res, res ∈ arr → ∃ c, conns st !! res = Some c ∧ conn_job c = Some jobId) ∧
  ∃ fin, events_of jobId (broadcast_log st) = (EvPageComplete <$> completed job) ++ fin ∧
         match status job with
         | started => fin = []
         | finished => ∃ d, fin = [EvFinished jobId (length (completed job)) d]
         end.

(** A response of the store: its job is in the table, and a terminal event
    is the last event written to it, on an ended response of a job whose
    processing has returned. *)
Definition conn_ok (st : State) (c : Conn) : Prop :=
  (∀ jobId, conn_job c = Some jobId → is_Some (analysisJobs st !! jobId)) ∧
  (no_finished (written c) ∨
   ∃ pre fin, written c = pre ++ [fin] ∧ no_finished pre ∧
              is_finished_event fin = true ∧ ended c = true ∧
              ∀ jobId, conn_job c = Some jobId → tasks st !! jobId = None).

(** What holds between any two statements of [processAnalysisJob]. *)
Record loop_invariant (st : State) : Prop := {
  inv_jobs : ∀ jobId job, analysisJobs st !! jobId = Some job → job_ok st jobId job;
  inv_unknown : ∀ jobId, analysisJobs st !! jobId = None →
                tasks st !! jobId = None ∧ events_of jobId (broadcast_log st) = [];
  inv_conns : ∀ res c, conns st !! res = Some c → conn_ok st c
}.

(** What holds between the turns of the event loop: a suspended loop waits
    for a URL of its job. *)
Record invariant (st : State) : Prop := {
  inv_loop : loop_invariant st;
  inv_pending : ∀ jobId job i,
    analysisJobs st !! jobId = Some job → tasks st !! jobId = Some i →
    i < length (urls job)
}.

(** How a broadcast of [e] for the job [jobId] changes the response [res]:
    no field changes but the events, to which [e] may be appended when the
    response is open and is in the array [arr'] left by the broadcast. *)
Definition conn_after (e : Event) (arr' : option (list nat)) (res : nat) (c c' : Conn) : Prop :=
  conn_job c' = conn_job c ∧ ended c' = ended c ∧ write_throws c' = write_throws c ∧
  (written c' = written c ∨
   (written c' = written c ++ [e] ∧ ended c = false ∧ write_throws c = false ∧
    ∃ l, arr' = Some l ∧ res ∈ l)).

(** What a broadcast leaves behind, in terms of the array and the store
    before it. *)
Definition broadcast_effect (e : Event) (sse : option (list nat)) (cs : list Conn)
  (sse' : option (list nat)) (cs' : list Conn) : Prop :=
  length cs' = length cs ∧
  (∀ res c', cs' !! res = Some c' →
     ∃ c, cs !! res = Some c ∧ conn_after e sse' res c c') ∧
  match sse with
  | Some arr =>
      ∃ arr', sse' = Some arr' ∧ arr' `sublist_of` arr ∧
              ∀ res, res ∈ arr → can_write cs res → res ∈ arr'
  | None => sse' = None
  end.


(** The response of a request that subscribed to a known job, when its
    handler returns: the snapshot, the replay of the completed pages and, for
    a finished job, the terminal event on an ended response. *)
Definition subscriber_conn (jobId : string) (job : Job) (now : Z) : Conn :=
  {| written :=
       EvStarted jobId (total job) (length (completed job))
       :: (EvPageComplete <$> completed job)
       ++ (if bool_decide (status job = finished)
           then [EvFinished jobId (length (completed job)) (now - startTime job)%Z]
           else []);
     ended := bool_decide (status job = finished);
     write_throws := false;
     conn_job := Some jobId |}.

End Invariants.

(** ** The classification and the file check as the specification words them *)

Module Claimed.
Import Js JsValue Host Server.

Section WithPlatform.
Context `{Platform}.

(** A syntactic homepage match: the path is [/], empty, [/index.html] or
    [/home]. *)
Definition syntactic_homepage (url : string) : bool :=
  match URL_new url with
  | Some urlObj => is_home_path (pathname urlObj)
  | None => false
  end.

(** The URL at index [i] of the batch is the homepage exactly when it is a
    syntactic match, or the batch has several URLs, none of them is a
    syntactic match and [i] is the first index. *)
Definition claimed_homepage (i : nat) (allUrls : list string) : bool :=
  match allUrls !! i with
  | Some url =>
      syntactic_homepage url
      || (bool_decide (1 < length allUrls)
          && forallb (λ u, negb (syntactic_homepage u)) allUrls
          && bool_decide (i = 0))
  | None => false
  end.

Definition claimed_role (i : nat) (allUrls : list string) : string :=
  analysisType_of (claimed_homepage i allUrls).

(** The files the specification requires: all three pairs for the role
    [full], the body pair for the role [body-only]. *)
Definition claimed_files_present (w : World) (outputDir analysisType : string) : bool :=
  if str_eq analysisType "all"
  then hasHeader w outputDir && hasBody w outputDir && hasFooter w outputDir
  else hasBody w outputDir.

End WithPlatform.

End Claimed.

(** ** A platform to compute with

    A small instance of [Platform] on which the server can be run on
    concrete inputs.  Each function agrees with the host function on the
    texts it accepts and rejects every other text, so the examples use it
    only on texts it accepts and on texts the host function rejects as well
    (an address without a scheme, a truncated JSON text). *)

Module SimplePlatform.
Import Js JsValue Host.

Definition in_range (lo hi : nat) (c : ascii) : bool :=
  let n := nat_of_ascii c in bool_decide (lo ≤ n) && bool_decide (n ≤ hi).

Definition is_lower (c : ascii) : bool := in_range 97 122 c.
Definition is_upper (c : ascii) : bool := in_range 65 90 c.
Definition is_digit (c : ascii) : bool := in_range 48 57 c.

Fixpoint all_chars (f : ascii → bool) (s : string) : bool :=
  match s with
  | EmptyString => true
  | String c r => f c && all_chars f r
  end.

(** The text before the first [/] and the text from it on. *)
Fixpoint split_at_slash (s : string) : string * string :=
  match s with
  | EmptyString => (EmptyString, EmptyString)
  | String c r =>
      if bool_decide (c = "/"%char) then (EmptyString, s)
      else let '(h, p) := split_at_slash r in (String c h, p)
  end.

(** A host of lower-case letters and inner dots. *)
Definition host_ok (h : string) : bool :=
  match h with
  | EmptyString => false
  | String c _ =>
      is_lower c && all_chars (λ x, is_lower x || bool_decide (x = "."%char)) h
      && match String.get (String.length h - 1) h with
         | Some l => is_lower l
         | None => false
         end
  end.

(** No segment starts with a dot (so none is [.] or [..]). *)
Fixpoint no_dot_segment (s : string) : bool :=
  match s with
  | String a r =>
      match r with
      | String b _ =>
          negb (bool_decide (a = "/"%char) && bool_decide (b = "."%char)) && no_dot_segment r
      | EmptyString => true
      end
  | EmptyString => true
  end.

(** A path of letters, digits, [/], [.], [-] and [_]: empty, or an absolute
    path without an empty first segment and without dot segments. *)
Definition path_ok (p : string) : bool :=
  all_chars (λ x, is_lower x || is_upper x || is_digit x || bool_decide (x = "/"%char)
                  || bool_decide (x = "."%char) || bool_decide (x = "-"%char)
                  || bool_decide (x = "_"%char)) p
  && no_dot_segment p
  && match p with
     | EmptyString => true
     | String a (String b _) => bool_decide (a = "/"%char) && negb (bool_decide (b = "/"%char))
     | String a EmptyString => bool_decide (a = "/"%char)
     end.

Definition make_url (scheme rest : string) : option URLObject :=
  let '(h, p) := split_at_slash rest in
  if host_ok h && path_ok p then
    let path := match p with EmptyString => "/" | _ => p end in
    Some {| pathname := path; origin := scheme +:+ h; href := scheme +:+ h +:+ path |}
  else None.

(** [new URL(url)] on plain [http] and [https] addresses. *)
Definition simple_URL_new (url : string) : option URLObject :=
  match strip_prefix "https://" url with
  | Some rest => make_url "https://" rest
  | None =>
      match strip_prefix "http://" url with
      | Some rest => make_url "http://" rest
      | None => None
      end
  end.

(** [new URL(rel, base)] for an absolute path [rel] and a plain base. *)
Definition simple_URL_new_base (rel base : string) : option URLObject :=
  match simple_URL_new base with
  | Some b =>
      match rel with
      | String _ _ =>
          if path_ok rel
          then Some {| pathname := rel; origin := origin b; href := origin b +:+ rel |}
          else None
      | EmptyString => None
      end
  | None => None
  end.

(** Splitting a path at its [/] separators. *)
Fixpoint segments_go (cur : string) (s : string) : list string :=
  match s with
  | EmptyString => [cur]
  | String c r =>
      if bool_decide (c = "/"%char) then cur :: segments_go EmptyString r
      else segments_go (cur +:+ String c EmptyString) r
  end.

Definition segments (s : string) : list string := segments_go EmptyString s.

(** Resolution of the [.] and [..] segments and of the empty ones; [acc] is
    the reversed list of the segments kept so far. *)
Fixpoint normalize_go (acc : list string) (segs : list string) : list string :=
  match segs with
  | [] => reverse acc
  | x :: r =>
      if bool_decide (x = EmptyString) || bool_decide (x = ".") then normalize_go acc r
      else if bool_decide (x = "..") then normalize_go (tail acc) r
      else normalize_go (x :: acc) r
  end.

Fixpoint join_with (sep : string) (l : list string) : string :=
  match l with
  | [] => EmptyString
  | [x] => x
  | x :: r => x +:+ sep +:+ join_with sep r
  end.

(** [path.join] on absolute POSIX paths. *)
Definition simple_path_join (parts : list string) : string :=
  "/" +:+ join_with "/" (normalize_go [] (segments (join_with "/" parts))).

(** [path.basename] on POSIX paths: the last segment that is not empty;
    a [.] or [..] segment is a name like any other. *)
Definition simple_path_basename (p : string) : string :=
  default EmptyString (last (filter (λ x, x ≠ EmptyString) (segments p))).

(** *** A parser of JSON texts made of objects, arrays, strings without
    escapes, integers below 2^53, [true], [false] and [null]. *)

Definition dquote : ascii := "034"%char.

Fixpoint skip_ws (s : string) : string :=
  match s with
  | String c r =>
      match nat_of_ascii c with
      | 9 | 10 | 13 | 32 => skip_ws r
      | _ => s
      end
  | EmptyString => EmptyString
  end.

(** The characters up to the closing quote, and the text after it. *)
Fixpoint string_body (s : string) : option (string * string) :=
  match s with
  | EmptyString => None
  | String c r =>
      if bool_decide (c = dquote) then Some (EmptyString, r)
      else if bool_decide (c = "\"%char) || bool_decide (nat_of_ascii c < 32) then None
      else match string_body r with
           | Some (body, rest) => Some (String c body, rest)
           | None => None
           end
  end.

Fixpoint digits (acc : Z) (s : string) : Z * string :=
  match s with
  | String c r =>
      if is_digit c then digits (10 * acc + Z.of_nat (nat_of_ascii c - 48))%Z r
      else (acc, s)
  | EmptyString => (acc, s)
  end.

(** An integer below 2^53 in magnitude, without a leading zero, a fraction
    or an exponent. *)
Definition number (s : string) : option (Z * string) :=
  let '(neg, body) := match s with
                      | String "-" r => (true, r)
                      | _ => (false, s)
                      end in
  match body with
  | String c r =>
      if is_digit c then
        let '(z, rest) := digits 0 body in
        let lead_zero := bool_decide (c = "0"%char) && negb (bool_decide (z = 0%Z)) in
        let double_zero := match r with String d _ => bool_decide (c = "0"%char) && is_digit d | _ => false end in
        let more := match rest with
                    | String d _ => bool_decide (d = "."%char) || bool_decide (d = "e"%char)
                                    || bool_decide (d = "E"%char)
                    | EmptyString => false
                    end in
        if lead_zero || double_zero || more || bool_decide (2 ^ 53 ≤ z)%Z then None
        else Some (if neg then (- z)%Z else z, rest)
      else None
  | EmptyString => None
  end.

Fixpoint parse_value (fuel : nat) (s : string) : option (value * string) :=
  match fuel with
  | 0 => None
  | S fuel' =>
      match skip_ws s with
      | EmptyString => None
      | String c r =>
          if bool_decide (c = dquote) then
            match string_body r with
            | Some (body, rest) => Some (Str body, rest)
            | None => None
            end
          else if bool_decide (c = "{"%char) then
            match skip_ws r with
            | String "}" rest => Some (Obj [], rest)
            | _ =>
                match parse_members fuel' r with
                | Some (fields, rest) => Some (Obj fields, rest)
                | None => None
                end
            end
          else if bool_decide (c = "["%char) then
            match skip_ws r with
            | String "]" rest => Some (Arr [], rest)
            | _ =>
                match parse_items fuel' r with
                | Some (items, rest) => Some (Arr items, rest)
                | None => None
                end
            end
          else
            match strip_prefix "true" (String c r), strip_prefix "false" (String c r),
                  strip_prefix "null" (String c r) with
            | Some rest, _, _ => Some (Bool true, rest)
            | _, Some rest, _ => Some (Bool false, rest)
            | _, _, Some rest => Some (Null, rest)
            | _, _, _ =>
                match number (String c r) with
                | Some (z, rest) => Some (Num z, rest)
                | None => None
                end
            end
      end
  end
with parse_members (fuel : nat) (s : string) : option (list (string * value) * string) :=
  match fuel with
  | 0 => None
  | S fuel' =>
      match skip_ws s with
      | String c r =>
          if bool_decide (c = dquote) then
            match string_body r with
            | Some (key, rest) =>
                match skip_ws rest with
                | String ":" rest1 =>
                    match parse_value fuel' rest1 with
                    | Some (v, rest2) =>
                        match skip_ws rest2 with
                        | String "," rest3 =>
                            match parse_members fuel' rest3 with
                            | Some (fields, rest4) => Some ((key, v) :: fields, rest4)
                            | None => None
                            end
                        | String "}" rest3 => Some ([(key, v)], rest3)
                        | _ => None
                        end
                    | None => None
                    end
                | _ => None
                end
            | None => None
            end
          else None
      | EmptyString => None
      end
  end
with parse_items (fuel : nat) (s : string) : option (list value * string) :=
  match fuel with
  | 0 => None
  | S fuel' =>
      match parse_value fuel' s with
      | Some (v, rest) =>
          match skip_ws rest with
          | String "," rest1 =>
              match parse_items fuel' rest1 with
              | Some (items, rest2) => Some (v :: items, rest2)
              | None => None
              end
          | String "]" rest1 => Some ([v], rest1)
          | _ => None
          end
      | None => None
      end
  end.

(** A later member with the same key replaces an earlier one, as
    [JSON.parse] does: the lookup of [assoc] takes the first entry, so the
    members are kept in reverse order of appearance. *)
Fixpoint reverse_members (v : value) : value :=
  match v with
  | Obj fields =>
      Obj (reverse ((fix go (l : list (string * value)) :=
                       match l with
                       | [] => []
                       | (k, x) :: r => (k, reverse_members x) :: go r
                       end) fields))
  | Arr items =>
      Arr ((fix go (l : list value) :=
              match l with
              | [] => []
              | x :: r => reverse_members x :: go r
              end) items)
  | _ => v
  end.

(** [JSON.parse]; the message stands for the text of the engine. *)
Definition simple_JSON_parse (text : string) : parsed :=
  match parse_value (S (String.length text)) text with
  | Some (v, rest) =>
      match skip_ws rest with
      | EmptyString => Parsed (reverse_members v)
      | _ => SyntaxError "Unexpected non-whitespace character after JSON"
      end
  | None => SyntaxError "Unexpected token or end of JSON input"
  end.

Definition platform : Platform :=
  {| URL_new := simple_URL_new;
     URL_new_base := simple_URL_new_base;
     JSON_parse := simple_JSON_parse;
     path_join := simple_path_join;
     path_basename := simple_path_basename;
     dirname := "/app/ui" |}.

End SimplePlatform.

(** ** Inputs of the examples *)

Module Examples.
Import Js JsValue Host Server SimplePlatform.

(** A batch whose homepage is not its first URL. *)
Definition batch_late_home : list string := ["https://x.com/products"; "https://x.com/"].

(** A batch that starts with a text that is no URL. *)
Definition batch_invalid_first : list string := ["not a url"; "https://x.com/about"].

Definition shot_dir : string := "/app/screenshot_urlbox/output/x_com_1".

(** What the capture tool prints. *)
Definition capture_output : string := "Output saved in: " +:+ shot_dir +:+ LF.

(** The truncated JSON text [{"success":]. *)
Definition truncated_json : string :=
  "{" +:+ String dquote "success" +:+ String dquote ":".

(** A world in which the capture succeeds, the files are those of [files]
    and the analysis child ends as [ai] says. *)
Definition world (files : string → bool) (ai : ChildExit) : World :=
  {| spawn := λ command args,
       if bool_decide (head args = Some "-m")
       then Closed (Some 0%Z) capture_output EmptyString
       else ai;
     existsSync := files |}.

(** Only the header image and markup exist. *)
Definition header_only (path : string) : bool :=
  bool_decide (path = shot_dir +:+ "/header.png")
  || bool_decide (path = shot_dir +:+ "/header.html").

Definition all_files (path : string) : bool := true.

(** The body image exists, the body markup does not. *)
Definition body_png_only (path : string) : bool :=
  bool_decide (path = shot_dir +:+ "/body.png").

(** An analysis child that prints the empty object and exits with code 0. *)
Definition ai_empty_object : ChildExit := Closed (Some 0%Z) "{}" EmptyString.

(** An analysis child that prints a truncated text and exits with code 0. *)
Definition ai_truncated : ChildExit := Closed (Some 0%Z) truncated_json EmptyString.

Definition batch_home_first : list string := ["https://x.com/"; "https://x.com/products"].

Definition job_of (urls0 : list string) (hh fh : value) : Job :=
  {| urls := urls0; headerHeight := hh; footerHeight := fh; status := started;
     completed := []; total := length urls0; startTime := 0%Z; sseConnections := None |}.

(** A world in which every child succeeds and every file exists. *)
Definition w_ok : World := world all_files ai_empty_object.

(** A world in which the capture child exits with code 1. *)
Definition w_capture_fails : World :=
  {| spawn := λ command args, Closed (Some 1%Z) EmptyString "boom";
     existsSync := all_files |}.

(** The first URL is processed in [w_capture_fails], the other ones in
    [w_ok]. *)
Definition worlds (i : nat) : World :=
  match i with
  | 0 => w_capture_fails
  | S _ => w_ok
  end.

Section States.
Local Existing Instance platform.

(** A job of two URLs has been started. *)
Definition st_started : State :=
  start_analysis "job1" batch_home_first Undefined Undefined 0%Z init.

(** Its first URL has been processed. *)
Definition st_one_page : State := resume "job1" w_capture_fails 3%Z st_started.

(** Both URLs have been processed, without any subscriber. *)
Definition st_finished : State := resume "job1" w_ok 4%Z st_one_page.


(** Two requests subscribe to the started job; then writing to the response
    of the first one starts to throw. *)
Definition st_two_subscribers : State :=
  analysis_stream "job1" 2%Z (analysis_stream "job1" 1%Z st_started).

Definition st_first_broken : State := set_write_throws 0 true st_two_subscribers.

(** Writing to both responses throws. *)
Definition st_both_broken : State := set_write_throws 1 true st_first_broken.




End States.

End Examples.

(** ** ui/process_utils.js: the slice heights *)

Module Heights.
Import Js JsValue Host.

(** The characters matched by the class [\d]. *)
Definition is_decimal_digit (c : ascii) : bool :=
  let n := nat_of_ascii c in bool_decide (48 ≤ n) && bool_decide (n ≤ 57).

(** The greedy run matched by [(\d+)]: the longest prefix of digits. *)
Fixpoint digit_run (s : string) : string :=
  match s with
  | String c s' => if is_decimal_digit c then String c (digit_run s') else EmptyString
  | EmptyString => EmptyString
  end.

(** An attempt of the pattern [/label(\d+)/] at the start of [s]. *)
Definition match_here_digits (label s : string) : option string :=
  match strip_prefix label s with
  | Some rest =>
      match digit_run rest with
      | EmptyString => None
      | cap => Some cap
      end
  | None => None
  end.

(** [s.match(/label(\d+)/)]: capture group 1 of the leftmost success. *)
Fixpoint regexp_match_digits (label s : string) : option string :=
  match match_here_digits label s with
  | Some cap => Some cap
  | None =>
      match s with
      | String _ s' => regexp_match_digits label s'
      | EmptyString => None
      end
  end.

(** [parseInt] on a text of decimal digits, read from the left with the
    value [acc] of the digits read so far.  The value is exact for the
    numbers below 2^53, which a height in pixels is. *)
Fixpoint parseInt_from (acc : Z) (s : string) : Z :=
  match s with
  | String c s' =>
      if is_decimal_digit c
      then parseInt_from (10 * acc + Z.of_nat (nat_of_ascii c - 48))%Z s'
      else acc
  | EmptyString => acc
  end.

Definition parseInt (s : string) : Z := parseInt_from 0 s.

(** The object returned by [extractHeightInfo]; [None] is [null]. *)
Record HeightInfo := { info_headerHeight : option Z; info_footerHeight : option Z }.

(** [extractHeightInfo(output)] *)
Definition extractHeightInfo (output : string) : HeightInfo :=
  let headerMatch := regexp_match_digits "Header height: " output in
  let footerMatch := regexp_match_digits "Footer height: " output in
  {| info_headerHeight := parseInt <$> headerMatch;
     info_footerHeight := parseInt <$> footerMatch |}.

(** Every character of the text passes the test. *)
Fixpoint string_forall (f : ascii → bool) (s : string) : bool :=
  match s with
  | EmptyString => true
  | String c r => f c && string_forall f r
  end.

Definition first_char (s : string) : option ascii :=
  match s with
  | String c _ => Some c
  | EmptyString => None
  end.

Fixpoint last_char (s : string) : option ascii :=
  match s with
  | EmptyString => None
  | String c EmptyString => Some c
  | String _ r => last_char r
  end.

(** The text is empty or starts with a character that fails the test: a
    greedy run of the characters that pass it stops there. *)
Definition stops (f : ascii → bool) (s : string) : bool :=
  match s with
  | String c _ => negb (f c)
  | EmptyString => true
  end.

End Heights.

(** ** ui/process_utils.js: the subprocess runners *)

Module PythonProcess.
Import Js JsValue Host Server.

(** What the runners read from the module [../config], which is not among
    the files embedded here: [get_python_path()] is taken to return a string
    without throwing, and [PYTHON_TIMEOUT_MS] to be any value. *)
Record Config := { get_python_path : string; PYTHON_TIMEOUT_MS : value }.

(** An options object of [spawn]: its members in order. *)
Definition SpawnOptions : Type := list (string * value).

(** [{ ...a, ...b }]: the members of [a], each with the value [b] gives
    its name when [b] has it, followed by the members only [b] has. *)
Definition spread (a b : SpawnOptions) : SpawnOptions :=
  ((λ m, (m.1, if has_key m.1 b then assoc m.1 b else m.2)) <$> a)
  ++ filter (λ m, has_key m.1 a = false) b.

Section WithPlatform.
Context `{Platform}.

Definition PYTHON_PROCESS_OPTIONS (config : Config) : SpawnOptions :=
  [("cwd", Str (path_join [dirname; ".."]));
   ("stdio", Arr [Str "pipe"; Str "pipe"; Str "pipe"]);
   ("timeout", PYTHON_TIMEOUT_MS config)].


(** [await runPythonScript(scriptPath, args, options)] *)
Definition runPythonScript (config : Config) (worlds : SpawnOptions → World)
  (scriptPath : string) (args : list string) (options : SpawnOptions) : Exec ProcessResult :=
  let mergedOptions := spread (PYTHON_PROCESS_OPTIONS config) options in
  exit ← spawn_wait (worlds mergedOptions) (get_python_path config) (scriptPath :: args);
  settle (python_exit_result exit).

End WithPlatform.

End PythonProcess.

(** ** The outcomes of the analysis child *)

Module Outcomes.
Import Js JsValue Host Server.

Section WithPlatform.
Context `{Platform}.

(** What the analysis child leaves when it is taken as a success: it
    closed with exit code 0 and printed a JSON text whose value is not
    [null] and whose [success] is not [false]; or it could not be launched,
    or the call of [spawn] threw, and the error has the empty message. *)
Definition analysis_accepted (exit : ChildExit) : Prop :=
  exit = SpawnError EmptyString ∨ exit = Thrown EmptyString ∨
  ∃ stdout stderr v,
    exit = Closed (Some 0%Z) stdout stderr ∧ JSON_parse stdout = Parsed v ∧
    v ≠ Null ∧ v ≠ Undefined ∧ get v "success" ≠ Bool false.

End WithPlatform.

End Outcomes.

(** ** The single-URL endpoints *)

Module Endpoints.
Import Js JsValue Host ProcessUtils Server Heights.

(** What a handler answers with: the status code and the JSON body. *)
Record Response := { status_code : nat; body : value }.

(** The [error] argument of [sendError]: a string, or an [Error] object
    with its message. *)
Inductive ErrorArg :=
| ErrorText (text : string)
| ErrorObject (message : string).

(** [sendError(res, error, statusCode)].  [error.message] is [undefined] on
    a string, so [error.message || error] is the string itself; on an
    [Error] object whose message is empty it is the object, which is sent as
    the empty JSON object. *)
Definition sendError (error : ErrorArg) (statusCode : nat) : Response :=
  let errorMessage :=
    match error with
    | ErrorText text => Str text
    | ErrorObject message => if truthy (Str message) then Str message else Obj []
    end in
  {| status_code := statusCode;
     body := Obj [("success", Bool false); ("error", errorMessage)] |}.

(** [res.json(response)] *)
Definition send_json (response : value) : Response :=
  {| status_code := 200; body := response |}.

Section WithPlatform.
Context `{Platform}.

Definition missing_directory_message (output : string) : string :=
  "Could not find output directory from screenshot result. Output: "
  +:+ substring0 500 output.

(** The first step of [/discover-links] and of [/process], the same
    statements in both: the capture child is run on the URL alone and the
    directory is read off its output.  The value is the output and the
    directory. *)
Definition capture_directory (w : World) (url : string) : Exec (string * string) :=
  screenshotResult ← Server.runPythonScript w "screenshot_urlbox.processor" [url];
  if truthy (error screenshotResult)
  then (text ← template (error screenshotResult);
        throw ("Screenshot failed: " +:+ text))
  else
    match regexp_match "Output saved in: " (output screenshotResult) with
    | Some cap => mret (output screenshotResult, trim cap)
    | None =>
        match regexp_match "> Output saved in: " (output screenshotResult) with
        | Some cap => mret (output screenshotResult, trim cap)
        | None => throw (missing_directory_message (output screenshotResult))
        end
    end.

Definition linksScriptPath : string :=
  path_join [dirname; ".."; "ai_analysis"; "site_links_analyzer.py"].

(** The command line of the link analysis child. *)
Definition links_command (outputDir url : string) : Spawned :=
  (pythonPath, [linksScriptPath;
                path_join [outputDir; "header.png"]; path_join [outputDir; "header.html"];
                path_join [outputDir; "footer.png"]; path_join [outputDir; "footer.html"];
                url]).

(** [{ success: false, error: 'Link extraction failed' }] *)
Definition links_fallback : value :=
  Obj [("success", Bool false); ("error", Str "Link extraction failed")].

(** A height of the response: the number, or [null]. *)
Definition height_value (h : option Z) : value :=
  match h with
  | Some z => Num z
  | None => Null
  end.

(** The link analysis of [/discover-links], up to the value of
    [linksResult]: [null] unless the child was run, left no error and
    printed a text that [JSON.parse] accepts.  (When the text is [null], the
    log line after the assignment throws and is caught; the variable keeps
    the value.)  The child is awaited through a promise of the handler's
    own, with the handlers of [runPythonScript]; a call of [spawn] that
    throws rejects it, and the exception leaves the link analysis. *)
Definition links_analysis (w : World) (outputDir url : string) : Exec value :=
  if hasHeader w outputDir && hasFooter w outputDir then
    exit ← spawn_wait w pythonPath (links_command outputDir url).2;
    linksAnalysis ← settle (python_exit_result exit);
    if truthy (error linksAnalysis) then mret Null
    else
      match JSON_parse (output linksAnalysis) with
      | Parsed v => mret v
      | SyntaxError _ => mret Null
      end
  else mret Null.

(** The response object of [/discover-links]. *)
Definition links_response (outputDirName url : string) (headerHeight footerHeight : option Z)
  (linksResult : value) : value :=
  Obj [("success", Bool true);
       ("outputDir", Str outputDirName);
       ("images", Obj [("header", Str ("/screenshots/" +:+ outputDirName +:+ "/header.png"));
                       ("body", Str ("/screenshots/" +:+ outputDirName +:+ "/body.png"));
                       ("footer", Str ("/screenshots/" +:+ outputDirName +:+ "/footer.png"))]);
       ("sliceHeights", Obj [("header", height_value headerHeight);
                             ("footer", height_value footerHeight)]);
       ("links", if truthy linksResult then linksResult else links_fallback);
       ("url", Str url)].

(** The handler of [POST /discover-links] on a request whose [url] is a
    string. *)
Definition discover_links (w : World) (url : string) : Exec Response :=
  if negb (truthy (Str url)) then mret (sendError (ErrorText "URL is required") 400)
  else
    try_catch
      ('(output, outputDir) ← capture_directory w url;
       let outputDirName := path_basename outputDir in
       let headerHeightMatch := regexp_match_digits "Header height: " output in
       let footerHeightMatch := regexp_match_digits "Footer height: " output in
       let headerHeight := parseInt <$> headerHeightMatch in
       let footerHeight := parseInt <$> footerHeightMatch in
       linksResult ← links_analysis w outputDir url;
       mret (send_json (links_response outputDirName url headerHeight footerHeight
                          linksResult)))
      (λ message, mret (sendError (ErrorObject message) 500)).

(** The response object of [/process]; [siteLinks] is [false] for the older
    server, whose response has no [siteLinksAnalysis]. *)
Definition process_response (outputDirName url : string) (aiResult : AIResult)
  (siteLinks : bool) : value :=
  let results := opt_get (analysis aiResult) "results" in
  Obj ([("success", Bool true);
        ("outputDir", Str outputDirName);
        ("images", Obj [("full", Str ("/screenshots/" +:+ outputDirName +:+ "/full_page.png"));
                        ("header", Str ("/screenshots/" +:+ outputDirName +:+ "/header.png"));
                        ("footer", Str ("/screenshots/" +:+ outputDirName +:+ "/footer.png"));
                        ("body", Str ("/screenshots/" +:+ outputDirName +:+ "/body.png"))]);
        ("headerAnalysis", or_null (opt_get results "header"));
        ("footerAnalysis", or_null (opt_get results "footer"));
        ("bodyAnalysis", or_null (opt_get results "body"))]
       ++ (if siteLinks then [("siteLinksAnalysis", or_null (opt_get results "sitelinks"))]
           else [])
       ++ [("url", Str url)]).

(** The handler of [POST /process] of the job server; [runAIAnalysis] is
    called without an analysis type, which is then [all]. *)
Definition process (w : World) (url : string) : Exec Response :=
  if negb (truthy (Str url)) then mret (sendError (ErrorText "URL is required") 400)
  else
    try_catch
      ('(output, outputDir) ← capture_directory w url;
       let outputDirName := path_basename outputDir in
       aiResult ← runAIAnalysis w outputDir url "all";
       if truthy (ai_error aiResult)
       then (text ← template (ai_error aiResult);
             throw ("AI analysis failed: " +:+ text))
       else mret (send_json (process_response outputDirName url aiResult true)))
      (λ message, mret (sendError (ErrorObject message) 500)).

End WithPlatform.

(** What a run of a handler on a request with the URL [url] amounts to
    when the request is answered: the handler returns a response; without a
    URL the status is 400 and nothing was spawned; with a URL the status is
    200 on a body with [success: true] or 500 on a body with
    [success: false]; and at most two children were spawned. *)
Definition answered (url : string) (run : outcome Response * list Spawned) : Prop :=
  ∃ resp,
    run.1 = Return resp ∧
    (url = EmptyString → status_code resp = 400 ∧ run.2 = []) ∧
    (url ≠ EmptyString →
     (status_code resp = 200 ∧ get (body resp) "success" = Bool true) ∨
     (status_code resp = 500 ∧ get (body resp) "success" = Bool false)) ∧
    length run.2 ≤ 2.

End Endpoints.

(** ** ui/server.js: the older server *)

Module Legacy.
Import Js JsValue Host ProcessUtils Server Endpoints.

Section WithPlatform.
Context `{Platform}.

(** [runAIAnalysis(outputDir, url)]: the header pair or the footer pair is
    required and the analysis type passed to the child is always [all]; the
    handlers of the child are those of the job server. *)
Definition runAIAnalysis (w : World) (outputDir url : string) : Exec AIResult :=
  try_catch
    (_ ← (if negb (hasHeader w outputDir) && negb (hasFooter w outputDir)
          then throw "No header or footer files found for AI analysis"
          else mret ());
     exit ← spawn_wait w pythonPath [aiScriptPath; outputDir; url; "all"];
     mret (ai_exit_result exit))
    (λ message, mret {| analysis := Null; ai_error := Str message |}).

(** The two error answers of the older handler, which does not go through
    [sendError]. *)
Definition url_required : Response :=
  {| status_code := 400; body := Obj [("error", Str "URL is required")] |}.

Definition processing_error (message : string) : Response :=
  {| status_code := 500; body := Obj [("error", Str message); ("success", Bool false)] |}.

(** The handler of [POST /process]. *)
Definition process (w : World) (url : string) : Exec Response :=
  if negb (truthy (Str url)) then mret url_required
  else
    try_catch
      ('(output, outputDir) ← capture_directory w url;
       let outputDirName := path_basename outputDir in
       aiResult ← runAIAnalysis w outputDir url;
       if truthy (ai_error aiResult)
       then (text ← template (ai_error aiResult);
             throw ("AI analysis failed: " +:+ text))
       else mret (send_json (process_response outputDirName url aiResult false)))
      (λ message, mret (processing_error message)).

End WithPlatform.

End Legacy.

(** ** What a subscriber can observe *)

Module Observed.
Import Js JsValue Host Server.



(** What does not change in a job, and what only grows. *)
Definition job_extends (job job' : Job) : Prop :=
  urls job' = urls job ∧ headerHeight job' = headerHeight job ∧
  footerHeight job' = footerHeight job ∧ total job' = total job ∧
  startTime job' = startTime job ∧
  completed job `prefix_of` completed job' ∧
  (status job = finished → status job' = finished ∧ completed job' = completed job).

End Observed.

(** ** Further inputs of the examples *)

Module Samples.
Import Js JsValue Host Server SimplePlatform Examples.

(** What the capture tool prints when it also reports the slice heights. *)
Definition capture_report : string :=
  "Output saved in: /x" +:+ LF
  +:+ "Header height: " +:+ pretty 120%N +:+ LF
  +:+ "Footer height: " +:+ pretty 80%N +:+ LF.

(** A text between double quotes. *)
Definition quoted (s : string) : string :=
  String dquote s +:+ String dquote EmptyString.

(** The JSON text [{"success":false,"error":"quota"}]. *)
Definition refusal_json : string :=
  "{" +:+ quoted "success" +:+ ":false," +:+ quoted "error" +:+ ":" +:+ quoted "quota"
  +:+ "}".

(** A request value whose conversion to a string throws: the object
    [{"toString":1}]. *)
Definition unconvertible : value := Obj [("toString", Num 1%Z)].

(** An analysis child that prints a truncated text and exits with code 1. *)
Definition ai_truncated_crashed : ChildExit := Closed (Some 1%Z) truncated_json "Traceback".

(** An analysis child that exits with code 2 after a traceback. *)
Definition ai_crashed : ChildExit := Closed (Some 2%Z) EmptyString "Traceback".

(** An analysis child that exits with code 0 and reports a failure. *)
Definition ai_refused : ChildExit := Closed (Some 0%Z) refusal_json EmptyString.

Definition plain_job : Job := job_of batch_home_first Undefined Undefined.

Section States.
Local Existing Instance platform.

(** A request subscribes to the job that has just been started. *)
Definition st_subscribed : State := analysis_stream "job1" 1%Z st_started.

End States.

End Samples.

(* ===================================================================== *)
(** * Properties *)
(* ===================================================================== *)

Section OutputDirectory.
Import Js ProcessUtils.

Lemma regexp_match_None_tail label c s :
  regexp_match label (String c s) = None → regexp_match label s = None.
Proof.
  simpl. destruct (match_here label (String c s)); [discriminate | done].
Qed.

Lemma regexp_match_here label s cap :
  match_here label s = Some cap → regexp_match label s = Some cap.
Proof. intros H. destruct s; simpl; by rewrite H. Qed.

(** An attempt of the secondary pattern succeeds only on [> ] followed by a
    successful attempt of the primary pattern, with the same capture. *)
Lemma secondary_here_inv s cap :
  match_here secondary_label s = Some cap →
  ∃ s2, s = String ">" (String " " s2) ∧ match_here primary_label s2 = Some cap.
Proof.
  unfold match_here, secondary_label, primary_label.
  destruct s as [|a [|b s2]]; simpl.
  - discriminate.
  - case_bool_decide; discriminate.
  - case_bool_decide as Ha; [|discriminate].
    case_bool_decide as Hb; [|discriminate].
    subst a b. intros H. exists s2. split; [done|]. exact H.
Qed.

Lemma primary_None_secondary_None s :
  primary_match s = None → secondary_match s = None.
Proof.
  unfold primary_match, secondary_match.
  induction s as [|c s IH]; intros Hp.
  - reflexivity.
  - pose proof (regexp_match_None_tail _ _ _ Hp) as Hs.
    simpl. destruct (match_here secondary_label (String c s)) as [cap|] eqn:Hh.
    + apply secondary_here_inv in Hh as (s2 & Heq & Hm).
      simplify_eq.
      apply regexp_match_None_tail in Hs.
      apply regexp_match_here in Hm. congruence.
    + by apply IH.
Qed.

Lemma secondary_Some_primary_Some s cap :
  secondary_match s = Some cap → ∃ cap', primary_match s = Some cap'.
Proof.
  intros Hs. destruct (primary_match s) as [cap'|] eqn:Hp; [by eexists|].
  apply primary_None_secondary_None in Hp. congruence.
Qed.

(** C10, the claim as stated fails: on an output with two report lines the
    secondary pattern captures the directory of the marked line while the
    primary pattern captures the directory of the earlier, unmarked one. *)
Lemma fallback_capture_differs :
  let output := "Output saved in: A" +:+ LF +:+ "> Output saved in: B" in
  secondary_match output = Some "B" ∧ primary_match output = Some "A" ∧
  ¬ (∀ out cap, secondary_match out = Some cap → primary_match out = Some cap).
Proof.
  split; [reflexivity|]. split; [reflexivity|].
  intros H.
  specialize (H ("Output saved in: A" +:+ LF +:+ "> Output saved in: B") "B" eq_refl).
  vm_compute in H. discriminate.
Qed.

(** C10, amended: whenever the secondary pattern matches, the primary
    pattern matches too (possibly at an earlier occurrence, with another
    capture); hence [extractOutputDirectory] equals matching the primary
    pattern alone and its fallback branch is never the one that returns. *)
Theorem fallback_unreachable output :
  extractOutputDirectory output = extractOutputDirectory_primary_only output ∧
  (is_Some (secondary_match output) → is_Some (primary_match output)) ∧
  (primary_match output = None → extractOutputDirectory output = None).
Proof.
  unfold extractOutputDirectory, extractOutputDirectory_primary_only.
  destruct (primary_match output) as [cap|] eqn:Hp.
  - split; [reflexivity|]. split; [by eexists | discriminate].
  - rewrite (primary_None_secondary_None _ Hp).
    split; [reflexivity|]. split; [|reflexivity].
    intros [cap Hc]. discriminate.
Qed.

End OutputDirectory.

(** ** Page roles *)

Section Roles.
Import Js JsValue Host Server Claimed.
Context `{Platform}.

Lemma role_of_all url allUrls :
  role_of url allUrls = "all" ↔ isHomePageUrl url allUrls = true.
Proof. unfold role_of, analysisType_of. by destruct (isHomePageUrl url allUrls). Qed.

Lemma role_of_body url allUrls :
  role_of url allUrls = "body" ↔ isHomePageUrl url allUrls = false.
Proof. unfold role_of, analysisType_of. by destruct (isHomePageUrl url allUrls). Qed.

(** A hit of the loop over the home patterns is an address of one of the
    patterns under the origin. *)
Lemma scan_home_patterns_Hit url origin patterns :
  scan_home_patterns url origin patterns = Hit →
  ∃ pattern homeUrl, pattern ∈ patterns ∧
    URL_new_base pattern origin = Some homeUrl ∧ href homeUrl = url.
Proof.
  induction patterns as [|p ps IH]; simpl; [discriminate|].
  destruct (URL_new_base p origin) as [h|] eqn:Hp; [|discriminate].
  unfold str_eq. case_bool_decide as Heq.
  - intros _. exists p, h. split; [left|]. done.
  - intros Hs. destruct (IH Hs) as (q & hq & Hin & Hq & Hh).
    exists q, hq. split; [by right|done].
Qed.

(** C1, amended: a URL is the homepage exactly when it parses and either
    its path is [/], empty, [/index.html] or [/home], or the batch has more
    than one URL and the scan of the home patterns ([/index.php] included)
    under the origin of the URL either finds the URL as the address of a
    pattern, or resolves every pattern without finding it while the URL is
    equal to the first URL of the batch, whether or not another URL of the
    batch is a syntactic match.  When a pattern does not resolve under the
    origin before the URL is found, [new URL] throws and the URL is not the
    homepage, first of the batch or not.  The homepage gets the analysis
    type [all], every other URL [body]. *)
Theorem isHomePageUrl_exactly url allUrls :
  (isHomePageUrl url allUrls = true ↔
   ∃ urlObj, URL_new url = Some urlObj ∧
     (is_home_path (pathname urlObj) = true ∨
      (1 < length allUrls ∧
       (scan_home_patterns url (origin urlObj) homePatterns = Hit ∨
        (scan_home_patterns url (origin urlObj) homePatterns = Miss ∧
         allUrls !! 0 = Some url))))) ∧
  (role_of url allUrls = "all" ↔ isHomePageUrl url allUrls = true) ∧
  (role_of url allUrls = "body" ↔ isHomePageUrl url allUrls = false).
Proof.
  split; [|split; [apply role_of_all | apply role_of_body]].
  unfold isHomePageUrl.
  destruct (URL_new url) as [u|] eqn:Hu.
  - destruct (is_home_path (pathname u)) eqn:Hp.
    + split; [|done]. intros _. exists u. by split; [|left].
    + case_bool_decide as Hlen.
      * destruct (scan_home_patterns url (origin u) homePatterns) eqn:Hs.
        -- split; [|done]. intros _. exists u. split; [done|]. right. split; [done|by left].
        -- destruct (allUrls !! 0) as [first|] eqn:Hf.
           ++ unfold str_eq. case_bool_decide as Heq.
              ** subst first. split; [|done]. intros _. exists u.
                 split; [done|]. right. split; [done|]. by right.
              ** split; [done|]. intros (u' & Hu' & Hc). simplify_eq.
                 destruct Hc as [?|(_ & [?|[_ ?]])]; congruence.
           ++ split; [done|]. intros (u' & Hu' & Hc). simplify_eq.
              destruct Hc as [?|(_ & [?|[_ ?]])]; congruence.
        -- split; [done|]. intros (u' & Hu' & Hc). simplify_eq.
           destruct Hc as [?|(_ & [?|[? _]])]; congruence.
      * split; [done|]. intros (u' & Hu' & Hc). simplify_eq.
        destruct Hc as [?|(? & _)]; [congruence|lia].
  - split; [done|]. intros (u' & Hu' & _). discriminate.
Qed.

(** C9: a text that does not parse as a URL is never the homepage, whatever
    the batch and its position in it, and so gets the analysis type [body]. *)
Theorem invalid_url_body_only url allUrls :
  URL_new url = None →
  isHomePageUrl url allUrls = false ∧ role_of url allUrls = "body".
Proof.
  intros Hu. assert (isHomePageUrl url allUrls = false) as Hh.
  { unfold isHomePageUrl. by rewrite Hu. }
  split; [done|]. by apply role_of_body.
Qed.

End Roles.

Section RolesExamples.
Import Js JsValue Host Server Claimed SimplePlatform Examples.
Local Existing Instance platform.

(** The two batches of the specification. *)
Example roles_home_first :
  map (λ u, role_of u ["https://x.com/"; "https://x.com/products"])
      ["https://x.com/"; "https://x.com/products"] = ["all"; "body"].
Proof. reflexivity. Qed.

Example roles_no_home :
  map (λ u, role_of u ["https://x.com/products"; "https://x.com/about"])
      ["https://x.com/products"; "https://x.com/about"] = ["all"; "body"].
Proof. reflexivity. Qed.

(** C1, the claim as stated fails: in a batch whose second URL is a
    syntactic homepage match, the first URL has the path [/products] and is
    classified as homepage all the same, so both URLs get [all]. *)
Lemma first_url_full_beside_homepage :
  syntactic_homepage "https://x.com/products" = false ∧
  syntactic_homepage "https://x.com/" = true ∧
  claimed_role 0 batch_late_home = "body" ∧
  role_of "https://x.com/products" batch_late_home = "all" ∧
  role_of "https://x.com/" batch_late_home = "all".
Proof. repeat split; reflexivity. Qed.

Lemma invalid_url_body_only_witness :
  URL_new "not a url" = None ∧
  batch_invalid_first !! 0 = Some "not a url" ∧
  isHomePageUrl "not a url" batch_invalid_first = false ∧
  role_of "not a url" batch_invalid_first = "body".
Proof.
  split; [reflexivity|]. split; [reflexivity|].
  apply (invalid_url_body_only "not a url" batch_invalid_first). reflexivity.
Defined.

End RolesExamples.

(** ** The per-URL pipeline *)

Section PipelineProps.
Import Js JsValue Host Server Claimed.
Context `{Platform}.

Ltac unfold_exec :=
  unfold mbind, exec_mbind, exec_bind, mret, exec_mret, exec_ret, try_catch,
    spawn_wait, throw, settle in *.

Lemma validate_files_spec w outputDir analysisType log :
  validate_files w outputDir analysisType log =
  if files_ok w outputDir analysisType then (Return (), log)
  else (Throw (missing_files_message analysisType), log).
Proof.
  unfold validate_files, files_ok, missing_files_message. unfold_exec.
  destruct (str_eq analysisType "all").
  - by destruct (hasHeader w outputDir), (hasFooter w outputDir).
  - destruct (str_eq analysisType "body"); [|done].
    by destruct (hasBody w outputDir).
Qed.

(** [runAIAnalysis] calls [spawn] for the analysis child exactly when the
    file check passes; otherwise it resolves to the error of the check. *)
Lemma runAIAnalysis_spec w outputDir url analysisType log :
  runAIAnalysis w outputDir url analysisType log =
  if files_ok w outputDir analysisType
  then (Return (ai_exit_result (spawn w pythonPath [aiScriptPath; outputDir; url; analysisType])),
        log ++ [ai_command outputDir url analysisType])
  else (Return {| analysis := Null; ai_error := Str (missing_files_message analysisType) |}, log).
Proof.
  unfold runAIAnalysis. unfold_exec. rewrite validate_files_spec.
  by destruct (files_ok w outputDir analysisType).
Qed.

Lemma missing_files_message_truthy analysisType :
  truthy (Str (missing_files_message analysisType)) = true.
Proof. unfold missing_files_message. by destruct (str_eq analysisType "all"). Qed.

Lemma thrown_message_Str prefix s : thrown_message prefix (Str s) = prefix +:+ s.
Proof. reflexivity. Qed.

(** The arguments a hint adds: none for a falsy hint, the flag and the
    text for a truthy one whose [toString] returns. *)
Lemma hint_args_falsy flag expr hint :
  truthy hint = false → hint_args flag expr hint = Return [].
Proof. intros Ht. unfold hint_args. by rewrite Ht. Qed.

Lemma hint_args_Return flag expr hint l :
  hint_args flag expr hint = Return l →
  (truthy hint = false ∧ l = []) ∨
  (truthy hint = true ∧ ∃ text, toString_call expr hint = inl text ∧ l = [flag; text]).
Proof.
  unfold hint_args. destruct (truthy hint); [|intros [= <-]; by left].
  destruct (toString_call expr hint) as [text|m] eqn:Ht; [|discriminate].
  intros [= <-]. right. split; [done|]. by exists text.
Qed.

(** One loop iteration on a URL that is a string, branch by branch. *)
Lemma page_exec_spec w job url :
  page_exec w job url [] =
  match screenshotArgs job url with
  | Throw message => (Return (Failure url message), [])
  | Return args =>
      let log1 := [capture_command args] in
      match python_exit_result
              (spawn w pythonPath ("-m" :: "screenshot_urlbox.processor" :: args)) with
      | Throw message => (Return (Failure url message), log1)
      | Return shot =>
          if truthy (error shot)
          then (Return (Failure url (thrown_message "Screenshot failed: " (error shot))), log1)
          else
            match outputDirMatch (output shot) with
            | None => (Return (Failure url "Could not find output directory"), log1)
            | Some cap =>
                let outputDir := trim cap in
                let analysisType := role_of url (urls job) in
                if files_ok w outputDir analysisType then
                  let ai := ai_exit_result
                              (spawn w pythonPath [aiScriptPath; outputDir; url; analysisType]) in
                  (Return (if truthy (ai_error ai)
                           then Failure url (thrown_message "AI analysis failed: " (ai_error ai))
                           else build_result url (path_basename outputDir) analysisType ai),
                   log1 ++ [ai_command outputDir url analysisType])
                else
                  (Return (Failure url ("AI analysis failed: "
                                        +:+ missing_files_message analysisType)),
                   log1)
            end
      end
  end.
Proof.
  unfold page_exec, loop_iteration, analyse_page, runPythonScript, role_of, capture_command,
    template, thrown_message.
  unfold_exec. simpl.
  destruct (screenshotArgs job url) as [args|m]; [|done]. simpl.
  destruct (python_exit_result _) as [shot|m]; [|done].
  destruct (truthy (error shot)).
  { by destruct (to_String (error shot)). }
  destruct (outputDirMatch _) as [cap|]; [|done].
  rewrite runAIAnalysis_spec.
  destruct (files_ok _ _ _).
  - destruct (truthy (ai_error _)); [|done].
    by destruct (to_String (ai_error _)).
  - cbn [ai_error]. by rewrite missing_files_message_truthy.
Qed.

(** Every loop iteration on a URL that is a string yields a result for
    its URL: what its [try] block throws is caught. *)
Lemma page_exec_returns w job url :
  ∃ r, (page_exec w job url []).1 = Return r ∧ result_url r = url.
Proof.
  rewrite page_exec_spec. simpl.
  repeat (case_match; simpl); eauto.
Qed.

Lemma page_result_url w job url :
  ∃ r, page_result w job url = Return r ∧ result_url r = url.
Proof. apply page_exec_returns. Qed.

Lemma python_exit_ok out err :
  python_exit_result (Closed (Some 0%Z) out err)
  = Return {| output := out; error := Null |}.
Proof. reflexivity. Qed.

Lemma ai_exit_syntax_error stdout stderr message :
  JSON_parse stdout = SyntaxError message →
  ai_exit_result (Closed (Some 0%Z) stdout stderr) = parse_failure message stdout.
Proof. intros Hp. unfold ai_exit_result. rewrite Hp. reflexivity. Qed.

(** One loop iteration after a capture that succeeded and printed its
    directory. *)
Lemma page_exec_captured w job url args out err cap :
  screenshotArgs job url = Return args →
  spawn w pythonPath ("-m" :: "screenshot_urlbox.processor" :: args)
    = Closed (Some 0%Z) out err →
  outputDirMatch out = Some cap →
  page_exec w job url [] =
  let log1 := [capture_command args] in
  let outputDir := trim cap in
  let analysisType := role_of url (urls job) in
  if files_ok w outputDir analysisType then
    let ai := ai_exit_result (spawn w pythonPath [aiScriptPath; outputDir; url; analysisType]) in
    (Return (if truthy (ai_error ai)
             then Failure url (thrown_message "AI analysis failed: " (ai_error ai))
             else build_result url (path_basename outputDir) analysisType ai),
     log1 ++ [ai_command outputDir url analysisType])
  else
    (Return (Failure url ("AI analysis failed: " +:+ missing_files_message analysisType)), log1).
Proof.
  intros Hargs Hs Hm. rewrite page_exec_spec, Hargs. cbv zeta. rewrite Hs, python_exit_ok.
  cbn [error output truthy]. by rewrite Hm.
Qed.

Lemma substring0_prefix n s :
  String.length (substring0 n s) = n `min` String.length s ∧
  ∃ rest, s = substring0 n s +:+ rest.
Proof.
  revert s. induction n as [|n IH]; intros s.
  - split; [done|]. by exists s.
  - destruct s as [|c s]; simpl.
    + split; [done|]. by exists EmptyString.
    + destruct (IH s) as [Hl [rest Hr]]. split; [by rewrite Hl|].
      exists rest. by rewrite Hr at 1.
Qed.

(** C8: a falsy height hint, the number 0 among them, adds nothing to the
    arguments of the capture child, while a truthy one adds its flag and
    its text: the arguments are the URL followed by the arguments of the
    other hint alone (the URL alone when both hints are falsy), and whenever
    [spawn] is called for the capture child it is called with exactly
    these.  It is called unless the [toString] of the
    other hint throws, which ends the [try] block before any call of
    [spawn] and makes the page a failure. *)
Theorem falsy_height_hint_dropped w job url :
  (∀ flag expr hint, truthy hint = false → hint_args flag expr hint = Return []) ∧
  (∀ flag expr hint, truthy hint = true →
     hint_args flag expr hint = match toString_call expr hint with
                                | inl text => Return [flag; text]
                                | inr message => Throw message
                                end) ∧
  (truthy (headerHeight job) = false →
   screenshotArgs job url =
   match hint_args "--footer-height" "job.footerHeight" (footerHeight job) with
   | Return footer => Return (url :: footer)
   | Throw message => Throw message
   end) ∧
  (truthy (footerHeight job) = false →
   screenshotArgs job url =
   match hint_args "--header-height" "job.headerHeight" (headerHeight job) with
   | Return header => Return (url :: header)
   | Throw message => Throw message
   end) ∧
  (truthy (headerHeight job) = false → truthy (footerHeight job) = false →
   screenshotArgs job url = Return [url] ∧
   page_spawned w job url !! 0 = Some (capture_command [url])) ∧
  (∀ args, screenshotArgs job url = Return args →
     page_spawned w job url !! 0 = Some (capture_command args)) ∧
  (∀ message, screenshotArgs job url = Throw message →
     page_spawned w job url = [] ∧ page_result w job url = Return (Failure url message)) ∧
  truthy (Num 0) = false ∧ truthy Undefined = false ∧ truthy Null = false ∧
  truthy (Str EmptyString) = false ∧ truthy (Bool false) = false.
Proof.
  assert (∀ args, screenshotArgs job url = Return args →
            page_spawned w job url !! 0 = Some (capture_command args)) as Hspawn.
  { intros args Hargs. unfold page_spawned. rewrite page_exec_spec, Hargs. cbv zeta.
    repeat (case_match; simpl); done. }
  split; [apply hint_args_falsy|].
  split; [by intros flag expr hint Ht; unfold hint_args; rewrite Ht|].
  split; [|split; [|split; [|split; [done|split; [|done]]]]].
  - intros Hh. unfold screenshotArgs. rewrite (hint_args_falsy _ _ _ Hh).
    by destruct (hint_args _ _ (footerHeight job)).
  - intros Hf. unfold screenshotArgs. rewrite (hint_args_falsy _ _ _ Hf).
    destruct (hint_args _ _ (headerHeight job)); [|done]. simpl. by rewrite app_nil_r.
  - intros Hh Hf.
    assert (screenshotArgs job url = Return [url]) as Hargs.
    { unfold screenshotArgs. by rewrite (hint_args_falsy _ _ _ Hh), (hint_args_falsy _ _ _ Hf). }
    split; [done|]. by apply Hspawn.
  - intros message Hargs. unfold page_spawned, page_result.
    by rewrite page_exec_spec, Hargs.
Qed.

(** C5, amended: after a capture that printed its directory, a homepage
    (analysis type [all]) fails without any analysis child when neither the
    header pair nor the footer pair exists, and any other URL (analysis type
    [body]) fails without any analysis child when the body pair is missing;
    the failure carries the message of the check.  When the header pair or
    the footer pair exists, the analysis child of a homepage is spawned,
    whatever else is missing.  ([args] are the arguments of the capture
    child, which exist once it has been spawned.) *)
Theorem missing_files_never_analysed w job url args out err cap :
  screenshotArgs job url = Return args →
  spawn w pythonPath ("-m" :: "screenshot_urlbox.processor" :: args)
    = Closed (Some 0%Z) out err →
  outputDirMatch out = Some cap →
  (isHomePageUrl url (urls job) = true →
   hasHeader w (trim cap) = false → hasFooter w (trim cap) = false →
   page_result w job url =
     Return (Failure url
               "AI analysis failed: No header or footer files found for full analysis") ∧
   page_spawned w job url = [capture_command args]) ∧
  (isHomePageUrl url (urls job) = false →
   hasBody w (trim cap) = false →
   page_result w job url =
     Return (Failure url "AI analysis failed: No body files found for body analysis") ∧
   page_spawned w job url = [capture_command args]) ∧
  (isHomePageUrl url (urls job) = true →
   hasHeader w (trim cap) || hasFooter w (trim cap) = true →
   page_spawned w job url =
     [capture_command args; ai_command (trim cap) url "all"]) ∧
  (isHomePageUrl url (urls job) = false →
   hasBody w (trim cap) = true →
   page_spawned w job url =
     [capture_command args; ai_command (trim cap) url "body"]).
Proof.
  intros Hargs Hs Hm.
  pose proof (page_exec_captured w job url args out err cap Hargs Hs Hm) as He.
  cbv zeta in He. unfold page_result, page_spawned, role_of in *.
  split; [|split; [|split]].
  - intros Hh Hhd Hft. rewrite He, Hh. unfold files_ok. simpl. by rewrite Hhd, Hft.
  - intros Hh Hb. rewrite He, Hh. unfold files_ok. simpl. by rewrite Hb.
  - intros Hh Hb. rewrite He, Hh. unfold files_ok. simpl. by rewrite Hb.
  - intros Hh Hb. rewrite He, Hh. unfold files_ok. simpl. by rewrite Hb.
Qed.

(** C7, amended: a text that [JSON.parse] rejects makes
    [parseProcessOutput] return the failure object with the message and the
    first 200 characters of the text; when the analysis child exits with
    code 0 and prints such a text, the page becomes a failure whose message
    names the parse failure; when it exits with another code, its output is
    not parsed and the failure carries what it wrote to stderr or, without
    that, its exit code; and every loop iteration on a URL that is a string
    ends in a result, whatever the children do. *)
Theorem malformed_json_downgraded :
  (∀ output context message,
     JSON_parse output = SyntaxError message →
     ProcessUtils.parseProcessOutput output context =
     Obj [("success", Bool false);
          ("error", Str ("Failed to parse " +:+ context +:+ " response: " +:+ message));
          ("raw_output", Str (substring0 200 output))]) ∧
  (∀ output, String.length (substring0 200 output) = 200 `min` String.length output ∧
             ∃ rest, output = substring0 200 output +:+ rest) ∧
  (∀ w job url args out err cap stdout stderr message,
     screenshotArgs job url = Return args →
     spawn w pythonPath ("-m" :: "screenshot_urlbox.processor" :: args)
       = Closed (Some 0%Z) out err →
     outputDirMatch out = Some cap →
     files_ok w (trim cap) (role_of url (urls job)) = true →
     spawn w pythonPath [aiScriptPath; trim cap; url; role_of url (urls job)]
       = Closed (Some 0%Z) stdout stderr →
     JSON_parse stdout = SyntaxError message →
     page_result w job url =
     Return (Failure url ("AI analysis failed: Failed to parse AI response: " +:+ message +:+
                          ". Raw output: " +:+ substring0 200 stdout))) ∧
  (∀ w job url args out err cap code stdout stderr,
     screenshotArgs job url = Return args →
     spawn w pythonPath ("-m" :: "screenshot_urlbox.processor" :: args)
       = Closed (Some 0%Z) out err →
     outputDirMatch out = Some cap →
     files_ok w (trim cap) (role_of url (urls job)) = true →
     spawn w pythonPath [aiScriptPath; trim cap; url; role_of url (urls job)]
       = Closed code stdout stderr →
     code ≠ Some 0%Z →
     page_result w job url =
     Return (Failure url ("AI analysis failed: "
                          +:+ or_text stderr ("AI analysis failed with code "
                                              +:+ code_text code)))) ∧
  (∀ w job url, ∃ r, page_result w job url = Return r ∧ result_url r = url).
Proof.
  split; [|split; [|split; [|split]]].
  - intros output context message Hp. unfold ProcessUtils.parseProcessOutput.
    by rewrite Hp.
  - intros output. apply substring0_prefix.
  - intros w job url args out err cap stdout stderr message Hargs Hs Hm Hf Ha Hp.
    unfold page_result.
    rewrite (page_exec_captured w job url args out err cap Hargs Hs Hm). cbv zeta.
    rewrite Hf, Ha, (ai_exit_syntax_error _ _ _ Hp). reflexivity.
  - intros w job url args out err cap code stdout stderr Hargs Hs Hm Hf Ha Hc.
    unfold page_result.
    rewrite (page_exec_captured w job url args out err cap Hargs Hs Hm). cbv zeta.
    rewrite Hf, Ha. unfold ai_exit_result. rewrite bool_decide_eq_false_2 by done.
    cbn [ai_error]. unfold or_text. case_bool_decide as He.
    + reflexivity.
    + cbn [truthy]. rewrite bool_decide_eq_false_2 by done. reflexivity.
  - intros w job url. apply page_exec_returns.
Qed.

End PipelineProps.

Section PipelineExamples.
Import Js JsValue Host Server Claimed SimplePlatform Examples Samples.
Local Existing Instance platform.

(** C5, the claim as stated fails: for a homepage whose header pair exists
    while its body pair and its footer pair are missing, the analysis child
    is spawned and the page is reported as a success. *)
Lemma full_analysis_with_header_only :
  role_of "https://x.com/" batch_home_first = "all" ∧
  hasHeader (world header_only ai_empty_object) shot_dir = true ∧
  hasBody (world header_only ai_empty_object) shot_dir = false ∧
  hasFooter (world header_only ai_empty_object) shot_dir = false ∧
  claimed_files_present (world header_only ai_empty_object) shot_dir "all" = false ∧
  page_spawned (world header_only ai_empty_object)
    (job_of batch_home_first Undefined Undefined) "https://x.com/"
  = [capture_command ["https://x.com/"]; ai_command shot_dir "https://x.com/" "all"] ∧
  succeeded (page_result (world header_only ai_empty_object)
               (job_of batch_home_first Undefined Undefined) "https://x.com/") = true.
Proof. repeat split; vm_compute; reflexivity. Qed.

(** The example of the specification: the body image without the body
    markup, for a URL that is not the homepage. *)
Lemma missing_files_never_analysed_witness :
  page_result (world body_png_only ai_empty_object)
    (job_of batch_home_first Undefined Undefined) "https://x.com/products"
  = Return (Failure "https://x.com/products"
              "AI analysis failed: No body files found for body analysis") ∧
  page_spawned (world body_png_only ai_empty_object)
    (job_of batch_home_first Undefined Undefined) "https://x.com/products"
  = [capture_command ["https://x.com/products"]].
Proof.
  apply (missing_files_never_analysed (world body_png_only ai_empty_object)
           (job_of batch_home_first Undefined Undefined) "https://x.com/products"
           ["https://x.com/products"] capture_output EmptyString shot_dir); reflexivity.
Defined.

(** C7, the claim as stated fails: an analysis child that prints the
    truncated text and exits with code 1 yields a failure whose message is
    what the child wrote to stderr; the text is never parsed and the
    message does not name a parse failure. *)
Lemma malformed_json_unparsed_after_crash :
  JSON_parse truncated_json = SyntaxError "Unexpected token or end of JSON input" ∧
  spawn (world all_files ai_truncated_crashed) pythonPath
    [aiScriptPath; shot_dir; "https://x.com/"; "all"]
  = Closed (Some 1%Z) truncated_json "Traceback" ∧
  page_result (world all_files ai_truncated_crashed)
    (job_of batch_home_first Undefined Undefined) "https://x.com/"
  = Return (Failure "https://x.com/" "AI analysis failed: Traceback").
Proof. repeat split; vm_compute; reflexivity. Qed.

Lemma malformed_json_downgraded_witness :
  JSON_parse truncated_json = SyntaxError "Unexpected token or end of JSON input" ∧
  page_result (world all_files ai_truncated)
    (job_of batch_home_first Undefined Undefined) "https://x.com/"
  = Return (Failure "https://x.com/"
      ("AI analysis failed: Failed to parse AI response: Unexpected token or end of JSON input"
       +:+ ". Raw output: " +:+ truncated_json)).
Proof.
  split; [reflexivity|].
  apply (proj1 (proj2 (proj2 malformed_json_downgraded)) (world all_files ai_truncated)
           (job_of batch_home_first Undefined Undefined) "https://x.com/"
           ["https://x.com/"] capture_output EmptyString shot_dir truncated_json EmptyString
           "Unexpected token or end of JSON input"); reflexivity.
Defined.

Lemma falsy_height_hint_dropped_witness :
  truthy (headerHeight (job_of batch_home_first (Num 0) (Num 120))) = false ∧
  page_spawned (world all_files ai_empty_object)
    (job_of batch_home_first (Num 0) (Num 120)) "https://x.com/" !! 0
  = Some (pythonPath, ["-m"; "screenshot_urlbox.processor"; "https://x.com/";
                       "--footer-height"; "120"]) ∧
  page_spawned (world all_files ai_empty_object)
    (job_of batch_home_first (Num 0) unconvertible) "https://x.com/" = [] ∧
  page_result (world all_files ai_empty_object)
    (job_of batch_home_first (Num 0) unconvertible) "https://x.com/"
  = Return (Failure "https://x.com/" "job.footerHeight.toString is not a function").
Proof.
  split; [reflexivity|].
  destruct (falsy_height_hint_dropped (world all_files ai_empty_object)
              (job_of batch_home_first (Num 0) (Num 120)) "https://x.com/")
    as (_ & _ & _ & _ & _ & Hs & _).
  split; [exact (Hs _ eq_refl)|].
  destruct (falsy_height_hint_dropped (world all_files ai_empty_object)
              (job_of batch_home_first (Num 0) unconvertible) "https://x.com/")
    as (_ & _ & _ & _ & _ & _ & Ht & _).
  exact (Ht _ eq_refl).
Defined.

End PipelineExamples.

(** ** Writing to the streams *)

Section Streams.
Import Js JsValue Host Server Invariants.

Lemma res_write_Some res e cs cs' :
  res_write res e cs = Some cs' →
  ∃ c, cs !! res = Some c ∧ write_throws c = false ∧
       ((ended c = true ∧ cs' = cs) ∨
        (ended c = false ∧ cs' = <[res := conn_append c e]> cs)).
Proof.
  unfold res_write. destruct (cs !! res) as [c|]; [|discriminate].
  destruct (write_throws c) eqn:Ht; [discriminate|].
  destruct (ended c) eqn:He; intros [= <-]; exists c; eauto.
Qed.

Lemma res_write_None res e cs :
  res_write res e cs = None → ¬ can_write cs res.
Proof.
  unfold res_write. intros Hw (c & Hc & Ht). rewrite Hc, Ht in Hw.
  by destruct (ended c).
Qed.

Lemma can_write_insert cs res c e res' :
  cs !! res = Some c → can_write cs res' → can_write (<[res := conn_append c e]> cs) res'.
Proof.
  intros Hc (c' & Hc' & Ht). destruct (decide (res = res')) as [->|Hne].
  - exists (conn_append c e). rewrite list_lookup_insert_eq by eauto using lookup_lt_Some.
    simplify_eq. done.
  - exists c'. by rewrite list_lookup_insert_ne.
Qed.

Lemma take_S_eq {A} (l1 l2 : list A) k :
  take (S k) l1 = take (S k) l2 → take k l1 = take k l2.
Proof.
  intros Heq. apply (f_equal (take k)) in Heq.
  rewrite !take_take in Heq. by rewrite !Nat.min_l in Heq by lia.
Qed.

Lemma take_delete_same {A} (l : list A) k : take k (delete k l) = take k l.
Proof.
  rewrite delete_take_drop. destruct (decide (k ≤ length l)).
  - rewrite take_app_le by (rewrite length_take; lia).
    rewrite take_take. by rewrite Nat.min_id.
  - rewrite drop_ge by lia. rewrite app_nil_r, take_take. by rewrite Nat.min_id.
Qed.

Lemma elem_of_delete_other {A} (l : list A) k x y :
  l !! k = Some y → x ∈ l → x ≠ y → x ∈ delete k l.
Proof.
  intros Hk [i Hi]%list_elem_of_lookup_1 Hne.
  destruct (decide (i < k)).
  - apply (list_elem_of_lookup_2 _ i). by rewrite list_lookup_delete_lt.
  - assert (i ≠ k) by congruence. destruct i as [|i]; [lia|].
    apply (list_elem_of_lookup_2 _ i). rewrite list_lookup_delete_ge by lia. done.
Qed.

(** What the [forEach] of [broadcastToJob] does from the index [k] on, for
    an array without repetitions: the store keeps its size; the array keeps
    its first [k] elements and only loses elements; a response it can write
    to stays in the array; and each response is either untouched or, being
    open and still in the array at an index from [k] on, has the event
    appended once. *)
Lemma forEach_write_spec n k e arr cs arr' cs' :
  NoDup arr →
  forEach_write n k e arr cs = (arr', cs') →
  length cs' = length cs ∧
  take k arr' = take k arr ∧
  arr' `sublist_of` arr ∧
  (∀ res, res ∈ arr → can_write cs res → res ∈ arr') ∧
  (∀ res, cs' !! res = cs !! res ∨
          ∃ i c, k ≤ i ∧ arr' !! i = Some res ∧ cs !! res = Some c ∧
                 write_throws c = false ∧ ended c = false ∧
                 cs' !! res = Some (conn_append c e)).
Proof.
  revert k arr cs. induction n as [|n IH]; intros k arr cs Hnd; simpl.
  { intros [= <- <-]. repeat split; auto. }
  destruct (arr !! k) as [r|] eqn:Hk.
  - destruct (res_write r e cs) as [cs1|] eqn:Hw.
    + intros Hf. destruct (IH _ _ _ Hnd Hf) as (Hlen & Htk & Hsub & Hkeep & Hdel).
      apply res_write_Some in Hw as (c & Hc & Ht & Hcase).
      assert (arr' !! k = Some r) as Hk'.
      { rewrite <- (lookup_take_lt arr' (S k)) by lia. rewrite Htk.
        by rewrite lookup_take_lt by lia. }
      assert (NoDup arr') as Hnd' by eauto using sublist_NoDup.
      destruct Hcase as [[He ->]|[He ->]].
      * repeat split; auto using take_S_eq.
        intros res. destruct (Hdel res) as [?|(i & c' & ? & ?)]; [by left|].
        right. exists i, c'. split; [lia|done].
      * rewrite length_insert in Hlen. repeat split; auto using take_S_eq.
        { intros res Hin Hcw. apply Hkeep; [done|]. by apply can_write_insert. }
        intros res. destruct (decide (res = r)) as [->|Hne].
        -- right. exists k, c. destruct (Hdel r) as [Heq|(i & c' & Hi & Hi' & _)].
           ++ rewrite Heq, list_lookup_insert_eq by eauto using lookup_lt_Some.
              repeat split; auto.
           ++ pose proof (NoDup_lookup _ _ _ _ Hnd' Hk' Hi'). lia.
        -- destruct (Hdel res) as [Heq|(i & c' & Hi & Hi' & Hc' & Hrest)].
           ++ left. by rewrite Heq, list_lookup_insert_ne.
           ++ right. exists i, c'. rewrite list_lookup_insert_ne in Hc' by done.
              split; [lia|done].
    + intros Hf.
      assert (NoDup (delete k arr)) as Hnd1 by eauto using sublist_NoDup, sublist_delete.
      destruct (IH _ _ _ Hnd1 Hf) as (Hlen & Htk & Hsub & Hkeep & Hdel).
      repeat split; auto.
      * apply take_S_eq in Htk. by rewrite Htk, take_delete_same.
      * etrans; [done|]. apply sublist_delete.
      * intros res Hin Hcw. apply Hkeep; [|done].
        eapply elem_of_delete_other; [done..|].
        intros ->. by eapply res_write_None.
      * intros res. destruct (Hdel res) as [?|(i & c' & ? & ?)]; [by left|].
        right. exists i, c'. split; [lia|done].
  - intros Hf. destruct (IH _ _ _ Hnd Hf) as (Hlen & Htk & Hsub & Hkeep & Hdel).
    repeat split; auto using take_S_eq.
    intros res. destruct (Hdel res) as [?|(i & c' & ? & ?)]; [by left|].
    right. exists i, c'. split; [lia|done].
Qed.

Lemma res_end_lookup r cs res :
  res_end r cs !! res =
  (λ c, if bool_decide (res = r) then conn_end c else c) <$> cs !! res.
Proof.
  unfold res_end. destruct (cs !! r) as [c|] eqn:Hr.
  - destruct (decide (res = r)) as [->|Hne].
    + rewrite list_lookup_insert_eq by eauto using lookup_lt_Some.
      rewrite Hr. simpl. by rewrite bool_decide_eq_true_2.
    + rewrite list_lookup_insert_ne by done.
      destruct (cs !! res); simpl; [|done]. by rewrite bool_decide_eq_false_2.
  - destruct (cs !! res) as [c|] eqn:Hres; simpl; [|done].
    rewrite bool_decide_eq_false_2; [done|]. congruence.
Qed.

(** The closing [forEach]: the responses of the array are ended, the other
    ones are untouched. *)
Lemma forEach_end_lookup arr cs res :
  forEach_end arr cs !! res =
  (λ c, if bool_decide (res ∈ arr) then conn_end c else c) <$> cs !! res.
Proof.
  unfold forEach_end. revert cs. induction arr as [|r arr IH]; intros cs; simpl.
  - by destruct (cs !! res).
  - rewrite IH, res_end_lookup. destruct (cs !! res) as [c|]; simpl; [|done].
    f_equal. destruct (decide (res = r)) as [->|Hne].
    + rewrite (bool_decide_eq_true_2 (r = r)) by done.
      rewrite (bool_decide_eq_true_2 (r ∈ r :: arr)) by (apply elem_of_cons; by left).
      by destruct (bool_decide (r ∈ arr)).
    + rewrite (bool_decide_eq_false_2 (res = r)) by done.
      rewrite (bool_decide_ext (res ∈ r :: arr) (res ∈ arr)); [done|].
      rewrite elem_of_cons. split; [intros [?|?]; [congruence|done] | intros; by right].
Qed.

Lemma forEach_end_length arr cs : length (forEach_end arr cs) = length cs.
Proof.
  unfold forEach_end. revert cs. induction arr as [|r arr IH]; intros cs; simpl; [done|].
  rewrite IH. unfold res_end. destruct (cs !! r); [|done]. by rewrite length_insert.
Qed.

Lemma set_sseConnections_same job : set_sseConnections job (sseConnections job) = job.
Proof. by destruct job. Qed.

(** [broadcastToJob] on a known job whose array has no repetitions. *)
Lemma broadcastToJob_spec jobId e st job :
  analysisJobs st !! jobId = Some job →
  (∀ arr, sseConnections job = Some arr → NoDup arr) →
  ∃ sse' cs',
    broadcastToJob jobId e st =
      {| analysisJobs := <[jobId := set_sseConnections job sse']> (analysisJobs st);
         conns := cs'; tasks := tasks st;
         broadcast_log := broadcast_log st ++ [(jobId, e)] |} ∧
    broadcast_effect e (sseConnections job) (conns st) sse' cs'.
Proof.
  intros Hjob Hnd. unfold broadcastToJob, broadcast_effect. rewrite Hjob.
  destruct (sseConnections job) as [arr|] eqn:Hsse.
  - destruct (forEach_write (length arr) 0 e arr (conns st)) as [arr' cs'] eqn:Hf.
    destruct (forEach_write_spec _ _ _ _ _ _ _ (Hnd _ eq_refl) Hf)
      as (Hlen & _ & Hsub & Hkeep & Hdel).
    exists (Some arr'), cs'. split; [done|]. split; [done|]. split.
    + intros res c' Hc'. destruct (Hdel res) as [Heq|(i & c & _ & Hi & Hc & Ht & He & Hc2)].
      * exists c'. split; [congruence|]. repeat split; auto.
      * exists c. split; [done|]. simplify_eq. repeat split; auto.
        right. repeat split; auto. exists arr'. split; [done|].
        by eapply list_elem_of_lookup_2.
    + by exists arr'.
  - exists None, (conns st). split.
    + rewrite <- Hsse, set_sseConnections_same. by rewrite insert_id.
    + split; [done|]. split; [|done].
      intros res c' Hc'. exists c'. split; [done|]. repeat split; auto.
Qed.

Lemma events_of_app jobId l1 l2 :
  events_of jobId (l1 ++ l2) = events_of jobId l1 ++ events_of jobId l2.
Proof. unfold events_of. by rewrite filter_app, fmap_app. Qed.

Lemma events_of_same jobId e : events_of jobId [(jobId, e)] = [e].
Proof. unfold events_of. by rewrite filter_cons_True. Qed.

Lemma events_of_other jobId jobId' e : jobId' ≠ jobId → events_of jobId [(jobId', e)] = [].
Proof. intros Hne. unfold events_of. by rewrite filter_cons_False. Qed.

End Streams.

(** ** The job table across the turns of the event loop *)

Section JobTable.
Import Js JsValue Host Server Invariants.

Lemma conn_ok_mono st st' c :
  conn_ok st c →
  (∀ j, is_Some (analysisJobs st !! j) → is_Some (analysisJobs st' !! j)) →
  (∀ j, conn_job c = Some j → tasks st !! j = None → tasks st' !! j = None) →
  conn_ok st' c.
Proof.
  intros [Hdom Hlog] Hjobs Htasks. split; [by eauto|].
  destruct Hlog as [?|(pre & fin & ? & ? & ? & ? & Ht)]; [by left|].
  right. exists pre, fin. repeat split; eauto.
Qed.

Lemma conn_ok_fields st c c' :
  conn_ok st c → conn_job c' = conn_job c → written c' = written c →
  ended c' = ended c → conn_ok st c'.
Proof.
  intros [Hdom Hlog] Hj Hw He. split; [by rewrite Hj|].
  rewrite Hw, He, Hj. done.
Qed.

(** The invariant after a turn that concerns one job: the other jobs, their
    tasks, their events and the responses of their requests are as before. *)
Lemma loop_invariant_frame st st' jobId :
  loop_invariant st →
  (∀ j, j ≠ jobId → analysisJobs st' !! j = analysisJobs st !! j) →
  (is_Some (analysisJobs st !! jobId) → is_Some (analysisJobs st' !! jobId)) →
  (∀ j, j ≠ jobId → tasks st' !! j = tasks st !! j) →
  (∀ j, j ≠ jobId → events_of j (broadcast_log st') = events_of j (broadcast_log st)) →
  (∀ res c, conns st !! res = Some c →
     ∃ c', conns st' !! res = Some c' ∧ conn_job c' = conn_job c) →
  (∀ res c c', conns st !! res = Some c → conns st' !! res = Some c' →
     conn_job c' ≠ Some jobId →
     conn_job c' = conn_job c ∧ written c' = written c ∧ ended c' = ended c) →
  (∀ job', analysisJobs st' !! jobId = Some job' → job_ok st' jobId job') →
  (analysisJobs st' !! jobId = None →
     tasks st' !! jobId = None ∧ events_of jobId (broadcast_log st') = []) →
  (∀ res c', conns st' !! res = Some c' →
     conn_job c' = Some jobId ∨ conns st !! res = None → conn_ok st' c') →
  loop_invariant st'.
Proof.
  intros [Hjobs Hunk Hconns] Hother Hsome Htasks Hev Hback Hfwd Hjob Hnone Hmine.
  split.
  - intros j job Hj. destruct (decide (j = jobId)) as [->|Hne]; [by apply Hjob|].
    rewrite Hother in Hj by done.
    destruct (Hjobs _ _ Hj) as (Htot & Hurls & Htask & Hsse & Hlog).
    split; [done|]. split; [done|]. split; [by rewrite Htasks|].
    split; [|by rewrite Hev].
    intros arr Harr. destruct (Hsse _ Harr) as [Hnd Hall]. split; [done|].
    intros res Hin. destruct (Hall _ Hin) as (c & Hc & Hcj).
    destruct (Hback _ _ Hc) as (c' & Hc' & Hcj'). exists c'. split; [done|congruence].
  - intros j Hj. destruct (decide (j = jobId)) as [->|Hne]; [by apply Hnone|].
    rewrite Hother in Hj by done. rewrite Htasks, Hev by done. by apply Hunk.
  - intros res c' Hc'.
    destruct (decide (conn_job c' = Some jobId)) as [Hcj|Hcj]; [by eapply Hmine; eauto|].
    destruct (conns st !! res) as [c|] eqn:Hc; [|by eapply Hmine; eauto].
    destruct (Hfwd _ _ _ Hc Hc' Hcj) as (Hj & Hw & He).
    eapply conn_ok_fields; [|done..].
    eapply conn_ok_mono; [by eapply Hconns| |].
    + intros j Hj'. destruct (decide (j = jobId)) as [->|Hne]; [by auto|].
      by rewrite Hother.
    + intros j Hj' Ht. rewrite Htasks; [done|]. congruence.
Qed.

Lemma loop_invariant_init : loop_invariant init.
Proof.
  split.
  - intros j job Hj. cbn in Hj. by rewrite lookup_empty in Hj.
  - intros j _. cbn. by rewrite lookup_empty.
  - intros res c Hc. cbn in Hc. by rewrite lookup_nil in Hc.
Qed.

(** The invariant reads a response only through its events, its end flag
    and its job. *)
Lemma loop_invariant_conns st cs' :
  loop_invariant st →
  (∀ res, match cs' !! res, conns st !! res with
          | Some c', Some c =>
              conn_job c' = conn_job c ∧ written c' = written c ∧ ended c' = ended c
          | None, None => True
          | _, _ => False
          end) →
  loop_invariant {| analysisJobs := analysisJobs st; conns := cs'; tasks := tasks st;
                    broadcast_log := broadcast_log st |}.
Proof.
  intros [Hjobs Hunk Hconns] Hsame. split; simpl.
  - intros j job Hj. destruct (Hjobs _ _ Hj) as (Htot & Hurls & Htask & Hsse & Hlog).
    split; [done|]. split; [done|]. split; [done|]. split; [|done]. simpl.
    intros arr Harr. destruct (Hsse _ Harr) as [Hnd Hall]. split; [done|].
    intros res Hin. destruct (Hall _ Hin) as (c & Hc & Hcj).
    specialize (Hsame res). rewrite Hc in Hsame.
    destruct (cs' !! res) as [c'|]; [|done]. exists c'. split; [done|].
    destruct Hsame as (-> & _). done.
  - done.
  - intros res c' Hc'. specialize (Hsame res). rewrite Hc' in Hsame.
    destruct (conns st !! res) as [c|] eqn:Hc; [|done].
    destruct Hsame as (Hj & Hw & He).
    eapply conn_ok_fields; [|done..].
    eapply conn_ok_mono; [by eapply Hconns|done|done].
Qed.

Lemma loop_invariant_set_write_throws res b st :
  loop_invariant st → loop_invariant (set_write_throws res b st).
Proof.
  intros Hinv. unfold set_write_throws.
  destruct (conns st !! res) as [c|] eqn:Hc; [|done].
  apply loop_invariant_conns; [done|]. intros res'.
  destruct (decide (res' = res)) as [->|Hne].
  - rewrite list_lookup_insert_eq by eauto using lookup_lt_Some. by rewrite Hc.
  - rewrite list_lookup_insert_ne by done. by destruct (conns st !! res').
Qed.

Lemma loop_invariant_start_analysis jobId urls0 hh fh now st :
  loop_invariant st → analysisJobs st !! jobId = None →
  loop_invariant (start_analysis jobId urls0 hh fh now st).
Proof.
  intros Hinv Hfresh. unfold start_analysis. destruct urls0 as [|u urls0]; [done|].
  apply (loop_invariant_frame st _ jobId); simpl; try done.
  - intros j Hne. by rewrite lookup_insert_ne.
  - intros _. rewrite lookup_insert_eq. by eexists.
  - intros j Hne. by rewrite lookup_insert_ne.
  - intros res c Hc. by exists c.
  - intros res c c' Hc Hc' _. by simplify_eq.
  - intros job'. rewrite lookup_insert_eq. intros [= <-].
    destruct (inv_unknown _ Hinv _ Hfresh) as [_ Hev].
    unfold job_ok; simpl. rewrite lookup_insert_eq. rewrite Hev.
    split; [done|]. split; [done|]. split; [repeat split; lia|].
    split; [done|]. by exists [].
  - by rewrite lookup_insert_eq.
  - intros res c' Hc' [Hcj|Hc]; [|congruence].
    destruct (inv_conns _ Hinv _ _ Hc') as [Hdom _].
    destruct (Hdom _ Hcj) as [? ?]. congruence.
Qed.

Lemma indexOf_Some res arr index : indexOf res arr = Some index → arr !! index = Some res.
Proof.
  revert index. induction arr as [|x arr IH]; intros index; simpl; [done|].
  case_bool_decide as Hx.
  - intros [= <-]. by subst.
  - destruct (indexOf res arr) as [k|]; simpl; [|done]. intros [= <-]. by apply IH.
Qed.

Lemma indexOf_None res arr : indexOf res arr = None → res ∉ arr.
Proof.
  induction arr as [|x arr IH]; simpl; [intros _; apply not_elem_of_nil|].
  case_bool_decide as Hx; [done|].
  destruct (indexOf res arr) as [k|]; simpl; [done|]. intros _.
  rewrite elem_of_cons. intros [?|?]; [congruence|]. by apply IH.
Qed.

Lemma job_ok_sublist st jobId job arr arr' :
  job_ok st jobId job → sseConnections job = Some arr → arr' `sublist_of` arr →
  job_ok st jobId (set_sseConnections job (Some arr')).
Proof.
  intros (Htot & Hurls & Htask & Hsse & Hlog) Harr Hsub.
  split; [done|]. split; [done|]. split; [done|]. split; [|done]. simpl.
  intros ? [= <-]. destruct (Hsse _ Harr) as [Hnd Hall]. split.
  - by eapply sublist_NoDup.
  - intros res Hin. apply Hall. by eapply elem_of_sublist.
Qed.

Lemma job_ok_tasks_conns st st' jobId job :
  job_ok st jobId job →
  tasks st' !! jobId = tasks st !! jobId →
  broadcast_log st' = broadcast_log st →
  (∀ res c, conns st !! res = Some c →
     ∃ c', conns st' !! res = Some c' ∧ conn_job c' = conn_job c) →
  job_ok st' jobId job.
Proof.
  intros (Htot & Hurls & Htask & Hsse & Hlog) Ht Hl Hback.
  split; [done|]. split; [done|]. split; [by rewrite Ht|]. split; [|by rewrite Hl].
  intros arr Harr. destruct (Hsse _ Harr) as [Hnd Hall]. split; [done|].
  intros res Hin. destruct (Hall _ Hin) as (c & Hc & Hcj).
  destruct (Hback _ _ Hc) as (c' & Hc' & Hcj'). exists c'. split; [done|congruence].
Qed.

Lemma loop_invariant_close_event res st :
  loop_invariant st → loop_invariant (close_event res st).
Proof.
  intros Hinv. unfold close_event.
  destruct (conns st !! res) as [c|] eqn:Hc; [|done].
  destruct (conn_job c) as [jobId|] eqn:Hcj; [|done].
  destruct (analysisJobs st !! jobId) as [job|] eqn:Hjob; [|done].
  destruct (sseConnections job) as [arr|] eqn:Harr; [|done].
  destruct (indexOf res arr) as [index|] eqn:Hidx; [|done].
  apply (loop_invariant_frame st _ jobId); simpl; try done.
  - intros j Hne. by rewrite lookup_insert_ne.
  - intros _. rewrite lookup_insert_eq. by eexists.
  - intros r c0 Hc0. by exists c0.
  - intros r c0 c' Hc0 Hc' _. by simplify_eq.
  - intros job'. rewrite lookup_insert_eq. intros [= <-].
    eapply (job_ok_tasks_conns st); [|done|done|by eauto].
    eapply job_ok_sublist; [by eapply inv_jobs|done|apply sublist_delete].
  - by rewrite lookup_insert_eq.
  - intros r c' Hc' _. eapply conn_ok_mono; [by eapply inv_conns| |done].
    intros j Hj. simpl. destruct (decide (j = jobId)) as [->|Hne].
    + rewrite lookup_insert_eq. by eexists.
    + by rewrite lookup_insert_ne.
Qed.

End JobTable.

Section Subscribe.
Import Js JsValue Host Server Invariants.

Lemma res_write_last cs c e :
  write_throws c = false → ended c = false →
  res_write (length cs) e (cs ++ [c]) = Some (cs ++ [conn_append c e]).
Proof.
  intros Ht He. unfold res_write.
  rewrite lookup_app_r, Nat.sub_diag by lia. simpl. rewrite Ht, He.
  rewrite insert_app_r_alt, Nat.sub_diag by lia. done.
Qed.

Lemma write_each_last cs c es :
  write_throws c = false → ended c = false →
  write_each (length cs) es (cs ++ [c]) =
  Some (cs ++ [{| written := written c ++ es; ended := false; write_throws := false;
                  conn_job := conn_job c |}]).
Proof.
  revert c. induction es as [|e es IH]; intros c Ht He; simpl.
  - rewrite app_nil_r. destruct c; simpl in *. by subst.
  - rewrite res_write_last by done. rewrite IH by done. simpl.
    by rewrite (cons_middle e (written c) es), app_assoc.
Qed.

Lemma res_end_last cs c : res_end (length cs) (cs ++ [c]) = cs ++ [conn_end c].
Proof.
  unfold res_end. rewrite lookup_app_r, Nat.sub_diag by lia. simpl.
  rewrite insert_app_r_alt, Nat.sub_diag by lia. done.
Qed.

(** The handler of a subscription to a known job, in one piece. *)
Lemma analysis_stream_known jobId now st job :
  analysisJobs st !! jobId = Some job →
  analysis_stream jobId now st =
  {| analysisJobs :=
       <[jobId := set_sseConnections job
                    (Some (default [] (sseConnections job) ++ [length (conns st)]))]>
         (analysisJobs st);
     conns := conns st ++ [subscriber_conn jobId job now];
     tasks := tasks st; broadcast_log := broadcast_log st |}.
Proof.
  intros Hjob. unfold analysis_stream. rewrite Hjob. cbv zeta.
  rewrite write_each_last by done. cbn [written conn_job].
  unfold subscriber_conn. case_bool_decide as Hfin.
  - rewrite res_write_last by done. rewrite res_end_last. unfold conn_end, conn_append.
    cbn. done.
  - by rewrite app_nil_r.
Qed.

Lemma no_finished_replay jobId n m (rs : list PageResult) :
  no_finished (EvStarted jobId n m :: (EvPageComplete <$> rs)).
Proof.
  apply Forall_cons. split; [done|]. apply Forall_fmap. by apply Forall_true.
Qed.

Lemma loop_invariant_analysis_stream jobId now st :
  loop_invariant st → loop_invariant (analysis_stream jobId now st).
Proof.
  intros Hinv. destruct (analysisJobs st !! jobId) as [job|] eqn:Hjob.
  - rewrite (analysis_stream_known _ _ _ _ Hjob).
    pose proof (inv_jobs _ Hinv _ _ Hjob) as Hok.
    apply (loop_invariant_frame st _ jobId); simpl; try done.
    + intros j Hne. by rewrite lookup_insert_ne.
    + intros _. rewrite lookup_insert_eq. by eexists.
    + intros res c Hc. exists c. split; [|done]. by apply lookup_app_l_Some.
    + intros res c c' Hc Hc' _. rewrite (lookup_app_l_Some _ _ _ _ Hc) in Hc'.
      by simplify_eq.
    + intros job'. rewrite lookup_insert_eq. intros [= <-].
      destruct Hok as (Htot & Hurls & Htask & Hsse & Hlog).
      split; [done|]. split; [done|]. split; [done|]. split; [|done]. simpl.
      intros ? [= <-].
      assert (NoDup (default [] (sseConnections job)) ∧
              ∀ res, res ∈ default [] (sseConnections job) →
                     ∃ c, conns st !! res = Some c ∧ conn_job c = Some jobId) as [Hnd Hall].
      { destruct (sseConnections job) as [arr|]; simpl; [by apply Hsse|].
        split; [apply NoDup_nil_2|]. intros res Hin. by apply not_elem_of_nil in Hin. }
      split.
      * apply NoDup_app. split; [done|]. split; [|apply NoDup_singleton].
        intros res Hin ->%list_elem_of_singleton.
        destruct (Hall _ Hin) as (c & Hc & _). apply lookup_lt_Some in Hc. lia.
      * intros res [Hin| ->%list_elem_of_singleton]%elem_of_app.
        -- destruct (Hall _ Hin) as (c & Hc & Hcj). exists c.
           split; [by apply lookup_app_l_Some|done].
        -- exists (subscriber_conn jobId job now). split; [|done].
           by rewrite lookup_app_r, Nat.sub_diag by lia.
    + by rewrite lookup_insert_eq.
    + intros res c' Hc' _. apply lookup_app_Some in Hc' as [Hc'|[_ Hc']].
      * eapply conn_ok_mono; [by eapply inv_conns| |done].
        intros j Hj. simpl. destruct (decide (j = jobId)) as [->|Hne].
        -- rewrite lookup_insert_eq. by eexists.
        -- by rewrite lookup_insert_ne.
      * apply list_lookup_singleton_Some in Hc' as [_ <-]. split; simpl.
        -- intros ? [= <-]. rewrite lookup_insert_eq. by eexists.
        -- destruct Hok as (_ & _ & Htask & _). case_bool_decide as Hfin.
           ++ right. eexists (_ :: _), _. split; [by rewrite app_comm_cons|].
              split; [apply no_finished_replay|]. split; [done|]. split; [done|].
              intros ? [= <-]. destruct (tasks st !! jobId); [|done].
              destruct Htask as [? _]. congruence.
           ++ left. rewrite app_nil_r. apply no_finished_replay.
  - unfold analysis_stream. rewrite Hjob.
    apply (loop_invariant_frame st _ jobId); simpl; try done.
    + intros res c Hc. exists c. split; [|done]. by apply lookup_app_l_Some.
    + intros res c c' Hc Hc' _. rewrite (lookup_app_l_Some _ _ _ _ Hc) in Hc'.
      by simplify_eq.
    + intros job'. by rewrite Hjob.
    + intros _. by apply (inv_unknown _ Hinv).
    + intros res c' Hc' Hcase. apply lookup_app_Some in Hc' as [Hc'|[_ Hc']].
      * destruct Hcase as [Hcj|Hc]; [|congruence].
        destruct (inv_conns _ Hinv _ _ Hc') as [Hdom _].
        destruct (Hdom _ Hcj) as [? ?]. congruence.
      * apply list_lookup_singleton_Some in Hc' as [_ <-]. split; [done|].
        left. apply Forall_nil_2.
Qed.

End Subscribe.

Section Loop.
Import Js JsValue Host Server Invariants.

Lemma broadcast_effect_back e sse cs sse' cs' res c :
  broadcast_effect e sse cs sse' cs' → cs !! res = Some c →
  ∃ c', cs' !! res = Some c' ∧ conn_after e sse' res c c'.
Proof.
  intros (Hlen & Hfwd & _) Hc.
  destruct (lookup_lt_is_Some_2 cs' res) as [c' Hc'].
  { rewrite Hlen. by eapply lookup_lt_Some. }
  destruct (Hfwd _ _ Hc') as (c0 & Hc0 & Hafter). exists c'. by simplify_eq.
Qed.

Lemma broadcast_effect_in e sse cs sse' cs' arr' res :
  broadcast_effect e sse cs sse' cs' → sse' = Some arr' → res ∈ arr' →
  ∃ arr, sse = Some arr ∧ res ∈ arr.
Proof.
  intros (_ & _ & Hsse) -> Hin. destruct sse as [arr|]; [|done].
  destruct Hsse as (? & [= <-] & Hsub & _). exists arr. split; [done|].
  by eapply elem_of_sublist.
Qed.

Lemma commit_page_spec jobId r st job :
  analysisJobs st !! jobId = Some job →
  (∀ arr, sseConnections job = Some arr → NoDup arr) →
  ∃ sse' cs',
    commit_page jobId r st =
      {| analysisJobs :=
           <[jobId := set_sseConnections (set_completed job (completed job ++ [r])) sse']>
             (analysisJobs st);
         conns := cs'; tasks := tasks st;
         broadcast_log := broadcast_log st ++ [(jobId, EvPageComplete r)] |} ∧
    broadcast_effect (EvPageComplete r) (sseConnections job) (conns st) sse' cs'.
Proof.
  intros Hjob Hnd. unfold commit_page. rewrite Hjob.
  destruct (broadcastToJob_spec jobId (EvPageComplete r)
              (set_job st jobId (set_completed job (completed job ++ [r])))
              (set_completed job (completed job ++ [r])))
    as (sse' & cs' & -> & Heff); [by apply lookup_insert_eq|done|].
  exists sse', cs'. simpl. by rewrite insert_insert_eq.
Qed.

Lemma finish_job_spec jobId now st job :
  analysisJobs st !! jobId = Some job →
  (∀ arr, sseConnections job = Some arr → NoDup arr) →
  ∃ sse2 cs2,
    finish_job jobId now st =
      {| analysisJobs :=
           <[jobId := set_sseConnections (set_status job finished) ((λ _, []) <$> sse2)]>
             (analysisJobs st);
         conns := forEach_end (default [] sse2) cs2;
         tasks := delete jobId (tasks st);
         broadcast_log :=
           broadcast_log st
           ++ [(jobId, EvFinished jobId (length (completed job)) (now - startTime job)%Z)] |} ∧
    broadcast_effect (EvFinished jobId (length (completed job)) (now - startTime job)%Z)
      (sseConnections job) (conns st) sse2 cs2.
Proof.
  intros Hjob Hnd. unfold finish_job. rewrite Hjob. cbv zeta.
  destruct (broadcastToJob_spec jobId
              (EvFinished jobId (length (completed job)) (now - startTime job)%Z)
              (set_job st jobId (set_status job finished)) (set_status job finished))
    as (sse2 & cs2 & -> & Heff); [by apply lookup_insert_eq|done|].
  exists sse2, cs2. split; [|done]. simpl. rewrite lookup_insert_eq. simpl.
  destruct sse2 as [arr2|]; simpl; by rewrite !insert_insert_eq.
Qed.


Lemma no_finished_snoc l e :
  no_finished l → is_finished_event e = false → no_finished (l ++ [e]).
Proof. intros Hl He. apply Forall_app. split; [done|]. by apply Forall_singleton. Qed.

(** A response that a broadcast for the job [jobId] wrote to belongs to a
    request of that job. *)
Lemma broadcast_effect_job st jobId job e sse' cs' res c c' :
  loop_invariant st → analysisJobs st !! jobId = Some job →
  broadcast_effect e (sseConnections job) (conns st) sse' cs' →
  conns st !! res = Some c → conn_after e sse' res c c' →
  written c' = written c ∨ conn_job c = Some jobId.
Proof.
  intros Hinv Hjob Heff Hc (_ & _ & _ & [?|(_ & _ & _ & arr' & Hsse' & Hin)]); [by left|].
  right.
  destruct (broadcast_effect_in _ _ _ _ _ _ _ Heff Hsse' Hin) as (arr & Harr & Hin').
  destruct (inv_jobs _ Hinv _ _ Hjob) as (_ & _ & _ & Hsse & _).
  destruct (Hsse _ Harr) as [_ Hall]. destruct (Hall _ Hin') as (c0 & Hc0 & Hcj).
  by simplify_eq.
Qed.

Lemma job_ok_NoDup st jobId job arr :
  job_ok st jobId job → sseConnections job = Some arr → NoDup arr.
Proof. intros (_ & _ & _ & Hsse & _) Harr. by apply Hsse. Qed.

(** The loop body: the result of the URL at index [i] is pushed and
    broadcast, and the loop moves on to the index [i + 1]. *)
Lemma loop_invariant_commit jobId r st job i url :
  loop_invariant st →
  analysisJobs st !! jobId = Some job → tasks st !! jobId = Some i →
  urls job !! i = Some url → result_url r = url →
  loop_invariant (set_task (commit_page jobId r st) jobId (S i)).
Proof.
  intros Hinv Hjob Htask Hurl Hr.
  pose proof (inv_jobs _ Hinv _ _ Hjob) as Hok.
  destruct (commit_page_spec jobId r st job Hjob) as (sse' & cs' & -> & Heff).
  { intros arr. by eapply job_ok_NoDup. }
  destruct Hok as (Htot & Hurls & Hst & Hsse & fin & Hlog & Hfin).
  rewrite Htask in Hst. destruct Hst as (Hstarted & -> & Hle).
  rewrite Hstarted in Hfin. subst fin. rewrite app_nil_r in Hlog.
  apply (loop_invariant_frame st _ jobId); unfold set_task; simpl.
  - done.
  - intros j Hne. by rewrite lookup_insert_ne.
  - intros _. rewrite lookup_insert_eq. by eexists.
  - intros j Hne. by rewrite lookup_insert_ne.
  - intros j Hne. by rewrite events_of_app, events_of_other, app_nil_r.
  - intros res c Hc. destruct (broadcast_effect_back _ _ _ _ _ _ _ Heff Hc)
      as (c' & Hc' & Hcj & _). by exists c'.
  - intros res c c' Hc Hc' Hne.
    destruct (broadcast_effect_back _ _ _ _ _ _ _ Heff Hc) as (c0 & Hc0 & Hafter).
    simplify_eq.
    destruct (broadcast_effect_job _ _ _ _ _ _ _ _ _ Hinv Hjob Heff Hc Hafter) as [Hw|Hj].
    + destruct Hafter as (? & ? & _). done.
    + destruct Hafter as (Hcj & _). congruence.
  - intros job'. rewrite lookup_insert_eq. intros [= <-].
    unfold job_ok; simpl. rewrite lookup_insert_eq.
    split; [done|]. split.
    { rewrite fmap_app, length_app, Hurls. simpl. rewrite Nat.add_1_r.
      rewrite (take_S_r _ _ url) by done. by rewrite Hr. }
    split.
    { rewrite length_app. simpl. apply lookup_lt_Some in Hurl.
      split; [done|]. split; lia. }
    split.
    { intros arr' Harr'. destruct (sseConnections job) as [arr|] eqn:Harr.
      - destruct Heff as (Hlen & Hfwd & arr0 & ? & Hsub & _). simplify_eq.
        destruct (Hsse _ eq_refl) as [Hnd Hall]. split; [by eapply sublist_NoDup|].
        intros res Hin. destruct (Hall res) as (c & Hc & Hcj); [by eapply elem_of_sublist|].
        destruct (lookup_lt_is_Some_2 cs' res) as [c' Hc'].
        { rewrite Hlen. by eapply lookup_lt_Some. }
        destruct (Hfwd _ _ Hc') as (c0 & Hc0 & Hcj0 & _). simplify_eq.
        exists c'. split; [done|congruence].
      - destruct Heff as (_ & _ & ?). congruence. }
    exists []. rewrite Hstarted. split; [|done].
    by rewrite events_of_app, events_of_same, Hlog, fmap_app, app_nil_r.
  - by rewrite lookup_insert_eq.
  - intros res c' Hc' Hcase.
    destruct Heff as (Hlen & Hfwd & Hrest).
    destruct (Hfwd _ _ Hc') as (c & Hc & Hafter).
    pose proof (inv_conns _ Hinv _ _ Hc) as [Hdom Hwr].
    destruct Hafter as (Hcj & Hend & _ & Hw).
    split.
    + intros j Hj. simpl. rewrite Hcj in Hj. destruct (decide (j = jobId)) as [->|Hne].
      * rewrite lookup_insert_eq. by eexists.
      * rewrite lookup_insert_ne by done. by apply Hdom.
    + destruct Hwr as [Hno|(pre & f & Hpre & Hnopre & Hf & He & Ht)].
      * left. destruct Hw as [->|(-> & _)]; [done|]. by apply no_finished_snoc.
      * destruct Hw as [Hw|(Hw & He' & _)]; [|congruence].
        right. exists pre, f. rewrite Hw, Hend, Hcj.
        split; [done|]. split; [done|]. split; [done|]. split; [done|].
        intros j Hj. simpl. destruct (decide (j = jobId)) as [->|Hne].
        -- specialize (Ht _ Hj). congruence.
        -- rewrite lookup_insert_ne by done. by apply Ht.
Qed.


(** The code after the loop: the terminal event is broadcast, the responses
    left in the array are ended, the array is emptied and the call
    returns. *)
Lemma loop_invariant_finish jobId now st job :
  loop_invariant st →
  analysisJobs st !! jobId = Some job → tasks st !! jobId = Some (length (urls job)) →
  loop_invariant (finish_job jobId now st).
Proof.
  intros Hinv Hjob Htask.
  pose proof (inv_jobs _ Hinv _ _ Hjob) as Hok.
  destruct (finish_job_spec jobId now st job Hjob) as (sse2 & cs2 & -> & Heff).
  { intros arr. by eapply job_ok_NoDup. }
  destruct Hok as (Htot & Hurls & Hst & Hsse & fin & Hlog & Hfin).
  rewrite Htask in Hst. destruct Hst as (Hstarted & Hlen & _).
  rewrite Hstarted in Hfin. subst fin. rewrite app_nil_r in Hlog.
  assert (∀ res, res ∈ default [] sse2 →
            ∃ c, conns st !! res = Some c ∧ conn_job c = Some jobId) as Hmem.
  { intros res Hin. destruct sse2 as [arr2|]; simpl in Hin;
      [|by apply not_elem_of_nil in Hin].
    destruct (broadcast_effect_in _ _ _ _ _ _ _ Heff eq_refl Hin) as (arr & Harr & Hin').
    destruct (Hsse _ Harr) as [_ Hall]. by apply Hall. }
  assert (∀ res c3, forEach_end (default [] sse2) cs2 !! res = Some c3 →
            ∃ c c2, conns st !! res = Some c ∧
                    conn_after (EvFinished jobId (length (completed job))
                                  (now - startTime job)%Z) sse2 res c c2 ∧
                    c3 = if bool_decide (res ∈ default [] sse2) then conn_end c2 else c2)
    as Hfinal.
  { intros res c3. rewrite forEach_end_lookup.
    destruct (cs2 !! res) as [c2|] eqn:Hc2; simpl; [|done]. intros [= <-].
    destruct Heff as (_ & Hfwd & _). destruct (Hfwd _ _ Hc2) as (c & Hc & Hafter).
    by exists c, c2. }
  apply (loop_invariant_frame st _ jobId); simpl.
  - done.
  - intros j Hne. by rewrite lookup_insert_ne.
  - intros _. rewrite lookup_insert_eq. by eexists.
  - intros j Hne. by rewrite lookup_delete_ne.
  - intros j Hne. by rewrite events_of_app, events_of_other, app_nil_r.
  - intros res c Hc. destruct (broadcast_effect_back _ _ _ _ _ _ _ Heff Hc)
      as (c2 & Hc2 & Hcj & _).
    rewrite forEach_end_lookup, Hc2. simpl. eexists. split; [done|].
    by destruct (bool_decide _).
  - intros res c c3 Hc Hc3 Hne.
    destruct (Hfinal _ _ Hc3) as (c0 & c2 & Hc0 & Hafter & ->). simplify_eq.
    case_bool_decide as Hin.
    { destruct (Hmem _ Hin) as (c1 & Hc1 & Hcj1). simplify_eq.
      destruct Hafter as (Hcj & _). simpl in Hne. congruence. }
    destruct (broadcast_effect_job _ _ _ _ _ _ _ _ _ Hinv Hjob Heff Hc Hafter) as [Hw|Hj].
    + destruct Hafter as (? & ? & _). done.
    + destruct Hafter as (Hcj & _). congruence.
  - intros job'. rewrite lookup_insert_eq. intros [= <-].
    unfold job_ok; simpl. rewrite lookup_delete_eq.
    split; [done|]. split; [done|]. split; [done|]. split.
    { intros arr Harr. destruct sse2; simplify_eq/=. split; [apply NoDup_nil_2|].
      intros res Hin. by apply not_elem_of_nil in Hin. }
    eexists. split; [by rewrite events_of_app, events_of_same, Hlog|]. by eexists.
  - by rewrite lookup_insert_eq.
  - intros res c3 Hc3 _.
    destruct (Hfinal _ _ Hc3) as (c & c2 & Hc & Hafter & ->).
    pose proof (inv_conns _ Hinv _ _ Hc) as [Hdom Hwr].
    destruct Hafter as (Hcj & Hend & _ & Hw).
    split.
    + intros j Hj. simpl.
      assert (conn_job c = Some j) as Hj'.
      { destruct (bool_decide _); simpl in Hj; congruence. }
      destruct (decide (j = jobId)) as [->|Hne].
      * rewrite lookup_insert_eq. by eexists.
      * rewrite lookup_insert_ne by done. by apply Hdom.
    + destruct Hwr as [Hno|(pre & f & Hpre & Hnopre & Hf & He & Ht)].
      * destruct Hw as [Hw|(Hw & _ & _ & arr2 & -> & Hin)].
        -- left. destruct (bool_decide _); simpl; by rewrite Hw.
        -- right. simpl. rewrite bool_decide_eq_true_2 by done.
           eexists _, _. simpl. split; [done|]. split; [done|]. split; [done|].
           split; [done|]. intros j Hj.
           destruct (Hmem res Hin) as (c0 & Hc0 & Hcj0). simplify_eq.
           assert (j = jobId) as -> by congruence. by rewrite lookup_delete_eq.
      * destruct Hw as [Hw|(Hw & He' & _)]; [|congruence].
        right. exists pre, f.
        split; [destruct (bool_decide _); simpl; congruence|]. split; [done|].
        split; [done|].
        split; [destruct (bool_decide _); simpl; congruence|].
        intros j Hj. simpl.
        assert (conn_job c = Some j) as Hj'.
        { destruct (bool_decide _); simpl in Hj; congruence. }
        destruct (decide (j = jobId)) as [->|Hne].
        -- by rewrite lookup_delete_eq.
        -- rewrite lookup_delete_ne by done. by apply Ht.
Qed.

End Loop.

Section Turns.
Import Js JsValue Host Server Invariants.
Context `{Platform}.

Lemma broadcastToJob_set_task jobId e st j i :
  broadcastToJob jobId e (set_task st j i) = set_task (broadcastToJob jobId e st) j i.
Proof.
  unfold broadcastToJob, set_task. simpl.
  destruct (analysisJobs st !! jobId) as [job|]; [|done].
  destruct (sseConnections job) as [arr|]; [|done].
  by destruct (forEach_write _ _ _ _ _).
Qed.

Lemma finish_job_set_task jobId now st i :
  is_Some (analysisJobs st !! jobId) →
  finish_job jobId now (set_task st jobId i) = finish_job jobId now st.
Proof.
  intros [job Hjob]. unfold finish_job. simpl. rewrite Hjob. cbv zeta.
  change (set_job (set_task st jobId i) jobId (set_status job finished))
    with (set_task (set_job st jobId (set_status job finished)) jobId i).
  rewrite broadcastToJob_set_task. simpl.
  destruct (analysisJobs (broadcastToJob _ _ _) !! jobId) as [job2|];
    [|by rewrite delete_insert_eq].
  destruct (sseConnections job2); by rewrite delete_insert_eq.
Qed.

(** One resumption of the loop of a job, as a state: after the push and the
    broadcast of the result either the loop waits for the next URL, or the
    URL was the last one and the code after the loop has run. *)
Lemma resume_unfold jobId w now st job i :
  invariant st →
  analysisJobs st !! jobId = Some job → tasks st !! jobId = Some i →
  ∃ url r sse1 cs1,
    urls job !! i = Some url ∧
    page_result w job url = Return r ∧
    broadcast_effect (EvPageComplete r) (sseConnections job) (conns st) sse1 cs1 ∧
    loop_invariant (resume jobId w now st) ∧
    ((S i < length (urls job) ∧
      resume jobId w now st =
      {| analysisJobs :=
           <[jobId := set_sseConnections (set_completed job (completed job ++ [r])) sse1]>
             (analysisJobs st);
         conns := cs1;
         tasks := <[jobId := S i]> (tasks st);
         broadcast_log := broadcast_log st ++ [(jobId, EvPageComplete r)] |}) ∨
     (S i = length (urls job) ∧
      ∃ sse2 cs2,
        broadcast_effect (EvFinished jobId (S i) (now - startTime job)%Z) sse1 cs1 sse2 cs2 ∧
        resume jobId w now st =
        {| analysisJobs :=
             <[jobId := set_sseConnections
                          (set_status (set_completed job (completed job ++ [r])) finished)
                          ((λ _, []) <$> sse2)]>
               (analysisJobs st);
           conns := forEach_end (default [] sse2) cs2;
           tasks := delete jobId (tasks st);
           broadcast_log :=
             broadcast_log st
             ++ [(jobId, EvPageComplete r);
                 (jobId, EvFinished jobId (S i) (now - startTime job)%Z)] |})).
Proof.
  intros [Hinv Hpend] Hjob Htask.
  pose proof (Hpend _ _ _ Hjob Htask) as Hlt.
  destruct (lookup_lt_is_Some_2 (urls job) i Hlt) as [url Hurl].
  pose proof (inv_jobs _ Hinv _ _ Hjob) as Hok.
  destruct (page_result_url w job url) as (r & Hr & Hru).
  pose proof (loop_invariant_commit jobId r st job i url
                Hinv Hjob Htask Hurl Hru) as Hinv1.
  destruct (commit_page_spec jobId r st job Hjob)
    as (sse1 & cs1 & Hcommit & Heff1).
  { intros arr. by eapply job_ok_NoDup. }
  assert (status job = started ∧ i = length (completed job)) as [Hstarted Hi].
  { destruct Hok as (_ & _ & Hst & _). rewrite Htask in Hst. by destruct Hst as (? & ? & _). }
  exists url, r, sse1, cs1. split; [done|]. split; [done|]. split; [done|].
  unfold resume. rewrite Hjob, Htask, Hurl, Hr. cbv zeta.
  case_bool_decide as Hnext.
  - rewrite Hcommit in *. split; [done|]. left. by split.
  - rewrite <- (finish_job_set_task _ _ _ (S i)).
    2:{ rewrite Hcommit. simpl. rewrite lookup_insert_eq. by eexists. }
    assert (S i = length (urls job)) as Hlast by lia.
    pose proof (loop_invariant_finish jobId now _
                  (set_sseConnections (set_completed job (completed job ++ [r])) sse1)
                  Hinv1) as Hinv2.
    destruct (finish_job_spec jobId now
                (set_task (commit_page jobId r st) jobId (S i))
                (set_sseConnections (set_completed job (completed job ++ [r])) sse1))
      as (sse2 & cs2 & Hfin & Heff2).
    { rewrite Hcommit. simpl. by rewrite lookup_insert_eq. }
    { simpl. intros arr ->. destruct (sseConnections job) as [arr0|] eqn:Harr0.
      - destruct Heff1 as (_ & _ & ? & [= <-] & Hsub & _).
        eapply sublist_NoDup; [|done]. by eapply job_ok_NoDup.
      - by destruct Heff1 as (_ & _ & ?). }
    rewrite Hfin in *. rewrite Hcommit in *. unfold set_task in *. simpl in *.
    rewrite !lookup_insert_eq in Hinv2. rewrite Hlast in Hinv2.
    specialize (Hinv2 eq_refl eq_refl).
    rewrite length_app, <- Hi in *. simpl in *. rewrite Nat.add_1_r in *.
    rewrite delete_insert_eq in Hinv2 |- *.
    split; [done|]. right. split; [done|].
    exists sse2, cs2. split; [done|].
    by rewrite insert_insert_eq, <- app_assoc.
Qed.

End Turns.

Section Reachable.
Import Js JsValue Host Server Invariants.
Context `{Platform}.

Lemma conn_eq c c' :
  written c' = written c → ended c' = ended c → write_throws c' = write_throws c →
  conn_job c' = conn_job c → c' = c.
Proof. destruct c, c'; simpl; by intros -> -> -> ->. Qed.







(** One resumption, seen from the job. *)
Lemma resume_spec jobId w now st job i :
  invariant st →
  analysisJobs st !! jobId = Some job → tasks st !! jobId = Some i →
  ∃ url r job',
    urls job !! i = Some url ∧
    page_result w job url = Return r ∧
    analysisJobs (resume jobId w now st) !! jobId = Some job' ∧
    urls job' = urls job ∧ total job' = total job ∧ startTime job' = startTime job ∧
    completed job' = completed job ++ [r] ∧
    (∀ j, j ≠ jobId →
       analysisJobs (resume jobId w now st) !! j = analysisJobs st !! j ∧
       tasks (resume jobId w now st) !! j = tasks st !! j) ∧
    ((S i < length (urls job) ∧ status job' = started ∧
      tasks (resume jobId w now st) !! jobId = Some (S i) ∧
      broadcast_log (resume jobId w now st) =
      broadcast_log st ++ [(jobId, EvPageComplete r)]) ∨
     (S i = length (urls job) ∧ status job' = finished ∧
      tasks (resume jobId w now st) !! jobId = None ∧
      default [] (sseConnections job') = [] ∧
      broadcast_log (resume jobId w now st) =
      broadcast_log st ++ [(jobId, EvPageComplete r);
                           (jobId, EvFinished jobId (S i) (now - startTime job)%Z)])).
Proof.
  intros Hinv Hjob Htask.
  assert (status job = started) as Hstarted.
  { destruct (inv_jobs _ (inv_loop _ Hinv) _ _ Hjob) as (_ & _ & Hst & _).
    rewrite Htask in Hst. by destruct Hst. }
  destruct (resume_unfold jobId w now st job i Hinv Hjob Htask)
    as (url & r & sse1 & cs1 & Hurl & Hr & Heff1 & _ & [[Hlt ->]|(Hlast & sse2 & cs2 & Heff2 & ->)]);
    exists url, r; eexists; simpl; rewrite !lookup_insert_eq.
  - split; [done|]. split; [done|]. split; [done|]. simpl. do 4 (split; [done|]).
    split; [intros j Hne; by rewrite !lookup_insert_ne|]. left. done.
  - split; [done|]. split; [done|]. split; [done|]. simpl. do 4 (split; [done|]).
    split; [intros j Hne; by rewrite lookup_insert_ne, lookup_delete_ne|].
    right. rewrite lookup_delete_eq. do 3 (split; [done|]). split; [|done].
    by destruct sse2.
Qed.

Lemma invariant_init : invariant init.
Proof.
  split; [apply loop_invariant_init|]. intros j job i Hj. cbn in Hj.
  by rewrite lookup_empty in Hj.
Qed.

Lemma invariant_start_analysis jobId urls0 hh fh now st :
  invariant st → analysisJobs st !! jobId = None →
  invariant (start_analysis jobId urls0 hh fh now st).
Proof.
  intros [Hloop Hpend] Hen.
  split; [by apply loop_invariant_start_analysis|].
  unfold start_analysis. destruct urls0 as [|u urls0]; [done|]. simpl.
  intros j job i. destruct (decide (j = jobId)) as [->|Hne].
  - rewrite !lookup_insert_eq. intros [= <-] [= <-]. simpl. lia.
  - rewrite !lookup_insert_ne by done. apply Hpend.
Qed.

Lemma invariant_apply a st : invariant st → enabled a st → invariant (apply_action a st).
Proof.
  intros Hinv Hen. pose proof Hinv as [Hloop Hpend]. destruct a as [jobId urls0 hh fh now|jobId w now|jobId now|res|res b]; simpl in *.
  - destruct Hen as [Hen _]. by apply invariant_start_analysis.
  - destruct (analysisJobs st !! jobId) as [job|] eqn:Hjob;
      [|by unfold resume; rewrite Hjob].
    destruct (tasks st !! jobId) as [i|] eqn:Htask;
      [|by unfold resume; rewrite Hjob, Htask].
    destruct (resume_unfold jobId w now st job i Hinv Hjob Htask)
      as (_ & _ & _ & _ & _ & _ & _ & Hloop' & _).
    split; [done|].
    destruct (resume_spec jobId w now st job i Hinv Hjob Htask)
      as (url & r & job' & Hurl & Hr & Hjob' & Hurls & _ & _ & _ & Hother & Hcase).
    intros j job0 i0 Hj0 Ht0. destruct (decide (j = jobId)) as [->|Hne].
    + simplify_eq. destruct Hcase as [(Hlt & _ & Ht & _)|(_ & _ & Ht & _)];
        rewrite Ht in Ht0; simplify_eq. by rewrite Hurls.
    + destruct (Hother _ Hne) as [Hj Ht]. rewrite Hj in Hj0. rewrite Ht in Ht0.
      by eapply Hpend.
  - split; [by apply loop_invariant_analysis_stream|].
    destruct (analysisJobs st !! jobId) as [job|] eqn:Hjob.
    + rewrite (analysis_stream_known _ _ _ _ Hjob). simpl.
      intros j job0 i0. destruct (decide (j = jobId)) as [->|Hne].
      * rewrite lookup_insert_eq. intros [= <-] Ht. simpl. by eapply Hpend.
      * rewrite lookup_insert_ne by done. apply Hpend.
    + unfold analysis_stream. rewrite Hjob. simpl. apply Hpend.
  - split; [by apply loop_invariant_close_event|].
    unfold close_event.
    destruct (conns st !! res) as [c|] eqn:Hc; [|done].
    destruct (conn_job c) as [jobId|] eqn:Hcj; [|done].
    destruct (analysisJobs st !! jobId) as [job|] eqn:Hjob; [|done].
    destruct (sseConnections job) as [arr|] eqn:Harr; [|done].
    destruct (indexOf res arr) as [index|] eqn:Hidx; [|done]. simpl.
    intros j job0 i0. destruct (decide (j = jobId)) as [->|Hne].
    + rewrite lookup_insert_eq. intros [= <-] Ht. simpl. by eapply Hpend.
    + rewrite lookup_insert_ne by done. apply Hpend.
  - split; [by apply loop_invariant_set_write_throws|].
    unfold set_write_throws. by destruct (conns st !! res).
Qed.

Lemma invariant_step st st' : invariant st → step st st' → invariant st'.
Proof. intros Hinv Hstep. destruct Hstep as [a st Hen]. by apply invariant_apply. Qed.

Lemma invariant_rtc st st' : invariant st → rtc step st st' → invariant st'.
Proof. intros Hinv Hrtc. induction Hrtc; eauto using invariant_step. Qed.

Lemma invariant_reachable st : reachable st → invariant st.
Proof. apply invariant_rtc, invariant_init. Qed.


End Reachable.

(** ** Progress of a job, replay to a subscriber and the terminal event *)

Section HealthyBroadcast.
Import Js JsValue Host Server Invariants.

Lemma NoDup_lookup_drop {A} (l : list A) k x :
  NoDup l → l !! k = Some x → (x ∉ drop (S k) l) ∧ drop k l = x :: drop (S k) l.
Proof.
  intros Hnd Hk. pose proof (take_drop_middle l k x Hk) as Hmid.
  rewrite <- Hmid in Hnd. apply NoDup_app in Hnd as (_ & _ & Hnd).
  apply NoDup_cons in Hnd as [Hnot _]. split; [done|].
  by rewrite (drop_S _ _ _ Hk).
Qed.

(** The [forEach] of a broadcast when every write goes through: no element
    is removed, and each open response of the array is written to once. *)
Lemma forEach_write_healthy n k e arr cs :
  NoDup arr → k + n = length arr →
  (∀ res, res ∈ arr → can_write cs res) →
  ∃ cs', forEach_write n k e arr cs = (arr, cs') ∧
         ∀ res c, cs !! res = Some c →
           cs' !! res = Some (if bool_decide (res ∈ drop k arr) && negb (ended c)
                              then conn_append c e else c).
Proof.
  intros Hnd. revert k cs. induction n as [|n IH]; intros k cs Hlen Hcan; simpl.
  - exists cs. split; [done|]. intros res c Hc.
    rewrite drop_ge by lia. rewrite bool_decide_eq_false_2 by apply not_elem_of_nil. done.
  - destruct (lookup_lt_is_Some_2 arr k) as [r Hk]; [lia|]. rewrite Hk.
    destruct (NoDup_lookup_drop _ _ _ Hnd Hk) as [Hnot Hdrop].
    destruct (Hcan r) as (c0 & Hc0 & Ht); [by eapply list_elem_of_lookup_2|].
    assert (∀ res, res ≠ r →
              bool_decide (res ∈ drop k arr) = bool_decide (res ∈ drop (S k) arr)) as Hmem.
    { intros res Hne. apply bool_decide_ext. rewrite Hdrop, elem_of_cons.
      split; [intros [?|?]; [done|done]|by right]. }
    unfold res_write. rewrite Hc0, Ht. destruct (ended c0) eqn:He.
    + destruct (IH (S k) cs) as (cs' & -> & Hcs'); [lia|done|].
      exists cs'. split; [done|]. intros res c Hc. rewrite (Hcs' _ _ Hc).
      destruct (decide (res = r)) as [->|Hne]; [|by rewrite Hmem].
      assert (c = c0) as -> by congruence. rewrite He. simpl. by rewrite !andb_false_r.
    + destruct (IH (S k) (<[r := conn_append c0 e]> cs)) as (cs' & -> & Hcs'); [lia| |].
      { intros res Hin. apply can_write_insert; [done|by apply Hcan]. }
      exists cs'. split; [done|]. intros res c Hc.
      destruct (decide (res = r)) as [->|Hne].
      * assert (c = c0) as -> by congruence.
        rewrite (Hcs' r (conn_append c0 e))
          by (rewrite list_lookup_insert_eq; [done|by eapply lookup_lt_Some]).
        rewrite (bool_decide_eq_false_2 (r ∈ drop (S k) arr)) by done.
        rewrite (bool_decide_eq_true_2 (r ∈ drop k arr))
          by (rewrite Hdrop; apply elem_of_cons; by left).
        by rewrite He.
      * rewrite (Hcs' res c) by (by rewrite list_lookup_insert_ne).
        by rewrite Hmem.
Qed.


End HealthyBroadcast.

Section JobTheorems.
Import Js JsValue Host Server Invariants.
Context `{Platform}.

Lemma reachable_apply a st : reachable st → enabled a st → reachable (apply_action a st).
Proof. intros Hr Hen. eapply rtc_r; [done|]. by constructor. Qed.

(** The [catch] block of the loop turns an exception of the [try] block
    into the failure object of the URL. *)
Lemma page_result_throw w job url message :
  (analyse_page w job url []).1 = Throw message →
  page_result w job url = Return (Failure url message).
Proof.
  unfold page_result, page_exec, loop_iteration, template, try_catch. simpl.
  unfold mbind, exec_mbind, exec_bind, mret, exec_mret, exec_ret.
  destruct (analyse_page w job url []) as [[r|m] l]; simpl; [done|].
  by intros [= ->].
Qed.

Lemma page_result_return w job url r :
  (analyse_page w job url []).1 = Return r → page_result w job url = Return r.
Proof.
  unfold page_result, page_exec, loop_iteration, template, try_catch. simpl.
  unfold mbind, exec_mbind, exec_bind, mret, exec_mret, exec_ret.
  destruct (analyse_page w job url []) as [[r'|m] l]; simpl; [|done].
  by intros [= ->].
Qed.

(** An element of [urls] whose conversion to a string throws: the first
    log line of the [try] block throws, the first log line of the [catch]
    block throws again, and the exception leaves the iteration, whatever
    the rest of the [try] block is. *)
Lemma loop_iteration_unconvertible {A} url (body : Exec A) errorResult log :
  to_String url = None →
  loop_iteration url body errorResult log = (Throw cannot_convert_message, log).
Proof.
  intros Hu. unfold loop_iteration, template, try_catch. rewrite Hu.
  reflexivity.
Qed.

(** [processAnalysisJob] returns: with one unit of fuel per URL that is
    left, the job ends up finished with one result per URL. *)
Lemma processAnalysisJob_finishes fuel jobId ws now st job :
  invariant st → analysisJobs st !! jobId = Some job →
  length (urls job) - length (completed job) ≤ fuel →
  ∃ job', analysisJobs (processAnalysisJob fuel jobId ws now st) !! jobId = Some job' ∧
          status job' = finished ∧ urls job' = urls job ∧
          length (completed job') = length (urls job') ∧
          completed job `prefix_of` completed job'.
Proof.
  revert st job. induction fuel as [|fuel IH]; intros st job Hinv Hjob Hfuel; simpl.
  - exists job. destruct (inv_jobs _ (inv_loop _ Hinv) _ _ Hjob) as (_ & _ & Hst & _).
    destruct (tasks st !! jobId) as [i|] eqn:Htask.
    + pose proof (inv_pending _ Hinv _ _ _ Hjob Htask). destruct Hst as (_ & -> & _). lia.
    + by destruct Hst.
  - destruct (tasks st !! jobId) as [i|] eqn:Htask.
    + destruct (resume_spec jobId (ws i) now st job i Hinv Hjob Htask)
        as (url & r & job1 & Hurl & Hr & Hjob1 & Hurls & _ & _ & Hcomp & _).
      destruct (IH (resume jobId (ws i) now st) job1) as (job' & Hjob' & ? & ? & ? & Hpre).
      * by apply (invariant_apply (Resume jobId (ws i) now)).
      * done.
      * rewrite Hurls, Hcomp, length_app. simpl. lia.
      * exists job'. split; [done|]. split; [done|]. split; [congruence|].
        split; [done|]. etrans; [|done]. rewrite Hcomp. by apply prefix_app_r.
    + exists job. destruct (inv_jobs _ (inv_loop _ Hinv) _ _ Hjob) as (_ & _ & Hst & _).
      rewrite Htask in Hst. by destruct Hst.
Qed.

(** C2, amended: for a job whose URLs are strings, in every state of the
    server the results of the job are the results of the first URLs of its
    list, one for each and in the order of the list, and there are never
    more of them than URLs; a finished job has one result for each URL; a
    resumption of the loop appends exactly the result of the next URL, which
    is what the [try] block returns or, when the [try] block throws, the
    failure object that the [catch] block builds from the exception, and
    goes on to the next URL or, after the last one, finishes the job; and
    run to its end, the loop leaves the job finished with as many results as
    URLs. *)
Theorem job_progress st jobId job :
  reachable st → analysisJobs st !! jobId = Some job →
  result_url <$> completed job = take (length (completed job)) (urls job) ∧
  length (completed job) ≤ length (urls job) ∧
  (status job = finished → length (completed job) = length (urls job)) ∧
  (status job = started → tasks st !! jobId = Some (length (completed job))) ∧
  (∀ w now, status job = started →
     ∃ url r job',
       urls job !! length (completed job) = Some url ∧
       page_result w job url = Return r ∧
       analysisJobs (resume jobId w now st) !! jobId = Some job' ∧
       urls job' = urls job ∧
       completed job' = completed job ++ [r] ∧
       result_url r = url ∧
       (∀ message, (analyse_page w job url []).1 = Throw message →
                   r = Failure url message) ∧
       (∀ r0, (analyse_page w job url []).1 = Return r0 → r = r0) ∧
       status job' = (if bool_decide (S (length (completed job)) < length (urls job))
                      then started else finished)) ∧
  (∀ ws now,
     ∃ job', analysisJobs (processAnalysisJob (length (urls job)) jobId ws now st) !! jobId
             = Some job' ∧
             status job' = finished ∧ urls job' = urls job ∧
             length (completed job') = length (urls job') ∧
             completed job `prefix_of` completed job').
Proof.
  intros Hreach Hjob. pose proof (invariant_reachable _ Hreach) as Hinv.
  destruct (inv_jobs _ (inv_loop _ Hinv) _ _ Hjob) as (_ & Hurls & Hst & _).
  assert (status job = started → tasks st !! jobId = Some (length (completed job)))
    as Htask.
  { intros Hs. destruct (tasks st !! jobId) as [i|].
    - by destruct Hst as (_ & -> & _).
    - destruct Hst. congruence. }
  split; [done|]. split.
  { destruct (tasks st !! jobId); [destruct Hst as (_ & -> & ?)|destruct Hst]; lia. }
  split.
  { intros Hs. destruct (tasks st !! jobId); [destruct Hst; congruence|by destruct Hst]. }
  split; [done|]. split.
  - intros w now Hs.
    destruct (resume_spec jobId w now st job _ Hinv Hjob (Htask Hs))
      as (url & r & job' & Hurl & Hr & Hjob' & Hu & _ & _ & Hcomp & _ & Hcase).
    exists url, r, job'. do 5 (split; [done|]).
    split.
    { destruct (page_result_url w job url) as (r' & Hr' & Hru). congruence. }
    split.
    { intros message Ht. pose proof (page_result_throw _ _ _ _ Ht). congruence. }
    split.
    { intros r0 Hr0. pose proof (page_result_return _ _ _ _ Hr0). congruence. }
    destruct Hcase as [(Hlt & -> & _)|(Hlast & -> & _)].
    + by rewrite bool_decide_eq_true_2.
    + rewrite bool_decide_eq_false_2; [done|lia].
  - intros ws now. apply processAnalysisJob_finishes; [done|done|lia].
Qed.











(** A broadcast to a job none of whose responses throws on a write. *)
Lemma broadcastToJob_healthy jobId e st job arr :
  analysisJobs st !! jobId = Some job → sseConnections job = Some arr → NoDup arr →
  (∀ res, res ∈ arr → can_write (conns st) res) →
  ∃ cs', broadcastToJob jobId e st =
           {| analysisJobs := <[jobId := job]> (analysisJobs st); conns := cs';
              tasks := tasks st; broadcast_log := broadcast_log st ++ [(jobId, e)] |} ∧
         ∀ res c, conns st !! res = Some c →
           cs' !! res = Some (if bool_decide (res ∈ arr) && negb (ended c)
                              then conn_append c e else c).
Proof.
  intros Hjob Harr Hnd Hcan.
  destruct (forEach_write_healthy (length arr) 0 e arr (conns st) Hnd eq_refl Hcan)
    as (cs' & Hf & Hcs').
  exists cs'. unfold broadcastToJob. rewrite Hjob, Harr, Hf.
  by rewrite <- Harr, set_sseConnections_same.
Qed.

(** The resumption that handles the last URL, when no response of the
    array throws on a write: every response of the array that is open gets
    the page event and then the terminal event, and is ended. *)
Lemma resume_last_healthy jobId w now st job i arr :
  invariant st →
  analysisJobs st !! jobId = Some job → tasks st !! jobId = Some i →
  S i = length (urls job) → sseConnections job = Some arr →
  (∀ res c, res ∈ arr → conns st !! res = Some c → write_throws c = false) →
  ∃ url r,
    urls job !! i = Some url ∧ page_result w job url = Return r ∧
    ∀ res c, res ∈ arr → conns st !! res = Some c → ended c = false →
      ∃ c', conns (resume jobId w now st) !! res = Some c' ∧
            written c' = written c ++ [EvPageComplete r;
                                       EvFinished jobId (S i) (now - startTime job)%Z] ∧
            ended c' = true.
Proof.
  intros Hinv Hjob Htask Hlast Harr Hhealthy.
  pose proof (inv_pending _ Hinv _ _ _ Hjob Htask) as Hlt.
  destruct (lookup_lt_is_Some_2 (urls job) i Hlt) as [url Hurl].
  destruct (page_result_url w job url) as (r & Hr & _).
  destruct (inv_jobs _ (inv_loop _ Hinv) _ _ Hjob) as (_ & _ & Hst & Hsse & _).
  rewrite Htask in Hst. destruct Hst as (_ & Hi & _).
  destruct (Hsse _ Harr) as [Hnd Hall].
  exists url, r. split; [done|]. split; [done|].
  intros res c Hin Hc Hopen.
  unfold resume. rewrite Hjob, Htask, Hurl, Hr. cbv zeta.
  rewrite bool_decide_eq_false_2 by lia.
  unfold commit_page. rewrite Hjob.
  destruct (broadcastToJob_healthy jobId (EvPageComplete r)
              (set_job st jobId (set_completed job (completed job ++ [r])))
              (set_completed job (completed job ++ [r])) arr)
    as (cs1 & -> & Hcs1).
  { simpl. by rewrite lookup_insert_eq. }
  { done. }
  { done. }
  { simpl. intros res0 Hin0. destruct (Hall _ Hin0) as (c0 & Hc0 & _).
    exists c0. split; [done|]. by eapply Hhealthy. }
  simpl in Hcs1. unfold finish_job. simpl. rewrite lookup_insert_eq. cbv zeta.
  destruct (broadcastToJob_healthy jobId
              (EvFinished jobId (length (completed (set_completed job (completed job ++ [r]))))
                 (now - startTime (set_completed job (completed job ++ [r])))%Z)
              (set_job
                 {| analysisJobs :=
                      <[jobId := set_completed job (completed job ++ [r])]>
                        (<[jobId := set_completed job (completed job ++ [r])]>
                           (analysisJobs st));
                    conns := cs1; tasks := tasks st;
                    broadcast_log := broadcast_log st ++ [(jobId, EvPageComplete r)] |}
                 jobId (set_status (set_completed job (completed job ++ [r])) finished))
              (set_status (set_completed job (completed job ++ [r])) finished) arr)
    as (cs2 & -> & Hcs2).
  { simpl. by rewrite lookup_insert_eq. }
  { done. }
  { done. }
  { simpl. intros res0 Hin0. destruct (Hall _ Hin0) as (c0 & Hc0 & _).
    eexists. split; [by apply Hcs1|].
    destruct (bool_decide _ && negb _); simpl; by eapply Hhealthy. }
  simpl. rewrite lookup_insert_eq. simpl. rewrite Harr. simpl.
  rewrite forEach_end_lookup.
  rewrite (Hcs2 res (conn_append c (EvPageComplete r))).
  2:{ simpl. rewrite (Hcs1 res c Hc). by rewrite bool_decide_eq_true_2, Hopen. }
  simpl. rewrite !bool_decide_eq_true_2 by done. rewrite Hopen. simpl.
  eexists. split; [done|]. simpl. split; [|done].
  rewrite <- app_assoc. simpl. rewrite length_app. simpl.
  rewrite Nat.add_1_r, <- Hi. done.
Qed.




End JobTheorems.

Section JobExamples.
Import Js JsValue Host Server Invariants SimplePlatform Examples Samples.
Local Existing Instance platform.

Lemma reachable_started : reachable st_started.
Proof.
  apply (reachable_apply (StartAnalysis "job1" batch_home_first Undefined Undefined 0%Z));
    [apply rtc_refl|split; reflexivity].
Qed.




(** A batch whose first URL fails at the capture: the failure is recorded
    and the second URL is processed all the same. *)
Example failing_url_does_not_stop_batch :
  (λ job, (status job, is_failure <$> completed job, result_url <$> completed job))
    <$> analysisJobs st_finished !! "job1"
  = Some (finished, [true; false], batch_home_first) ∧
  (completed <$> analysisJobs st_one_page !! "job1")
  = Some [Failure "https://x.com/" "Screenshot failed: boom"].
Proof. split; vm_compute; reflexivity. Qed.

(** C2, the claim as stated fails: the handler stores any array that is
    not empty, and for an element such as the object [{"toString":1}],
    whose conversion to a string throws, the iteration of the loop ends in
    the exception of the log line of its [catch] block, whatever the rest of
    its [try] block is: no result is pushed for the URL and the loop does
    not reach the URLs after it.  An iteration on a string ends in a
    result. *)
Lemma unconvertible_url_leaves_loop :
  to_String unconvertible = None ∧
  (∀ (body : Exec PageResult) errorResult log,
     loop_iteration unconvertible body errorResult log
     = (Throw "Cannot convert object to primitive value", log)) ∧
  page_result w_capture_fails plain_job "https://x.com/"
  = Return (Failure "https://x.com/" "Screenshot failed: boom").
Proof.
  split; [reflexivity|]. split; [|vm_compute; reflexivity].
  intros body errorResult log. by apply loop_iteration_unconvertible.
Qed.

Lemma job_progress_witness :
  ∃ job', analysisJobs (processAnalysisJob 2 "job1" worlds 4%Z st_started) !! "job1"
          = Some job' ∧
          status job' = finished ∧ length (completed job') = 2.
Proof.
  destruct (job_progress st_started "job1"
              {| urls := batch_home_first; headerHeight := Undefined;
                 footerHeight := Undefined; status := started; completed := [];
                 total := 2; startTime := 0%Z; sseConnections := None |}
              reachable_started eq_refl) as (_ & _ & _ & _ & _ & Hrun).
  destruct (Hrun worlds 4%Z) as (job' & Hjob' & Hs & Hu & Hl & _).
  exists job'. split; [exact Hjob'|]. split; [exact Hs|].
  rewrite Hl, Hu. reflexivity.
Defined.



(** C4, at the failing input: the array holds the responses 0 and 1, and
    writing to 0 throws.  The broadcast removes 0 and then skips 1, which
    can be written to, stays attached and does not get the event.  When
    writing to 1 throws as well, 1 is never tried and stays in the array. *)
Lemma broadcast_skips_next_observer :
  sseConnections <$> analysisJobs st_first_broken !! "job1" = Some (Some [0; 1]) ∧
  (λ c, (write_throws c, ended c)) <$> conns st_first_broken !! 1 = Some (false, false) ∧
  conns (broadcastToJob "job1" (EvFinished "job1" 2 7%Z) st_first_broken) !! 1
  = conns st_first_broken !! 1 ∧
  written <$> conns (broadcastToJob "job1" (EvFinished "job1" 2 7%Z) st_first_broken) !! 1
  = Some [EvStarted "job1" 2 0] ∧
  sseConnections <$> analysisJobs (broadcastToJob "job1" (EvFinished "job1" 2 7%Z)
                                     st_first_broken) !! "job1"
  = Some (Some [1]) ∧
  write_throws <$> conns st_both_broken !! 1 = Some true ∧
  sseConnections <$> analysisJobs (broadcastToJob "job1" (EvFinished "job1" 2 7%Z)
                                     st_both_broken) !! "job1"
  = Some (Some [1]).
Proof. repeat split; vm_compute; reflexivity. Qed.



End JobExamples.

(** ** More on the output parsers *)

Section ParserProps.
Import Js JsValue Host ProcessUtils Heights.

Lemma trimStart_forall f s : string_forall f s = true → string_forall f (trimStart s) = true.
Proof.
  induction s as [|c s IH]; simpl; [done|].
  intros [Hc Hs]%andb_prop. destruct (is_white_space c); [by apply IH|].
  simpl. by rewrite Hc, Hs.
Qed.

Lemma trimEnd_forall f s : string_forall f s = true → string_forall f (trimEnd s) = true.
Proof.
  induction s as [|c s IH]; simpl; [done|].
  intros [Hc Hs]%andb_prop. specialize (IH Hs).
  destruct (trimEnd s) as [|c' t].
  - destruct (is_white_space c); simpl; [done|]. by rewrite Hc.
  - simpl in *. by rewrite Hc, IH.
Qed.

Lemma trimStart_first s :
  match first_char (trimStart s) with
  | Some c => is_white_space c = false
  | None => True
  end.
Proof.
  induction s as [|c s IH]; simpl; [done|].
  destruct (is_white_space c) eqn:Hc; [done|]. simpl. done.
Qed.

Lemma trimEnd_first s c :
  first_char (trimEnd s) = Some c → first_char s = Some c.
Proof.
  destruct s as [|a s]; simpl; [done|].
  destruct (trimEnd s); [destruct (is_white_space a)|]; simpl; done.
Qed.

Lemma trimEnd_last s :
  match last_char (trimEnd s) with
  | Some c => is_white_space c = false
  | None => True
  end.
Proof.
  induction s as [|c s IH]; simpl; [done|].
  destruct (trimEnd s) as [|c' t] eqn:Ht.
  - destruct (is_white_space c) eqn:Hc; simpl; done.
  - simpl in *. done.
Qed.

Lemma dot_plus_forall s :
  string_forall (λ c, negb (is_line_terminator c)) (dot_plus s) = true.
Proof.
  induction s as [|c s IH]; simpl; [done|].
  destruct (is_line_terminator c) eqn:Hc; simpl; [done|]. by rewrite Hc, IH.
Qed.

Lemma match_here_forall label s cap :
  match_here label s = Some cap →
  string_forall (λ c, negb (is_line_terminator c)) cap = true.
Proof.
  unfold match_here. destruct (strip_prefix label s) as [rest|]; [|done].
  pose proof (dot_plus_forall rest) as Hd.
  destruct (dot_plus rest); [done|]. by intros [= <-].
Qed.

Lemma regexp_match_forall label s cap :
  regexp_match label s = Some cap →
  string_forall (λ c, negb (is_line_terminator c)) cap = true.
Proof.
  induction s as [|c s IH]; simpl.
  - destruct (match_here label EmptyString) eqn:Hm; [|done].
    intros [= <-]. by eapply match_here_forall.
  - destruct (match_here label (String c s)) eqn:Hm.
    + intros [= <-]. by eapply match_here_forall.
    + apply IH.
Qed.

(** X1: a directory returned by [extractOutputDirectory] holds no line
    terminator and neither starts nor ends with white space. *)
Theorem extractOutputDirectory_trimmed output dir :
  extractOutputDirectory output = Some dir →
  string_forall (λ c, negb (is_line_terminator c)) dir = true ∧
  match first_char dir with Some c => is_white_space c = false | None => True end ∧
  match last_char dir with Some c => is_white_space c = false | None => True end.
Proof.
  intros Hex.
  assert (∃ cap, string_forall (λ c, negb (is_line_terminator c)) cap = true ∧
                 dir = trim cap) as (cap & Hcap & ->).
  { unfold extractOutputDirectory, primary_match, secondary_match in Hex.
    destruct (regexp_match primary_label output) as [cap|] eqn:Hp.
    - exists cap. split; [by eapply regexp_match_forall|congruence].
    - destruct (regexp_match secondary_label output) as [cap|] eqn:Hs; [|done].
      exists cap. split; [by eapply regexp_match_forall|congruence]. }
  unfold trim. split; [by apply trimEnd_forall, trimStart_forall|].
  split; [|apply trimEnd_last].
  destruct (first_char (trimEnd (trimStart cap))) as [c|] eqn:Hc; [|done].
  apply trimEnd_first in Hc. pose proof (trimStart_first cap) as Hf.
  by rewrite Hc in Hf.
Qed.

Lemma strip_prefix_app label s : strip_prefix label (label +:+ s) = Some s.
Proof.
  induction label as [|a label IH]; simpl; [done|].
  by rewrite bool_decide_eq_true_2.
Qed.

Lemma strip_prefix_first label s c :
  first_char label = Some c → first_char s ≠ Some c → strip_prefix label s = None.
Proof.
  destruct label as [|a label]; simpl; [done|]. intros [= ->].
  destruct s as [|b s]; simpl; [done|]. intros Hne.
  rewrite bool_decide_eq_false_2; [done|]. congruence.
Qed.

Lemma dot_plus_app dir rest :
  string_forall (λ c, negb (is_line_terminator c)) dir = true →
  stops (λ c, negb (is_line_terminator c)) rest = true →
  dot_plus (dir +:+ rest) = dir.
Proof.
  intros Hdir Hrest. induction dir as [|c dir IH]; simpl in *.
  - destruct rest as [|a rest]; simpl in *; [done|].
    by destruct (is_line_terminator a).
  - apply andb_prop in Hdir as [Hc Hdir]. destruct (is_line_terminator c); [done|].
    by rewrite IH.
Qed.

(** Where the label cannot start, the pattern is tried further right. *)
Lemma regexp_match_skip label c0 pre s :
  first_char label = Some c0 →
  string_forall (λ c, negb (bool_decide (c = c0))) pre = true →
  regexp_match label (pre +:+ String c0 s) = regexp_match label (String c0 s).
Proof.
  intros Hl. induction pre as [|c pre IH]; [done|].
  intros [Hc Hpre]%andb_prop.
  change (String c pre +:+ String c0 s) with (String c (pre +:+ String c0 s)).
  cbn [regexp_match]. unfold match_here at 1.
  rewrite (strip_prefix_first _ _ c0); [by apply IH|done|].
  simpl. intros [= ->]. by rewrite bool_decide_eq_true_2 in Hc.
Qed.

(** X2: the report line of the capture tool is read back: when no [O]
    stands before the line and the directory text is not empty, holds no
    line terminator and ends at a line terminator or at the end of the
    output, [extractOutputDirectory] returns the directory text, trimmed. *)
Theorem extractOutputDirectory_reads_report pre dir rest :
  string_forall (λ c, negb (bool_decide (c = "O"%char))) pre = true →
  dir ≠ EmptyString →
  string_forall (λ c, negb (is_line_terminator c)) dir = true →
  stops (λ c, negb (is_line_terminator c)) rest = true →
  extractOutputDirectory (pre +:+ "Output saved in: " +:+ dir +:+ rest) = Some (trim dir).
Proof.
  intros Hpre Hne Hdir Hrest. unfold extractOutputDirectory, primary_match, primary_label.
  change ("Output saved in: " +:+ dir +:+ rest)
    with (String "O" ("utput saved in: " +:+ dir +:+ rest)).
  rewrite (regexp_match_skip _ "O"%char) by done.
  change (String "O" ("utput saved in: " +:+ dir +:+ rest))
    with ("Output saved in: " +:+ dir +:+ rest).
  assert (match_here "Output saved in: " ("Output saved in: " +:+ dir +:+ rest) = Some dir)
    as Hm.
  { unfold match_here. rewrite strip_prefix_app, dot_plus_app by done.
    by destruct dir. }
  by rewrite (regexp_match_here _ _ _ Hm).
Qed.

End ParserProps.

Section HeightProps.
Import Js JsValue Host ProcessUtils Heights.

Lemma pretty_N_char_digit x :
  (x < 10)%N →
  is_decimal_digit (pretty_N_char x) = true ∧
  Z.of_nat (nat_of_ascii (pretty_N_char x) - 48) = Z.of_N x.
Proof.
  intros Hx.
  assert (x ∈ [0; 1; 2; 3; 4; 5; 6; 7; 8; 9]%N) as Hin.
  { rewrite !elem_of_cons. lia. }
  rewrite !elem_of_cons in Hin.
  destruct Hin as [->|[->|[->|[->|[->|[->|[->|[->|[->|[->|Hin]]]]]]]]]]; [done..|].
  by apply not_elem_of_nil in Hin.
Qed.

Lemma pretty_N_go_app x s t : pretty_N_go x (s +:+ t) = pretty_N_go x s +:+ t.
Proof.
  revert s. induction (N.lt_wf_0 x) as [x _ IH]; intros s.
  destruct (decide (0 < x)%N) as [Hx|Hx].
  - rewrite !(pretty_N_go_step x) by done.
    apply (IH _ (N.div_lt x 10 Hx eq_refl) (String _ s)).
  - assert (x = 0%N) as -> by lia. by rewrite !pretty_N_go_0.
Qed.

Lemma pretty_N_go_digit_run x s :
  digit_run (pretty_N_go x s) = pretty_N_go x (digit_run s).
Proof.
  revert s. induction (N.lt_wf_0 x) as [x _ IH]; intros s.
  destruct (decide (0 < x)%N) as [Hx|Hx].
  - rewrite !(pretty_N_go_step x) by done.
    rewrite (IH _ (N.div_lt x 10 Hx eq_refl)). simpl.
    destruct (pretty_N_char_digit (x `mod` 10)) as [-> _]; [|done].
    by apply N.mod_lt.
  - assert (x = 0%N) as -> by lia. by rewrite !pretty_N_go_0.
Qed.

Lemma pretty_N_go_parseInt x s :
  (0 < x)%N → parseInt_from 0 (pretty_N_go x s) = parseInt_from (Z.of_N x) s.
Proof.
  revert s. induction (N.lt_wf_0 x) as [x _ IH]; intros s Hx.
  rewrite (pretty_N_go_step x) by done.
  destruct (pretty_N_char_digit (x `mod` 10)) as [Hd Hv]; [by apply N.mod_lt|].
  destruct (decide (0 < x `div` 10)%N) as [Hq|Hq].
  - rewrite (IH _ (N.div_lt x 10 Hx eq_refl)) by done. simpl. rewrite Hd, Hv.
    f_equal. pose proof (N.div_mod x 10 ltac:(done)) as Hdm.
    apply (f_equal Z.of_N) in Hdm. rewrite N2Z.inj_add, N2Z.inj_mul in Hdm.
    by rewrite Hdm.
  - destruct (N.eq_0_gt_0_cases (x `div` 10)) as [Hz|?]; [|done].
    rewrite Hz, pretty_N_go_0. simpl.
    rewrite Hd, Hv. f_equal. pose proof (N.div_mod x 10 ltac:(done)) as Hdm.
    apply (f_equal Z.of_N) in Hdm. rewrite N2Z.inj_add, N2Z.inj_mul in Hdm.
    by rewrite Hdm, Hz.
Qed.

Lemma pretty_N_go_nonempty x : (0 < x)%N → pretty_N_go x EmptyString ≠ EmptyString.
Proof.
  intros Hx. rewrite (pretty_N_go_step x) by done.
  change (String (pretty_N_char (x `mod` 10)) EmptyString)
    with (EmptyString +:+ String (pretty_N_char (x `mod` 10)) EmptyString).
  rewrite pretty_N_go_app. by destruct (pretty_N_go (x `div` 10) EmptyString).
Qed.

(** The decimal text of a number, followed by a text that does not go on
    with a digit, is the digit run at its start, is not empty, and is read
    back by [parseInt]. *)
Lemma digit_run_pretty (n : N) rest :
  stops is_decimal_digit rest = true →
  digit_run (pretty n +:+ rest) = pretty n ∧ pretty n ≠ EmptyString ∧
  parseInt (pretty n) = Z.of_N n.
Proof.
  intros Hrest.
  assert (digit_run rest = EmptyString) as Hr.
  { destruct rest as [|c rest]; simpl in *; [done|]. by destruct (is_decimal_digit c). }
  unfold pretty, pretty_N, parseInt. destruct (decide (n = 0%N)) as [->|Hn].
  - simpl. change (EmptyString +:+ rest) with rest. by rewrite Hr.
  - rewrite <- pretty_N_go_app. change (EmptyString +:+ rest) with rest.
    rewrite pretty_N_go_digit_run, Hr. split; [done|].
    split; [apply pretty_N_go_nonempty; lia|].
    rewrite pretty_N_go_parseInt by lia. done.
Qed.

Lemma regexp_match_digits_skip label c0 pre s :
  first_char label = Some c0 →
  string_forall (λ c, negb (bool_decide (c = c0))) pre = true →
  regexp_match_digits label (pre +:+ String c0 s) = regexp_match_digits label (String c0 s).
Proof.
  intros Hl. induction pre as [|c pre IH]; [done|].
  intros [Hc Hpre]%andb_prop.
  change (String c pre +:+ String c0 s) with (String c (pre +:+ String c0 s)).
  cbn [regexp_match_digits]. unfold match_here_digits at 1.
  rewrite (strip_prefix_first _ _ c0); [by apply IH|done|].
  simpl. intros [= ->]. by rewrite bool_decide_eq_true_2 in Hc.
Qed.

Lemma regexp_match_digits_here label s cap :
  match_here_digits label s = Some cap → regexp_match_digits label s = Some cap.
Proof. intros Hm. destruct s; simpl; by rewrite Hm. Qed.

Lemma string_app_assoc s t u : (s +:+ t) +:+ u = s +:+ t +:+ u.
Proof.
  induction s as [|c s IH]; [done|].
  change (String c ((s +:+ t) +:+ u) = String c (s +:+ t +:+ u)). by rewrite IH.
Qed.

Lemma string_app_empty_r s : s +:+ EmptyString = s.
Proof.
  induction s as [|c s IH]; [done|].
  change (String c (s +:+ EmptyString) = String c s). by rewrite IH.
Qed.

Lemma string_forall_app f s t :
  string_forall f (s +:+ t) = string_forall f s && string_forall f t.
Proof.
  induction s as [|c s IH]; [done|].
  change (String c s +:+ t) with (String c (s +:+ t)). simpl.
  by rewrite IH, andb_assoc.
Qed.

Lemma string_forall_impl (f g : ascii → bool) s :
  (∀ c, f c = true → g c = true) → string_forall f s = true → string_forall g s = true.
Proof.
  intros Hfg. induction s as [|c s IH]; simpl; [done|].
  intros [Hc Hs]%andb_prop. by rewrite (Hfg _ Hc), IH.
Qed.

Lemma digit_run_digits s : string_forall is_decimal_digit (digit_run s) = true.
Proof.
  induction s as [|c s IH]; simpl; [done|].
  destruct (is_decimal_digit c) eqn:Hc; simpl; [|done]. by rewrite Hc, IH.
Qed.

(** A label followed by the decimal text of [n] is matched where it
    stands, when its first character does not occur before it. *)
Lemma regexp_match_digits_reads label c0 tail pre (n : N) rest :
  label = String c0 tail →
  string_forall (λ c, negb (bool_decide (c = c0))) pre = true →
  stops is_decimal_digit rest = true →
  parseInt <$> regexp_match_digits label (pre +:+ label +:+ pretty n +:+ rest)
  = Some (Z.of_N n).
Proof.
  intros -> Hpre Hrest.
  change (String c0 tail +:+ pretty n +:+ rest) with (String c0 (tail +:+ pretty n +:+ rest)).
  rewrite (regexp_match_digits_skip _ c0) by done.
  change (String c0 (tail +:+ pretty n +:+ rest)) with (String c0 tail +:+ pretty n +:+ rest).
  destruct (digit_run_pretty n rest Hrest) as (Hrun & Hne & Hparse).
  rewrite (regexp_match_digits_here _ _ (pretty n)); [by rewrite <- Hparse|].
  unfold match_here_digits. rewrite strip_prefix_app, Hrun.
  by destruct (pretty n).
Qed.

(** X3: the heights printed by the capture tool are read back by
    [extractHeightInfo], each on its own: a header line with the decimal
    text of [h] and, further on, a footer line with the decimal text of [f]
    give the two numbers, when no [H] and no [F] stands before the header
    line, no [F] between the two, and no digit follows either number. *)
Theorem extractHeightInfo_reads_heights pre (h f : N) mid rest :
  (h < 2 ^ 53)%N → (f < 2 ^ 53)%N →
  string_forall (λ c, negb (bool_decide (c = "H"%char)) && negb (bool_decide (c = "F"%char)))
    pre = true →
  string_forall (λ c, negb (bool_decide (c = "F"%char))) mid = true →
  stops is_decimal_digit mid = true → stops is_decimal_digit rest = true →
  extractHeightInfo (pre +:+ "Header height: " +:+ pretty h +:+ mid
                     +:+ "Footer height: " +:+ pretty f +:+ rest)
  = {| info_headerHeight := Some (Z.of_N h); info_footerHeight := Some (Z.of_N f) |}.
Proof.
  intros _ _ Hpre Hmid Hsm Hsr. unfold extractHeightInfo. cbv zeta. f_equal.
  - apply (regexp_match_digits_reads _ "H"%char "eader height: "); [done| |].
    + eapply string_forall_impl; [|done]. intros c [? _]%andb_prop. done.
    + destruct mid as [|c mid]; [|done]. done.
  - assert (pre +:+ "Header height: " +:+ pretty h +:+ mid
            +:+ "Footer height: " +:+ pretty f +:+ rest
            = (pre +:+ "Header height: " +:+ pretty h +:+ mid)
              +:+ "Footer height: " +:+ pretty f +:+ rest) as ->.
    { by rewrite !string_app_assoc. }
    apply (regexp_match_digits_reads _ "F"%char "ooter height: "); [done| |done].
    rewrite !string_forall_app. apply andb_true_intro. split.
    { eapply string_forall_impl; [|done]. intros c [_ ?]%andb_prop. done. }
    apply andb_true_intro. split; [done|].
    apply andb_true_intro. split; [|done].
    destruct (digit_run_pretty h EmptyString eq_refl) as (Hrun & _ & _).
    rewrite string_app_empty_r in Hrun. rewrite <- Hrun.
    eapply string_forall_impl; [|apply digit_run_digits].
    intros c Hc. unfold is_decimal_digit in Hc.
    rewrite bool_decide_eq_false_2; [done|]. intros ->. done.
Qed.

Lemma strip_prefix_Some label s rest : strip_prefix label s = Some rest → s = label +:+ rest.
Proof.
  revert s. induction label as [|a label IH]; intros s; simpl.
  - by intros [= ->].
  - destruct s as [|b s]; [done|]. case_bool_decide as Hab; [|done].
    intros Hs. subst b. by rewrite (IH _ Hs).
Qed.

Lemma digit_run_empty s : digit_run s = EmptyString ↔ stops is_decimal_digit s = true.
Proof. destruct s as [|c s]; simpl; [done|]. by destruct (is_decimal_digit c). Qed.

Lemma match_here_digits_None label s :
  match_here_digits label s = None ↔
  ∀ post, s = label +:+ post → stops is_decimal_digit post = true.
Proof.
  unfold match_here_digits. split.
  - intros Hm post ->. rewrite strip_prefix_app in Hm.
    apply digit_run_empty. by destruct (digit_run post).
  - intros Hall. destruct (strip_prefix label s) as [rest|] eqn:Hs; [|done].
    apply strip_prefix_Some in Hs. apply Hall, digit_run_empty in Hs. by rewrite Hs.
Qed.

(** The pattern [/label(\d+)/] finds nothing exactly when no occurrence of
    the label in the text is followed by a digit. *)
Lemma regexp_match_digits_None label s :
  regexp_match_digits label s = None ↔
  ∀ pre post, s = pre +:+ label +:+ post → stops is_decimal_digit post = true.
Proof.
  induction s as [|c s IH].
  - simpl. destruct (match_here_digits label EmptyString) as [cap|] eqn:Hm.
    + split; [done|]. intros Hall. exfalso.
      assert (match_here_digits label EmptyString = None) as Hn; [|congruence].
      apply match_here_digits_None. intros post. apply (Hall EmptyString).
    + split; [|done]. intros _ pre post Heq.
      destruct pre as [|a pre]; [|done].
      by apply (proj1 (match_here_digits_None label EmptyString) Hm).
  - cbn [regexp_match_digits].
    destruct (match_here_digits label (String c s)) as [cap|] eqn:Hm.
    + split; [done|]. intros Hall. exfalso.
      assert (match_here_digits label (String c s) = None) as Hn; [|congruence].
      apply match_here_digits_None. intros post. apply (Hall EmptyString).
    + rewrite IH. split.
      * intros Hall pre post Heq. destruct pre as [|a pre].
        -- by apply (proj1 (match_here_digits_None label (String c s)) Hm).
        -- injection Heq as _ Heq. by apply (Hall pre).
      * intros Hall pre post ->. by apply (Hall (String c pre)).
Qed.

Lemma parseInt_from_nonneg acc s : (0 ≤ acc)%Z → (0 ≤ parseInt_from acc s)%Z.
Proof.
  revert acc. induction s as [|c s IH]; intros acc Hacc; simpl; [done|].
  destruct (is_decimal_digit c); [|done]. apply IH. lia.
Qed.

(** X4: [extractHeightInfo] reports [null] for a height exactly when no
    occurrence of its label in the output is followed by a digit, each
    height on its own; and a height it reports is never negative. *)
Theorem extractHeightInfo_null_exactly output :
  (info_headerHeight (extractHeightInfo output) = None ↔
   ∀ pre post, output = pre +:+ "Header height: " +:+ post →
               stops is_decimal_digit post = true) ∧
  (info_footerHeight (extractHeightInfo output) = None ↔
   ∀ pre post, output = pre +:+ "Footer height: " +:+ post →
               stops is_decimal_digit post = true) ∧
  (∀ h, info_headerHeight (extractHeightInfo output) = Some h → (0 ≤ h)%Z) ∧
  (∀ h, info_footerHeight (extractHeightInfo output) = Some h → (0 ≤ h)%Z).
Proof.
  unfold extractHeightInfo. cbn [info_headerHeight info_footerHeight].
  split; [|split; [|split]].
  - rewrite <- regexp_match_digits_None. by destruct (regexp_match_digits _ output).
  - rewrite <- regexp_match_digits_None. by destruct (regexp_match_digits _ output).
  - intros h. destruct (regexp_match_digits _ output); [|done].
    intros [= <-]. by apply parseInt_from_nonneg.
  - intros h. destruct (regexp_match_digits _ output); [|done].
    intros [= <-]. by apply parseInt_from_nonneg.
Qed.

End HeightProps.

(** ** The subprocess runners and the outcomes of one page *)

Section RunnerProps.
Import Js JsValue Host Server.
Context `{Platform}.

Lemma or_text_nonempty stderr fallback :
  fallback ≠ EmptyString → or_text stderr fallback ≠ EmptyString.
Proof. intros Hf. unfold or_text. by case_bool_decide. Qed.

Lemma truthy_Str s : s ≠ EmptyString → truthy (Str s) = true.
Proof. intros Hs. simpl. by rewrite bool_decide_eq_false_2. Qed.

(** A child that closes with another exit code than 0 leaves an error text
    that is not empty: its standard error, or the text with the code. *)
Lemma python_exit_failed code out err :
  code ≠ Some 0%Z →
  python_exit_result (Closed code out err)
  = Return {| output := out;
              error := Str (or_text err ("Process exited with code " +:+ code_text code)) |} ∧
  truthy (Str (or_text err ("Process exited with code " +:+ code_text code))) = true.
Proof.
  intros Hc. unfold python_exit_result. rewrite bool_decide_eq_false_2 by done.
  split; [done|]. by apply truthy_Str, or_text_nonempty.
Qed.





End RunnerProps.

Section PageOutcomes.
Import Js JsValue Host Server Outcomes.
Context `{Platform}.

(** X6: a capture child that closes with another exit code than 0 makes the
    page a failure whose message is [Screenshot failed: ] followed by the
    standard error of the child or, when that is empty, by the text with the
    exit code; its output is not looked at and no analysis child is
    spawned.  ([args] are the arguments of the capture child.) *)
Theorem capture_failure_skips_analysis w job url args code out err :
  screenshotArgs job url = Return args →
  spawn w pythonPath ("-m" :: "screenshot_urlbox.processor" :: args) = Closed code out err →
  code ≠ Some 0%Z →
  page_result w job url
  = Return (Failure url ("Screenshot failed: "
                         +:+ or_text err ("Process exited with code " +:+ code_text code))) ∧
  page_spawned w job url = [capture_command args].
Proof.
  intros Hargs Hs Hc. unfold page_result, page_spawned.
  rewrite page_exec_spec, Hargs. cbv zeta.
  rewrite Hs. destruct (python_exit_failed code out err Hc) as [Hr Ht].
  rewrite Hr. cbn [error]. rewrite Ht. done.
Qed.

Lemma ai_error_falsy exit :
  truthy (ai_error (ai_exit_result exit)) = false ↔ analysis_accepted exit.
Proof.
  unfold analysis_accepted. destruct exit as [code stdout stderr|message|message];
    cbn [ai_exit_result].
  - case_bool_decide as Hc; cbn [ai_error].
    + subst code. destruct (JSON_parse stdout) as [v|m] eqn:Hp.
      * split.
        -- intros Ht. right. right. exists stdout, stderr, v. split; [done|]. split; [done|].
           destruct v; try done; simpl in *.
           all: repeat split; try done.
           destruct (assoc "success" fields) as [| |[|]| | | |] eqn:Hsucc; try done.
           simpl in Ht. destruct (truthy (assoc "error" fields)) eqn:He; [congruence|done].
        -- intros [[=]|[[=]|(stdout0 & stderr0 & v0 & [= <- <-] & Hp0 & Hn & Hu & Hsucc)]].
           rewrite Hp in Hp0. injection Hp0 as <-.
           destruct v; try done.
           simpl in *. destruct (assoc "success" fields) as [| |[|]| | | |]; done.
      * split; [done|].
        intros [[=]|[[=]|(stdout0 & stderr0 & v0 & [= <- <-] & Hp0 & _)]].
        congruence.
    + rewrite truthy_Str by (by apply or_text_nonempty).
      split; [done|]. intros [[=]|[[=]|(stdout0 & stderr0 & v0 & [= -> _ _] & _)]]. done.
  - split.
    + intros Ht. left. apply negb_false_iff, bool_decide_eq_true_1 in Ht. by rewrite Ht.
    + intros [[= ->]|[[=]|(? & ? & ? & [=] & _)]]. done.
  - split.
    + intros Ht. right. left. apply negb_false_iff, bool_decide_eq_true_1 in Ht.
      by rewrite Ht.
    + intros [[=]|[[= ->]|(? & ? & ? & [=] & _)]]. done.
Qed.

(** X7: a page is a success exactly when its capture child closed with exit
    code 0 and printed the directory, the files its analysis type requires
    exist, and the analysis child was accepted; the result is then built
    from the base name of the directory and the value the analysis printed,
    and the page spawned exactly the two children.  ([args] are the
    arguments of the capture child.) *)
Theorem page_success_exactly w job url :
  (succeeded (page_result w job url) = true ↔
   ∃ args out err cap,
     screenshotArgs job url = Return args ∧
     spawn w pythonPath ("-m" :: "screenshot_urlbox.processor" :: args)
       = Closed (Some 0%Z) out err ∧
     outputDirMatch out = Some cap ∧
     files_ok w (trim cap) (role_of url (urls job)) = true ∧
     analysis_accepted (spawn w pythonPath [aiScriptPath; trim cap; url; role_of url (urls job)])) ∧
  (∀ args out err cap,
     screenshotArgs job url = Return args →
     spawn w pythonPath ("-m" :: "screenshot_urlbox.processor" :: args)
       = Closed (Some 0%Z) out err →
     outputDirMatch out = Some cap →
     files_ok w (trim cap) (role_of url (urls job)) = true →
     analysis_accepted (spawn w pythonPath [aiScriptPath; trim cap; url; role_of url (urls job)]) →
     page_result w job url
     = Return (build_result url (path_basename (trim cap)) (role_of url (urls job))
                 (ai_exit_result
                    (spawn w pythonPath [aiScriptPath; trim cap; url; role_of url (urls job)]))) ∧
     page_spawned w job url
     = [capture_command args; ai_command (trim cap) url (role_of url (urls job))]).
Proof.
  split.
  - unfold page_result. rewrite page_exec_spec.
    destruct (screenshotArgs job url) as [args|m] eqn:Hargs.
    2:{ split; [done|]. intros (? & ? & ? & ? & [=] & _). }
    cbv zeta.
    destruct (spawn w pythonPath ("-m" :: "screenshot_urlbox.processor" :: args))
      as [code out err|message|message] eqn:Hs.
    + destruct (decide (code = Some 0%Z)) as [->|Hc].
      * rewrite python_exit_ok. cbn [error output truthy].
        destruct (outputDirMatch out) as [cap|] eqn:Hm.
        -- destruct (files_ok w (trim cap) (role_of url (urls job))) eqn:Hf.
           ++ destruct (truthy (ai_error _)) eqn:Ha.
              ** split; [done|].
                 intros (args' & out' & err' & cap' & [= <-] & Hs' & Hm' & _ & Hacc).
                 rewrite Hs in Hs'. injection Hs' as <- <-.
                 rewrite Hm in Hm'. injection Hm' as <-.
                 apply ai_error_falsy in Hacc. congruence.
              ** split; [|done]. intros _. exists args, out, err, cap.
                 do 4 (split; [done|]). by apply ai_error_falsy.
           ++ split; [done|].
              intros (args' & out' & err' & cap' & [= <-] & Hs' & Hm' & Hf' & _).
              rewrite Hs in Hs'. injection Hs' as <- <-.
              rewrite Hm in Hm'. injection Hm' as <-. congruence.
        -- split; [done|].
           intros (args' & out' & err' & cap' & [= <-] & Hs' & Hm' & _).
           rewrite Hs in Hs'. injection Hs' as <- <-. congruence.
      * destruct (python_exit_failed code out err Hc) as [-> Ht]. cbn [error].
        rewrite Ht.
        split; [done|]. intros (args' & out' & err' & cap' & [= <-] & Hs' & _).
        rewrite Hs in Hs'. injection Hs' as -> _ _. done.
    + cbn [python_exit_result error output]. destruct (truthy (Str message)); simpl.
      * split; [done|]. intros (args' & ? & ? & ? & [= <-] & Hs' & _). congruence.
      * split; [done|]. intros (args' & ? & ? & ? & [= <-] & Hs' & _). congruence.
    + cbn [python_exit_result]. simpl.
      split; [done|]. intros (args' & ? & ? & ? & [= <-] & Hs' & _). congruence.
  - intros args out err cap Hargs Hs Hm Hf Hacc. apply ai_error_falsy in Hacc.
    unfold page_result, page_spawned.
    rewrite (page_exec_captured w job url args out err cap Hargs Hs Hm). cbv zeta.
    by rewrite Hf, Hacc.
Qed.

Lemma page_result_cases w job url :
  (∃ message, page_result w job url = Return (Failure url message)) ∨
  (∃ cap ai, page_result w job url
             = Return (build_result url (path_basename (trim cap))
                         (role_of url (urls job)) ai)).
Proof.
  unfold page_result. rewrite page_exec_spec.
  destruct (screenshotArgs job url) as [args|m]; [|left; by eexists].
  cbv zeta.
  destruct (python_exit_result _) as [shot|m]; [|left; by eexists].
  destruct (truthy (error shot)); [left; by eexists|].
  destruct (outputDirMatch _) as [cap|]; [|left; by eexists].
  destruct (files_ok _ _ _); [|left; by eexists].
  destruct (truthy (ai_error _)); [left; by eexists|]. right. by eexists _, _.
Qed.

(** X8: the result object of a page that went through carries the URL and
    the analysis type of its role, and always the body image under the
    directory it names; for a homepage it also carries the header and the
    footer image and the three further analyses, for any other URL neither
    the two images nor these analyses. *)
Theorem success_shape_by_role w job url u dir type images bodyAnalysis full :
  page_result w job url = Return (Success u dir type images bodyAnalysis full) →
  u = url ∧ type = role_of url (urls job) ∧
  img_body images = "/screenshots/" +:+ dir +:+ "/body.png" ∧
  (isHomePageUrl url (urls job) = true →
   type = "all" ∧
   img_header images = Some ("/screenshots/" +:+ dir +:+ "/header.png") ∧
   img_footer images = Some ("/screenshots/" +:+ dir +:+ "/footer.png") ∧
   is_Some full) ∧
  (isHomePageUrl url (urls job) = false →
   type = "body" ∧ img_header images = None ∧ img_footer images = None ∧ full = None).
Proof.
  intros Hr. destruct (page_result_cases w job url) as [[m Hm]|(cap & ai & Hb)];
    [congruence|].
  rewrite Hb in Hr. unfold build_result, role_of in *.
  destruct (isHomePageUrl url (urls job)); simpl in Hr; injection Hr as <- <- <- <- <- <-;
    (split; [done|]); (split; [done|]); (split; [done|]); split; intros [=];
    (split; [done|]); (split; [done|]); (split; [done|]); by eauto.
Qed.

(** X9: an analysis child that closes with another exit code than 0 makes
    the page a failure that carries its standard error or, when that is
    empty, the text with the exit code; what the child printed is not
    parsed, whatever the platform makes of it.  ([args] are the arguments
    of the capture child.) *)
Theorem analysis_exit_code_reported w job url args out err cap code stdout stderr :
  screenshotArgs job url = Return args →
  spawn w pythonPath ("-m" :: "screenshot_urlbox.processor" :: args)
    = Closed (Some 0%Z) out err →
  outputDirMatch out = Some cap →
  files_ok w (trim cap) (role_of url (urls job)) = true →
  spawn w pythonPath [aiScriptPath; trim cap; url; role_of url (urls job)]
    = Closed code stdout stderr →
  code ≠ Some 0%Z →
  page_result w job url
  = Return (Failure url ("AI analysis failed: "
                         +:+ or_text stderr ("AI analysis failed with code "
                                             +:+ code_text code))).
Proof.
  intros Hargs Hs Hm Hf Ha Hc. unfold page_result.
  rewrite (page_exec_captured w job url args out err cap Hargs Hs Hm). cbv zeta.
  rewrite Hf, Ha. cbn [ai_exit_result]. rewrite bool_decide_eq_false_2 by done.
  cbn [ai_error]. rewrite truthy_Str by (by apply or_text_nonempty). done.
Qed.

(** X10: an analysis child that exits with code 0 and prints an object
    whose [success] is [false] makes the page a failure.  When the [error]
    of the object is falsy the message is a fixed text; when it is truthy
    and converts to a string, the message is [AI analysis failed: ] followed
    by that string; when it is truthy and its conversion throws (an object
    with a member [toString]), the message is that of the [TypeError].
    ([args] are the arguments of the capture child.) *)
Theorem analysis_reported_error w job url args out err cap stdout stderr v :
  screenshotArgs job url = Return args →
  spawn w pythonPath ("-m" :: "screenshot_urlbox.processor" :: args)
    = Closed (Some 0%Z) out err →
  outputDirMatch out = Some cap →
  files_ok w (trim cap) (role_of url (urls job)) = true →
  spawn w pythonPath [aiScriptPath; trim cap; url; role_of url (urls job)]
    = Closed (Some 0%Z) stdout stderr →
  JSON_parse stdout = Parsed v →
  get v "success" = Bool false →
  (truthy (get v "error") = false →
   page_result w job url
   = Return (Failure url "AI analysis failed: AI analysis returned error")) ∧
  (∀ text, truthy (get v "error") = true → to_String (get v "error") = Some text →
   page_result w job url = Return (Failure url ("AI analysis failed: " +:+ text))) ∧
  (truthy (get v "error") = true → to_String (get v "error") = None →
   page_result w job url
   = Return (Failure url "Cannot convert object to primitive value")).
Proof.
  intros Hargs Hs Hm Hf Ha Hp Hsucc. unfold page_result.
  rewrite (page_exec_captured w job url args out err cap Hargs Hs Hm). cbv zeta.
  rewrite Hf, Ha. cbn [ai_exit_result]. rewrite bool_decide_eq_true_2 by done.
  rewrite Hp. destruct v; try done. rewrite Hsucc. cbn [ai_error].
  split; [|split].
  - intros He. by rewrite He.
  - intros text He Ht. rewrite !He. unfold thrown_message. by rewrite Ht.
  - intros He Ht. rewrite !He. unfold thrown_message. by rewrite Ht.
Qed.

End PageOutcomes.

Section RoleRules.
Import Js JsValue Host Server Claimed.
Context `{Platform}.

(** X11: in a batch of one URL (or none) the homepage is decided by the
    path alone: the pattern addresses and the first-URL rule are tried only
    in a batch of several URLs, so a single URL with another path is
    analysed as [body]. *)
Theorem single_url_homepage_by_path url allUrls :
  length allUrls ≤ 1 →
  isHomePageUrl url allUrls = syntactic_homepage url ∧
  (syntactic_homepage url = false → role_of url allUrls = "body").
Proof.
  intros Hlen.
  assert (isHomePageUrl url allUrls = syntactic_homepage url) as Heq.
  { unfold isHomePageUrl, syntactic_homepage. destruct (URL_new url) as [u|]; [|done].
    destruct (is_home_path (pathname u)); [done|].
    rewrite bool_decide_eq_false_2; [done|lia]. }
  split; [done|]. intros Hs. apply role_of_body. congruence.
Qed.

(** X12: the first URL of a batch of several URLs is the homepage whenever
    it parses and every home pattern resolves under its origin; when a
    pattern does not resolve before an address equal to the URL is found,
    the exception makes it the homepage only by its path. *)
Theorem first_url_is_homepage first rest urlObj :
  rest ≠ [] → URL_new first = Some urlObj →
  (scan_home_patterns first (origin urlObj) homePatterns ≠ Raised →
   isHomePageUrl first (first :: rest) = true) ∧
  (scan_home_patterns first (origin urlObj) homePatterns = Raised →
   isHomePageUrl first (first :: rest) = is_home_path (pathname urlObj)).
Proof.
  intros Hrest Hu. unfold isHomePageUrl. rewrite Hu.
  destruct (is_home_path (pathname urlObj)); [done|].
  rewrite bool_decide_eq_true_2 by (destruct rest; [done|simpl; lia]).
  destruct (scan_home_patterns first (origin urlObj) homePatterns); simpl.
  - done.
  - split; [|done]. intros _. unfold str_eq. by rewrite bool_decide_eq_true_2.
  - done.
Qed.

End RoleRules.

(** ** The streams and the job table in every state *)

Section StreamShape.
Import Js JsValue Host Server Invariants Observed.
Context `{Platform}.








End StreamShape.

Section JobTableProps.
Import Js JsValue Host Server Invariants Observed.
Context `{Platform}.

Lemma job_extends_refl job : job_extends job job.
Proof. by repeat split. Qed.

Lemma job_extends_trans j1 j2 j3 : job_extends j1 j2 → job_extends j2 j3 → job_extends j1 j3.
Proof.
  intros (Hu1 & Hh1 & Hf1 & Ht1 & Hs1 & Hc1 & Hfin1) (Hu2 & Hh2 & Hf2 & Ht2 & Hs2 & Hc2 & Hfin2).
  do 5 (split; [congruence|]). split; [by etrans|].
  intros Hfin. destruct (Hfin1 Hfin) as [Hst Hc]. destruct (Hfin2 Hst) as [Hst' Hc'].
  split; [done|congruence].
Qed.

Lemma job_extends_sse job l : job_extends job (set_sseConnections job l).
Proof. by repeat split. Qed.

(** A turn of the event loop keeps a job in the table and extends it,
    unless it is the start of a job under the same id. *)
Lemma apply_job_extends a st jobId job :
  invariant st → analysisJobs st !! jobId = Some job →
  (∀ urls0 hh fh now, a ≠ StartAnalysis jobId urls0 hh fh now) →
  ∃ job', analysisJobs (apply_action a st) !! jobId = Some job' ∧ job_extends job job'.
Proof.
  intros Hinv Hjob Hstart.
  destruct a as [j urls0 hh fh now|j w now|j now|r|r b]; simpl in *.
  - exists job. split; [|apply job_extends_refl].
    unfold start_analysis. destruct urls0 as [|u urls0]; [done|]. simpl.
    rewrite lookup_insert_ne; [done|]. intros ->. by destruct (Hstart (u :: urls0) hh fh now).
  - destruct (analysisJobs st !! j) as [job0|] eqn:Hjob0.
    2:{ exists job. split; [|apply job_extends_refl]. unfold resume. by rewrite Hjob0. }
    destruct (tasks st !! j) as [i|] eqn:Htask.
    2:{ exists job. split; [|apply job_extends_refl]. unfold resume. by rewrite Hjob0, Htask. }
    destruct (decide (j = jobId)) as [->|Hne].
    + assert (job0 = job) as -> by congruence.
      assert (status job = started) as Hstarted.
      { destruct (inv_jobs _ (inv_loop _ Hinv) _ _ Hjob) as (_ & _ & Hst & _).
        rewrite Htask in Hst. by destruct Hst. }
      destruct (resume_unfold jobId w now st job i Hinv Hjob Htask)
        as (url & r & sse1 & cs1 & _ & _ & _ & _ & [[_ ->]|(_ & sse2 & cs2 & _ & ->)]);
        simpl; rewrite lookup_insert_eq; eexists; (split; [done|]);
        do 5 (split; [done|]); (split; [by apply prefix_app_r|]); congruence.
    + destruct (resume_spec j w now st job0 i Hinv Hjob0 Htask)
        as (_ & _ & _ & _ & _ & _ & _ & _ & _ & _ & Hother & _).
      destruct (Hother jobId) as [-> _]; [done|]. exists job. by split; [|apply job_extends_refl].
  - destruct (analysisJobs st !! j) as [job0|] eqn:Hjob0.
    + rewrite (analysis_stream_known _ _ _ _ Hjob0). simpl.
      destruct (decide (j = jobId)) as [->|Hne].
      * rewrite lookup_insert_eq. eexists. split; [done|].
        assert (job0 = job) as -> by congruence. apply job_extends_sse.
      * rewrite lookup_insert_ne by done. exists job. by split; [|apply job_extends_refl].
    + unfold analysis_stream. rewrite Hjob0. simpl.
      exists job. by split; [|apply job_extends_refl].
  - unfold close_event.
    destruct (conns st !! r) as [c0|]; [|by exists job; split; [|apply job_extends_refl]].
    destruct (conn_job c0) as [j|]; [|by exists job; split; [|apply job_extends_refl]].
    destruct (analysisJobs st !! j) as [job0|] eqn:Hjob0;
      [|by exists job; split; [|apply job_extends_refl]].
    destruct (sseConnections job0) as [arr|];
      [|by exists job; split; [|apply job_extends_refl]].
    destruct (indexOf r arr) as [index|];
      [|by exists job; split; [|apply job_extends_refl]].
    simpl. destruct (decide (j = jobId)) as [->|Hne].
    + rewrite lookup_insert_eq. eexists. split; [done|].
      assert (job0 = job) as -> by congruence. apply job_extends_sse.
    + rewrite lookup_insert_ne by done. exists job. by split; [|apply job_extends_refl].
  - exists job. split; [|apply job_extends_refl].
    unfold set_write_throws. by destruct (conns st !! r).
Qed.

(** One turn of a run keeps every job in the table and extends it: the id
    of a job started in a run is new. *)
Lemma step_job_extends st st' jobId job :
  invariant st → step st st' → analysisJobs st !! jobId = Some job →
  ∃ job', analysisJobs st' !! jobId = Some job' ∧ job_extends job job'.
Proof.
  intros Hinv Hstep Hjob. destruct Hstep as [a st Hen].
  apply apply_job_extends; [done|done|].
  intros urls0 hh fh now ->. destruct Hen as [Hen _]. congruence.
Qed.

(** X14: no turn of the event loop removes a job from the table, and none
    replaces one but the start of a job under the same id, whose handler
    assigns the new job without looking at the table.  After any other turn
    the job is still there with the same URLs, height hints, total and start
    time; its results have only grown at the end; and once it is finished,
    neither its status nor its results have changed.  So it is in every
    later state of a run, in which the id of a started job is new. *)
Theorem job_never_lost st jobId job :
  reachable st → analysisJobs st !! jobId = Some job →
  (∀ a, (∀ urls0 hh fh now, a ≠ StartAnalysis jobId urls0 hh fh now) →
     ∃ job', analysisJobs (apply_action a st) !! jobId = Some job' ∧
             urls job' = urls job ∧ headerHeight job' = headerHeight job ∧
             footerHeight job' = footerHeight job ∧ total job' = total job ∧
             startTime job' = startTime job ∧
             completed job `prefix_of` completed job' ∧
             (status job = finished →
              status job' = finished ∧ completed job' = completed job)) ∧
  (∀ u urls0 hh fh now,
     analysisJobs (apply_action (StartAnalysis jobId (u :: urls0) hh fh now) st) !! jobId
     = Some {| urls := u :: urls0; headerHeight := hh; footerHeight := fh;
               status := started; completed := []; total := S (length urls0);
               startTime := now; sseConnections := None |}) ∧
  (∀ st', rtc step st st' →
     ∃ job', analysisJobs st' !! jobId = Some job' ∧
             urls job' = urls job ∧ headerHeight job' = headerHeight job ∧
             footerHeight job' = footerHeight job ∧ total job' = total job ∧
             startTime job' = startTime job ∧
             completed job `prefix_of` completed job' ∧
             (status job = finished →
              status job' = finished ∧ completed job' = completed job)).
Proof.
  intros Hreach Hjob. pose proof (invariant_reachable _ Hreach) as Hinv. clear Hreach.
  split; [|split].
  - intros a Hstart. by apply apply_job_extends.
  - intros u urls0 hh fh now. simpl. by rewrite lookup_insert_eq.
  - intros st' Hrtc. revert job Hjob.
    induction Hrtc as [st|st st1 st2 Hstep Hrtc IH]; intros job Hjob.
    + exists job. split; [done|]. apply job_extends_refl.
    + destruct (step_job_extends _ _ _ _ Hinv Hstep Hjob) as (job1 & Hjob1 & Hext1).
      destruct (IH (invariant_step _ _ Hinv Hstep) _ Hjob1) as (job2 & Hjob2 & Hext2).
      exists job2. split; [done|]. by apply (job_extends_trans _ _ _ Hext1).
Qed.

Lemma indexOf_not_elem res arr : res ∉ arr → indexOf res arr = None.
Proof.
  intros Hnot. destruct (indexOf res arr) as [i|] eqn:Hi; [|done].
  apply indexOf_Some in Hi. exfalso. apply Hnot. by eapply list_elem_of_lookup_2.
Qed.

Lemma NoDup_delete_lookup {A} (l : list A) i x :
  NoDup l → l !! i = Some x → x ∉ delete i l.
Proof.
  intros Hnd Hi [k Hk]%list_elem_of_lookup_1.
  destruct (decide (k < i)).
  - rewrite list_lookup_delete_lt in Hk by done.
    pose proof (NoDup_lookup _ _ _ _ Hnd Hi Hk). lia.
  - rewrite list_lookup_delete_ge in Hk by lia.
    pose proof (NoDup_lookup _ _ _ _ Hnd Hi Hk). lia.
Qed.

(** X15: the close event of a request takes its response out of the array
    of its job and nothing else: the response is no longer in the array,
    every other response of the array stays, the results and the status of
    the job and the store of responses are untouched, and a second close
    event changes nothing. *)
Theorem close_event_detaches st res c jobId job :
  reachable st → conns st !! res = Some c → conn_job c = Some jobId →
  analysisJobs st !! jobId = Some job →
  ∃ job', analysisJobs (close_event res st) !! jobId = Some job' ∧
          (res ∉ default [] (sseConnections job')) ∧
          (∀ r, r ≠ res → r ∈ default [] (sseConnections job) →
                r ∈ default [] (sseConnections job')) ∧
          default [] (sseConnections job') `sublist_of` default [] (sseConnections job) ∧
          completed job' = completed job ∧ status job' = status job ∧
          conns (close_event res st) = conns st ∧
          close_event res (close_event res st) = close_event res st.
Proof.
  intros Hreach Hc Hcj Hjob. pose proof (invariant_reachable _ Hreach) as Hinv.
  destruct (sseConnections job) as [arr|] eqn:Harr.
  - destruct (indexOf res arr) as [index|] eqn:Hidx.
    + assert (close_event res st
              = set_job st jobId (set_sseConnections job (Some (delete index arr)))) as ->.
      { unfold close_event. by rewrite Hc, Hcj, Hjob, Harr, Hidx. }
      assert (NoDup arr) as Hnd.
      { eapply job_ok_NoDup; [|done]. by apply (inv_jobs _ (inv_loop _ Hinv)). }
      pose proof (indexOf_Some _ _ _ Hidx) as Hlook.
      assert (res ∉ delete index arr) as Hgone by by apply NoDup_delete_lookup.
      simpl. rewrite lookup_insert_eq. eexists. split; [done|]. simpl.
      split; [done|]. split.
      { intros r Hne Hin. eapply elem_of_delete_other; [done|done|done]. }
      split; [apply sublist_delete|]. do 3 (split; [done|]).
      unfold close_event. simpl. rewrite Hc, Hcj, lookup_insert_eq. simpl.
      by rewrite (indexOf_not_elem _ _ Hgone).
    + assert (close_event res st = st) as ->.
      { unfold close_event. by rewrite Hc, Hcj, Hjob, Harr, Hidx. }
      exists job. split; [done|]. rewrite Harr. simpl.
      split; [by apply indexOf_None|]. do 5 (split; [done|]).
      unfold close_event. by rewrite Hc, Hcj, Hjob, Harr, Hidx.
  - assert (close_event res st = st) as ->.
    { unfold close_event. by rewrite Hc, Hcj, Hjob, Harr. }
    exists job. split; [done|]. rewrite Harr. simpl.
    split; [apply not_elem_of_nil|]. do 5 (split; [done|]).
    unfold close_event. by rewrite Hc, Hcj, Hjob, Harr.
Qed.


End JobTableProps.

Section BroadcastProps.
Import Js JsValue Host Server Invariants Observed.
Context `{Platform}.

(** X17: a broadcast to a job none of whose responses throws on a write
    reaches all of them: the array of the job is left as it is, every open
    response of the array gets the event appended exactly once, and every
    other response of the store is left as it is. *)
Theorem broadcast_reaches_all st jobId job arr e :
  reachable st → analysisJobs st !! jobId = Some job → sseConnections job = Some arr →
  (∀ res c, res ∈ arr → conns st !! res = Some c → write_throws c = false) →
  sseConnections <$> analysisJobs (broadcastToJob jobId e st) !! jobId = Some (Some arr) ∧
  ∀ res c, conns st !! res = Some c →
    conns (broadcastToJob jobId e st) !! res
    = Some (if bool_decide (res ∈ arr) && negb (ended c) then conn_append c e else c).
Proof.
  intros Hreach Hjob Harr Hhealthy. pose proof (invariant_reachable _ Hreach) as Hinv.
  destruct (inv_jobs _ (inv_loop _ Hinv) _ _ Hjob) as (_ & _ & _ & Hsse & _).
  destruct (Hsse _ Harr) as [Hnd Hall].
  destruct (forEach_write_healthy (length arr) 0 e arr (conns st) Hnd eq_refl)
    as (cs' & Hf & Hcs').
  { intros res Hin. destruct (Hall _ Hin) as (c & Hc & _). exists c. split; [done|].
    by eapply Hhealthy. }
  unfold broadcastToJob. rewrite Hjob, Harr, Hf. simpl. rewrite lookup_insert_eq.
  split; [done|]. intros res c Hc. by rewrite (Hcs' _ _ Hc).
Qed.

(** X18: what a broadcast guarantees also when writes throw: the array of
    the job only loses responses and keeps every response whose write does
    not throw; the store keeps its responses, each with its job, its ended
    flag and its write state; and each response is left as it was or, being
    open, writable and still in the array, has got the event appended once. *)
Theorem broadcast_guarantees st jobId job arr e :
  reachable st → analysisJobs st !! jobId = Some job → sseConnections job = Some arr →
  ∃ arr',
    sseConnections <$> analysisJobs (broadcastToJob jobId e st) !! jobId = Some (Some arr') ∧
    arr' `sublist_of` arr ∧
    (∀ res c, res ∈ arr → conns st !! res = Some c → write_throws c = false → res ∈ arr') ∧
    length (conns (broadcastToJob jobId e st)) = length (conns st) ∧
    (∀ res c, conns st !! res = Some c →
       ∃ c', conns (broadcastToJob jobId e st) !! res = Some c' ∧
             conn_job c' = conn_job c ∧ ended c' = ended c ∧
             write_throws c' = write_throws c ∧
             (written c' = written c ∨
              (written c' = written c ++ [e] ∧ res ∈ arr' ∧
               ended c = false ∧ write_throws c = false))) ∧
    broadcast_log (broadcastToJob jobId e st) = broadcast_log st ++ [(jobId, e)].
Proof.
  intros Hreach Hjob Harr. pose proof (invariant_reachable _ Hreach) as Hinv.
  destruct (broadcastToJob_spec jobId e st job Hjob) as (sse' & cs' & -> & Heff).
  { intros arr0. eapply job_ok_NoDup. by apply (inv_jobs _ (inv_loop _ Hinv)). }
  pose proof Heff as (Hlen & _ & Hsse). rewrite Harr in Hsse.
  destruct Hsse as (arr' & -> & Hsub & Hkeep).
  exists arr'. simpl. rewrite lookup_insert_eq. split; [done|]. split; [done|]. split.
  { intros res c Hin Hc Ht. apply Hkeep; [done|]. by exists c. }
  split; [done|]. split; [|done].
  intros res c Hc.
  destruct (broadcast_effect_back _ _ _ _ _ _ _ Heff Hc) as (c' & Hc' & Hj & He & Ht & Hw).
  exists c'. do 4 (split; [done|]).
  destruct Hw as [Hw|(Hw & Hopen & Hcan & l & [= <-] & Hin)]; [by left|by right].
Qed.

End BroadcastProps.

Section BatchResults.
Import Js JsValue Host Server Invariants Observed.
Context `{Platform}.

(** The result of a page depends on the job only through its URLs and its
    height hints. *)
Lemma page_result_ext w job job' url :
  urls job' = urls job → headerHeight job' = headerHeight job →
  footerHeight job' = footerHeight job →
  page_result w job' url = page_result w job url.
Proof.
  intros Hu Hh Hf. unfold page_result. rewrite !page_exec_spec.
  unfold screenshotArgs. by rewrite Hu, Hh, Hf.
Qed.

Lemma processAnalysisJob_results fuel jobId ws now st job :
  invariant st → analysisJobs st !! jobId = Some job →
  length (urls job) - length (completed job) ≤ fuel →
  ∃ job', analysisJobs (processAnalysisJob fuel jobId ws now st) !! jobId = Some job' ∧
          status job' = finished ∧
          Return <$> completed job'
          = (Return <$> completed job)
            ++ imap (λ k url, page_result (ws (length (completed job) + k)) job url)
                 (drop (length (completed job)) (urls job)).
Proof.
  revert st job. induction fuel as [|fuel IH]; intros st job Hinv Hjob Hfuel; simpl.
  - destruct (inv_jobs _ (inv_loop _ Hinv) _ _ Hjob) as (_ & _ & Hst & _).
    exists job. split; [done|].
    destruct (tasks st !! jobId) as [i|] eqn:Htask.
    + pose proof (inv_pending _ Hinv _ _ _ Hjob Htask). destruct Hst as (_ & -> & _). lia.
    + destruct Hst as [Hfin Hlen]. split; [done|].
      rewrite drop_ge by lia. by rewrite app_nil_r.
  - destruct (inv_jobs _ (inv_loop _ Hinv) _ _ Hjob) as (_ & _ & Hst & _).
    destruct (tasks st !! jobId) as [i|] eqn:Htask.
    + destruct Hst as (_ & -> & _).
      destruct (resume_spec jobId (ws (length (completed job))) now st job _ Hinv Hjob Htask)
        as (url & r & job1 & Hurl & Hr & Hjob1 & Hurls & _ & _ & Hcomp & _).
      destruct (step_job_extends st _ jobId job Hinv
                  (step_action (Resume jobId (ws (length (completed job))) now) st I) Hjob)
        as (job1' & Hjob1' & _ & Hh & Hf & _).
      simpl in Hjob1'. assert (job1' = job1) as -> by congruence.
      destruct (IH (resume jobId (ws (length (completed job))) now st) job1)
        as (job' & Hjob' & Hfin & Hres).
      * by apply (invariant_apply (Resume jobId (ws (length (completed job))) now)).
      * done.
      * rewrite Hurls, Hcomp, length_app. simpl. lia.
      * exists job'. split; [done|]. split; [done|].
        rewrite Hres, Hcomp, Hurls, length_app, fmap_app, <- app_assoc. simpl. f_equal.
        rewrite (drop_S _ _ _ Hurl). simpl. rewrite Nat.add_0_r, Nat.add_1_r, Hr. f_equal.
        apply imap_ext. intros k u _. simpl.
        rewrite (page_result_ext _ job job1) by done. f_equal. f_equal. lia.
    + destruct Hst as [Hfin Hlen]. exists job. split; [done|]. split; [done|].
      rewrite drop_ge by lia. by rewrite app_nil_r.
Qed.

(** X19: for a batch of URLs that are strings, the loop of a job that has
    just been started, run to its end, leaves the job finished with one
    result for each URL, in the order of the list: no iteration throws, and
    the result at index [i] is what the iteration on the URL at index [i]
    returns in the world that URL is processed in, whatever happened to the
    other URLs of the batch. *)
Theorem batch_results st jobId url0 rest hh fh now ws now' :
  reachable st → analysisJobs st !! jobId = None →
  let urls0 := url0 :: rest in
  let job0 := {| urls := urls0; headerHeight := hh; footerHeight := fh; status := started;
                 completed := []; total := length urls0; startTime := now;
                 sseConnections := None |} in
  ∃ job', analysisJobs (processAnalysisJob (length urls0) jobId ws now'
                          (start_analysis jobId urls0 hh fh now st)) !! jobId = Some job' ∧
          status job' = finished ∧
          length (completed job') = length urls0 ∧
          Return <$> completed job' = imap (λ i url, page_result (ws i) job0 url) urls0.
Proof.
  intros Hreach Hfresh urls0 job0.
  assert (invariant (start_analysis jobId urls0 hh fh now st)) as Hinv.
  { apply invariant_start_analysis; [|done]. by apply invariant_reachable. }
  destruct (processAnalysisJob_results (length urls0) jobId ws now'
              (start_analysis jobId urls0 hh fh now st) job0 Hinv) as (job' & Hjob' & Hfin & Hres).
  { simpl. by rewrite lookup_insert_eq. }
  { simpl. lia. }
  exists job'. split; [done|]. split; [done|].
  assert (Return <$> completed job' = imap (λ i url, page_result (ws i) job0 url) urls0)
    as Heq by (by rewrite Hres).
  split; [|done].
  apply (f_equal length) in Heq. by rewrite length_fmap, length_imap in Heq.
Qed.

End BatchResults.

(** ** The single-URL endpoints *)

Section EndpointProps.
Import Js JsValue Host ProcessUtils Server Heights Endpoints.
Context `{Platform}.

Ltac unfold_exec :=
  unfold mbind, exec_mbind, exec_bind, mret, exec_mret, exec_ret, try_catch,
    spawn_wait, throw, settle, template, thrown_message in *.

(** The first step of the two endpoints reads the directory as
    [extractOutputDirectory] does. *)
Lemma capture_directory_spec w url log :
  capture_directory w url log =
  let log1 := log ++ [capture_command [url]] in
  match python_exit_result
          (spawn w pythonPath ["-m"; "screenshot_urlbox.processor"; url]) with
  | Throw message => (Throw message, log1)
  | Return shot =>
      if truthy (error shot)
      then (Throw (thrown_message "Screenshot failed: " (error shot)), log1)
      else
        match extractOutputDirectory (output shot) with
        | Some dir => (Return (output shot, dir), log1)
        | None => (Throw (missing_directory_message (output shot)), log1)
        end
  end.
Proof.
  unfold capture_directory, Server.runPythonScript, extractOutputDirectory,
    primary_match, secondary_match, primary_label, secondary_label, capture_command.
  unfold_exec. cbv zeta.
  destruct (python_exit_result _) as [shot|m]; [|done].
  destruct (truthy (error shot)); [by destruct (to_String (error shot))|].
  destruct (regexp_match "Output saved in: " _); [done|].
  by destruct (regexp_match "> Output saved in: " _).
Qed.

Lemma links_analysis_spec w outputDir url log :
  links_analysis w outputDir url log =
  if hasHeader w outputDir && hasFooter w outputDir then
    (match python_exit_result (spawn w pythonPath (links_command outputDir url).2) with
     | Throw message => Throw message
     | Return linksAnalysis =>
         Return (if truthy (error linksAnalysis) then Null
                 else match JSON_parse (output linksAnalysis) with
                      | Parsed v => v
                      | SyntaxError _ => Null
                      end)
     end,
     log ++ [links_command outputDir url])
  else (Return Null, log).
Proof.
  unfold links_analysis. unfold_exec.
  destruct (hasHeader w outputDir && hasFooter w outputDir); [|done].
  destruct (python_exit_result _) as [linksAnalysis|m]; [|done].
  destruct (truthy (error _)); [done|]. by destruct (JSON_parse _).
Qed.

(** The handler of [/discover-links], branch by branch. *)
Lemma discover_links_spec w url :
  url ≠ EmptyString →
  discover_links w url [] =
  let log1 := [capture_command [url]] in
  match python_exit_result
          (spawn w pythonPath ["-m"; "screenshot_urlbox.processor"; url]) with
  | Throw message => (Return (sendError (ErrorObject message) 500), log1)
  | Return shot =>
      if truthy (error shot)
      then (Return (sendError
                      (ErrorObject (thrown_message "Screenshot failed: " (error shot))) 500),
            log1)
      else
        match extractOutputDirectory (output shot) with
        | None =>
            (Return (sendError (ErrorObject (missing_directory_message (output shot))) 500),
             log1)
        | Some dir =>
            let info := extractHeightInfo (output shot) in
            let '(linksResult, log2) := links_analysis w dir url log1 in
            (match linksResult with
             | Return v =>
                 Return (send_json (links_response (path_basename dir) url
                                      (info_headerHeight info) (info_footerHeight info) v))
             | Throw message => Return (sendError (ErrorObject message) 500)
             end, log2)
        end
  end.
Proof.
  intros Hurl. unfold discover_links.
  assert (truthy (Str url) = true) as -> by (simpl; by rewrite bool_decide_eq_false_2).
  cbn [negb]. unfold try_catch at 1, mbind, exec_mbind, exec_bind at 1.
  rewrite capture_directory_spec. cbv zeta. simpl app.
  destruct (python_exit_result _) as [shot|m]; [|done].
  destruct (truthy (error _)); [done|].
  destruct (extractOutputDirectory _) as [dir|]; [|done].
  unfold exec_bind. destruct (links_analysis w dir url _) as [[v|m] log2]; done.
Qed.


Lemma extractOutputDirectory_outputDirMatch out :
  extractOutputDirectory out = trim <$> outputDirMatch out.
Proof.
  unfold extractOutputDirectory, outputDirMatch, primary_match, secondary_match,
    primary_label, secondary_label.
  destruct (regexp_match "Output saved in: " out); [done|].
  by destruct (regexp_match "> Output saved in: " out).
Qed.

(** The handler of [/process], branch by branch. *)
Lemma process_spec w url :
  url ≠ EmptyString →
  process w url [] =
  let log1 := [capture_command [url]] in
  match python_exit_result
          (spawn w pythonPath ["-m"; "screenshot_urlbox.processor"; url]) with
  | Throw message => (Return (sendError (ErrorObject message) 500), log1)
  | Return shot =>
      if truthy (error shot)
      then (Return (sendError
                      (ErrorObject (thrown_message "Screenshot failed: " (error shot))) 500),
            log1)
      else
        match extractOutputDirectory (output shot) with
        | None =>
            (Return (sendError (ErrorObject (missing_directory_message (output shot))) 500),
             log1)
        | Some dir =>
            if files_ok w dir "all" then
              let ai := ai_exit_result (spawn w pythonPath [aiScriptPath; dir; url; "all"]) in
              (Return (if truthy (ai_error ai)
                       then sendError
                              (ErrorObject (thrown_message "AI analysis failed: "
                                              (ai_error ai))) 500
                       else send_json (process_response (path_basename dir) url ai true)),
               log1 ++ [ai_command dir url "all"])
            else
              (Return (sendError
                         (ErrorObject ("AI analysis failed: " +:+ missing_files_message "all"))
                         500),
               log1)
        end
  end.
Proof.
  intros Hurl. unfold process.
  assert (truthy (Str url) = true) as -> by (simpl; by rewrite bool_decide_eq_false_2).
  cbn [negb]. unfold try_catch at 1, mbind, exec_mbind, exec_bind at 1.
  rewrite capture_directory_spec. cbv zeta. simpl app.
  destruct (python_exit_result _) as [shot|m]; [|done].
  destruct (truthy (error _)); [done|].
  destruct (extractOutputDirectory _) as [dir|]; [|done].
  unfold exec_bind. rewrite runAIAnalysis_spec.
  destruct (files_ok w dir "all").
  - destruct (truthy (ai_error _)); [|done]. unfold template, thrown_message.
    by destruct (to_String (ai_error _)).
  - cbn [ai_error]. by rewrite missing_files_message_truthy.
Qed.

Lemma sendError_object message statusCode :
  message ≠ EmptyString →
  sendError (ErrorObject message) statusCode
  = {| status_code := statusCode;
       body := Obj [("success", Bool false); ("error", Str message)] |}.
Proof. intros Hm. unfold sendError. by rewrite truthy_Str. Qed.

Lemma sendError_failure error statusCode :
  status_code (sendError error statusCode) = statusCode ∧
  get (body (sendError error statusCode)) "success" = Bool false.
Proof. done. Qed.

Lemma sendError_message message statusCode :
  get (body (sendError (ErrorObject message) statusCode)) "error"
  = if truthy (Str message) then Str message else Obj [].
Proof. done. Qed.

(** X21: [/process] treats its URL as the job pipeline treats a homepage of
    a job without height hints: it calls [spawn] for the same children,
    answers with status 200 exactly when the page is a success, then with
    the same directory and the same four analyses, and answers with status
    500 and the message of the failure otherwise (the message for an output
    without a directory is worded differently, and an empty message is sent
    as the empty object). *)
Theorem process_matches_pipeline w job url :
  url ≠ EmptyString →
  truthy (headerHeight job) = false → truthy (footerHeight job) = false →
  isHomePageUrl url (urls job) = true →
  ∃ resp r,
    process w url [] = (Return resp, page_spawned w job url) ∧
    page_result w job url = Return r ∧
    match r with
    | Success _ dir _ _ bodyAnalysis full =>
        status_code resp = 200 ∧ get (body resp) "success" = Bool true ∧
        get (body resp) "outputDir" = Str dir ∧
        get (body resp) "bodyAnalysis" = bodyAnalysis ∧
        full = Some {| headerAnalysis := get (body resp) "headerAnalysis";
                       footerAnalysis := get (body resp) "footerAnalysis";
                       siteLinksAnalysis := get (body resp) "siteLinksAnalysis" |}
    | Failure _ message =>
        status_code resp = 500 ∧ get (body resp) "success" = Bool false ∧
        (message ≠ "Could not find output directory" →
         get (body resp) "error" = if truthy (Str message) then Str message else Obj [])
    end.
Proof.
  intros Hurl Hh Hf Hhome. rewrite (process_spec w url Hurl). cbv zeta.
  unfold page_result, page_spawned. rewrite page_exec_spec.
  assert (screenshotArgs job url = Return [url]) as ->.
  { unfold screenshotArgs, hint_args. by rewrite Hh, Hf. }
  cbv zeta.
  assert (role_of url (urls job) = "all") as -> by by apply role_of_all.
  destruct (python_exit_result _) as [shot|m].
  2:{ eexists _, _. split; [done|]. split; [done|]. done. }
  destruct (truthy (error _)).
  { eexists _, _. split; [done|]. split; [done|]. done. }
  rewrite extractOutputDirectory_outputDirMatch.
  destruct (outputDirMatch _) as [cap|]; simpl fmap; cbv beta iota.
  2:{ eexists _, _. split; [done|]. split; [done|]. done. }
  destruct (files_ok w (trim cap) "all").
  2:{ eexists _, _. split; [done|]. split; [done|]. done. }
  destruct (truthy (ai_error _)).
  { eexists _, _. split; [done|]. split; [done|]. done. }
  eexists _, _. split; [done|]. split; [done|]. done.
Qed.

End EndpointProps.

Section LegacyProps.
Import Js JsValue Host ProcessUtils Server Heights Endpoints.
Context `{Platform}.

Lemma legacy_runAIAnalysis_spec w outputDir url log :
  Legacy.runAIAnalysis w outputDir url log =
  if files_ok w outputDir "all"
  then (Return (ai_exit_result (spawn w pythonPath [aiScriptPath; outputDir; url; "all"])),
        log ++ [ai_command outputDir url "all"])
  else (Return {| analysis := Null;
                  ai_error := Str "No header or footer files found for AI analysis" |}, log).
Proof.
  unfold Legacy.runAIAnalysis, files_ok.
  unfold mbind, exec_mbind, exec_bind, mret, exec_mret, exec_ret, try_catch,
    spawn_wait, throw. simpl.
  by destruct (hasHeader w outputDir), (hasFooter w outputDir).
Qed.

(** The older handler of [/process], branch by branch. *)
Lemma legacy_process_spec w url :
  url ≠ EmptyString →
  Legacy.process w url [] =
  let log1 := [capture_command [url]] in
  match python_exit_result
          (spawn w pythonPath ["-m"; "screenshot_urlbox.processor"; url]) with
  | Throw message => (Return (Legacy.processing_error message), log1)
  | Return shot =>
      if truthy (error shot)
      then (Return (Legacy.processing_error
                      (thrown_message "Screenshot failed: " (error shot))), log1)
      else
        match extractOutputDirectory (output shot) with
        | None => (Return (Legacy.processing_error (missing_directory_message (output shot))),
                   log1)
        | Some dir =>
            if files_ok w dir "all" then
              let ai := ai_exit_result (spawn w pythonPath [aiScriptPath; dir; url; "all"]) in
              (Return (if truthy (ai_error ai)
                       then Legacy.processing_error
                              (thrown_message "AI analysis failed: " (ai_error ai))
                       else send_json (process_response (path_basename dir) url ai false)),
               log1 ++ [ai_command dir url "all"])
            else
              (Return (Legacy.processing_error
                         "AI analysis failed: No header or footer files found for AI analysis"),
               log1)
        end
  end.
Proof.
  intros Hurl. unfold Legacy.process.
  assert (truthy (Str url) = true) as -> by (simpl; by rewrite bool_decide_eq_false_2).
  cbn [negb]. unfold try_catch at 1, mbind, exec_mbind, exec_bind at 1.
  rewrite capture_directory_spec. cbv zeta. simpl app.
  destruct (python_exit_result _) as [shot|m]; [|done].
  destruct (truthy (error _)); [done|].
  destruct (extractOutputDirectory _) as [dir|]; [|done].
  unfold exec_bind. rewrite legacy_runAIAnalysis_spec.
  destruct (files_ok w dir "all"); [|done].
  destruct (truthy (ai_error _)); [|done]. unfold template, thrown_message.
  by destruct (to_String (ai_error _)).
Qed.

(** X22: the older server of [ui/server.js] and the job server agree on a
    single URL.  Their [runAIAnalysis] (with the analysis type [all]) spawn
    the same child and resolve to the same value when the header pair or the
    footer pair exists, and otherwise resolve without a child to an error
    that differs in its wording only.  Their [/process] handlers spawn the
    same children and answer with the same status; an answer with status 200
    has the same fields in both, but for [siteLinksAnalysis], which the
    older server never sends. *)
Theorem legacy_server_agrees w url outputDir log :
  (files_ok w outputDir "all" = true →
   Legacy.runAIAnalysis w outputDir url log = Server.runAIAnalysis w outputDir url "all" log) ∧
  (files_ok w outputDir "all" = false →
   Legacy.runAIAnalysis w outputDir url log
   = (Return {| analysis := Null;
                ai_error := Str "No header or footer files found for AI analysis" |}, log) ∧
   Server.runAIAnalysis w outputDir url "all" log
   = (Return {| analysis := Null;
                ai_error := Str "No header or footer files found for full analysis" |}, log)) ∧
  ∃ old new spawned,
    Legacy.process w url [] = (Return old, spawned) ∧
    Endpoints.process w url [] = (Return new, spawned) ∧
    status_code old = status_code new ∧
    get (body old) "siteLinksAnalysis" = Undefined ∧
    (status_code new = 200 →
     ∀ key, key ≠ "siteLinksAnalysis" → get (body old) key = get (body new) key).
Proof.
  split; [|split].
  - intros Hok. by rewrite legacy_runAIAnalysis_spec, runAIAnalysis_spec, Hok.
  - intros Hok. by rewrite legacy_runAIAnalysis_spec, runAIAnalysis_spec, Hok.
  - destruct (decide (url = EmptyString)) as [->|Hurl].
    { eexists _, _, _. split; [done|]. split; [done|]. by repeat split. }
    rewrite (legacy_process_spec w url Hurl), (process_spec w url Hurl). cbv zeta.
    destruct (python_exit_result _) as [shot|m].
    2:{ eexists _, _, _. split; [done|]. split; [done|]. by repeat split. }
    destruct (truthy (error _)).
    { eexists _, _, _. split; [done|]. split; [done|]. by repeat split. }
    destruct (extractOutputDirectory _) as [dir|].
    2:{ eexists _, _, _. split; [done|]. split; [done|]. by repeat split. }
    destruct (files_ok w dir "all").
    2:{ eexists _, _, _. split; [done|]. split; [done|]. by repeat split. }
    destruct (truthy (ai_error _)).
    { eexists _, _, _. split; [done|]. split; [done|]. by repeat split. }
    eexists _, _, _. split; [done|]. split; [done|]. split; [done|]. split; [done|].
    intros _ key Hkey. cbn. repeat case_bool_decide; done.
Qed.

(** X23: the three single-URL handlers answer every request: none of them
    lets an exception escape; a request without a URL gets status 400 before
    any child is spawned; any other request gets status 200 with
    [success: true] or status 500 with [success: false]; and no request
    spawns more than two children. *)
Theorem endpoints_always_answer w url :
  answered url (discover_links w url []) ∧
  answered url (Endpoints.process w url []) ∧
  answered url (Legacy.process w url []).
Proof.
  unfold answered. destruct (decide (url = EmptyString)) as [->|Hurl].
  { split; [|split]; eexists; (split; [done|]);
      (split; [done|]); (split; [by intros []|simpl; lia]). }
  split; [|split].
  - rewrite (discover_links_spec w url Hurl). cbv zeta.
    destruct (python_exit_result _) as [shot|m].
    2:{ eexists. split; [done|]. split; [done|]. split; [|simpl; lia].
        intros _. right. apply sendError_failure. }
    destruct (truthy (error _)).
    { eexists. split; [done|]. split; [done|]. split; [|simpl; lia].
      intros _. right. apply sendError_failure. }
    destruct (extractOutputDirectory _) as [dir|].
    2:{ eexists. split; [done|]. split; [done|]. split; [|simpl; lia].
        intros _. right. apply sendError_failure. }
    rewrite links_analysis_spec.
    destruct (hasHeader w dir && hasFooter w dir); cbv zeta.
    + destruct (python_exit_result _) as [la|m];
        (eexists; split; [done|]; split; [done|]; split; [|simpl; lia]);
        intros _; [by left|right; apply sendError_failure].
    + eexists. split; [done|]. split; [done|]. split; [|simpl; lia].
      intros _. by left.
  - rewrite (process_spec w url Hurl). cbv zeta.
    destruct (python_exit_result _) as [shot|m].
    2:{ eexists. split; [done|]. split; [done|]. split; [|simpl; lia].
        intros _. right. apply sendError_failure. }
    destruct (truthy (error _)).
    { eexists. split; [done|]. split; [done|]. split; [|simpl; lia].
      intros _. right. apply sendError_failure. }
    destruct (extractOutputDirectory _) as [dir|].
    2:{ eexists. split; [done|]. split; [done|]. split; [|simpl; lia].
        intros _. right. apply sendError_failure. }
    destruct (files_ok w dir "all").
    2:{ eexists. split; [done|]. split; [done|]. split; [|simpl; lia].
        intros _. right. apply sendError_failure. }
    destruct (truthy (ai_error _)).
    { eexists. split; [done|]. split; [done|]. split; [|simpl; lia].
      intros _. right. apply sendError_failure. }
    eexists. split; [done|]. split; [done|]. split; [|simpl; lia]. intros _. by left.
  - rewrite (legacy_process_spec w url Hurl). cbv zeta.
    destruct (python_exit_result _) as [shot|m].
    2:{ eexists. split; [done|]. split; [done|]. split; [|simpl; lia]. intros _. by right. }
    destruct (truthy (error _)).
    { eexists. split; [done|]. split; [done|]. split; [|simpl; lia]. intros _. by right. }
    destruct (extractOutputDirectory _) as [dir|].
    2:{ eexists. split; [done|]. split; [done|]. split; [|simpl; lia]. intros _. by right. }
    destruct (files_ok w dir "all").
    2:{ eexists. split; [done|]. split; [done|]. split; [|simpl; lia]. intros _. by right. }
    destruct (truthy (ai_error _)).
    { eexists. split; [done|]. split; [done|]. split; [|simpl; lia]. intros _. by right. }
    eexists. split; [done|]. split; [done|]. split; [|simpl; lia]. intros _. by left.
Qed.

End LegacyProps.

(** ** The further properties on concrete inputs *)

Section ParserWitnesses.
Import Js JsValue Host ProcessUtils Heights SimplePlatform Examples Samples.

Lemma extractOutputDirectory_trimmed_witness :
  string_forall (λ c, negb (is_line_terminator c)) shot_dir = true ∧
  match first_char shot_dir with Some c => is_white_space c = false | None => True end ∧
  match last_char shot_dir with Some c => is_white_space c = false | None => True end.
Proof.
  apply (extractOutputDirectory_trimmed capture_output shot_dir). reflexivity.
Defined.

Lemma extractOutputDirectory_reads_report_witness :
  extractOutputDirectory ("> " +:+ "Output saved in: " +:+ (shot_dir +:+ " ") +:+ LF)
  = Some (trim (shot_dir +:+ " ")).
Proof.
  apply (extractOutputDirectory_reads_report "> " (shot_dir +:+ " ") LF);
    [reflexivity|discriminate|reflexivity|reflexivity].
Defined.

Lemma extractHeightInfo_reads_heights_witness :
  extractHeightInfo capture_report
  = {| info_headerHeight := Some 120%Z; info_footerHeight := Some 80%Z |}.
Proof.
  apply (extractHeightInfo_reads_heights ("Output saved in: /x" +:+ LF) 120 80 LF LF);
    reflexivity.
Defined.

End ParserWitnesses.

Section PageWitnesses.
Import Js JsValue Host ProcessUtils Server Claimed Heights Endpoints SimplePlatform Examples
  Samples.
Local Existing Instance platform.

Lemma capture_failure_skips_analysis_witness :
  page_result w_capture_fails plain_job "https://x.com/"
  = Return (Failure "https://x.com/" "Screenshot failed: boom") ∧
  page_spawned w_capture_fails plain_job "https://x.com/"
  = [capture_command ["https://x.com/"]].
Proof.
  apply (capture_failure_skips_analysis w_capture_fails plain_job "https://x.com/"
           ["https://x.com/"] (Some 1%Z) EmptyString "boom");
    [reflexivity|reflexivity|discriminate].
Defined.

Lemma success_shape_by_role_witness :
  role_of "https://x.com/products" batch_home_first = "body" ∧
  img_header {| img_body := "/screenshots/x_com_1/body.png"; img_header := None;
                img_footer := None |} = None.
Proof.
  assert (page_result w_ok plain_job "https://x.com/products"
          = Return (Success "https://x.com/products" "x_com_1" "body"
                      {| img_body := "/screenshots/x_com_1/body.png"; img_header := None;
                         img_footer := None |} Null None)) as Hr by (vm_compute; reflexivity).
  destruct (success_shape_by_role w_ok plain_job "https://x.com/products" _ _ _ _ _ _ Hr)
    as (_ & Hrole & _ & _ & Hbody).
  split; [symmetry; exact Hrole|]. exact (proj1 (proj2 (Hbody eq_refl))).
Defined.

Lemma analysis_exit_code_reported_witness :
  page_result (world all_files ai_crashed) plain_job "https://x.com/"
  = Return (Failure "https://x.com/" "AI analysis failed: Traceback").
Proof.
  apply (analysis_exit_code_reported (world all_files ai_crashed) plain_job "https://x.com/"
           ["https://x.com/"] capture_output EmptyString shot_dir (Some 2%Z) EmptyString
           "Traceback");
    [reflexivity|reflexivity|reflexivity|reflexivity|reflexivity|discriminate].
Defined.

Lemma analysis_reported_error_witness :
  page_result (world all_files ai_refused) plain_job "https://x.com/"
  = Return (Failure "https://x.com/" "AI analysis failed: quota").
Proof.
  destruct (analysis_reported_error (world all_files ai_refused) plain_job "https://x.com/"
              ["https://x.com/"] capture_output EmptyString shot_dir refusal_json EmptyString
              (Obj [("error", Str "quota"); ("success", Bool false)]))
    as (_ & Htext & _); [reflexivity..|].
  apply (Htext "quota"); reflexivity.
Defined.

Lemma single_url_homepage_by_path_witness :
  isHomePageUrl "https://x.com/products" ["https://x.com/products"] = false ∧
  role_of "https://x.com/products" ["https://x.com/products"] = "body".
Proof.
  destruct (single_url_homepage_by_path "https://x.com/products" ["https://x.com/products"])
    as [Heq Hrole]; [simpl; lia|].
  split; [rewrite Heq; reflexivity|apply Hrole; reflexivity].
Defined.

Lemma first_url_is_homepage_witness :
  isHomePageUrl "https://x.com/products" ["https://x.com/products"; "https://x.com/about"]
  = true.
Proof.
  apply (proj1 (first_url_is_homepage "https://x.com/products" ["https://x.com/about"]
                  {| pathname := "/products"; origin := "https://x.com";
                     href := "https://x.com/products" |}
                  ltac:(discriminate) eq_refl)).
  vm_compute. discriminate.
Defined.


Lemma process_matches_pipeline_witness :
  ∃ resp,
    Endpoints.process w_ok "https://x.com/" []
    = (Return resp, [capture_command ["https://x.com/"];
                     ai_command shot_dir "https://x.com/" "all"]) ∧
    status_code resp = 200 ∧ get (body resp) "outputDir" = Str "x_com_1".
Proof.
  destruct (process_matches_pipeline w_ok plain_job "https://x.com/")
    as (resp & r & Hrun & Hr & Hmatch);
    [discriminate|reflexivity|reflexivity|reflexivity|].
  assert (r = build_result "https://x.com/" "x_com_1" "all"
                (ai_exit_result ai_empty_object)) as ->.
  { assert (page_result w_ok plain_job "https://x.com/"
            = Return (build_result "https://x.com/" "x_com_1" "all"
                        (ai_exit_result ai_empty_object))) as Hr'
      by (vm_compute; reflexivity).
    rewrite Hr' in Hr. by injection Hr as <-. }
  destruct Hmatch as (Hstatus & _ & Hdir & _).
  exists resp. split; [exact Hrun|]. split; [exact Hstatus|exact Hdir].
Defined.

End PageWitnesses.

Section StateWitnesses.
Import Js JsValue Host Server Invariants Observed SimplePlatform Examples Samples.
Local Existing Instance platform.

Lemma reachable_subscribed : reachable st_subscribed.
Proof.
  apply (reachable_apply (AnalysisStream "job1" 1%Z)); [apply reachable_started|reflexivity].
Qed.

Lemma reachable_two_subscribers : reachable st_two_subscribers.
Proof.
  apply (reachable_apply (AnalysisStream "job1" 2%Z));
    [apply reachable_subscribed|reflexivity].
Qed.


Lemma job_never_lost_witness :
  ∃ job', analysisJobs st_one_page !! "job1" = Some job' ∧
          urls job' = batch_home_first ∧ total job' = 2.
Proof.
  destruct (job_never_lost st_started "job1"
              {| urls := batch_home_first; headerHeight := Undefined;
                 footerHeight := Undefined; status := started; completed := [];
                 total := 2; startTime := 0%Z; sseConnections := None |}
              reachable_started eq_refl) as (Hturn & _ & _).
  destruct (Hturn (Resume "job1" w_capture_fails 3%Z))
    as (job' & Hjob' & Hu & _ & _ & Ht & _); [discriminate|].
  exists job'. split; [exact Hjob'|]. split; [exact Hu|exact Ht].
Defined.

Lemma close_event_detaches_witness :
  ∃ job', analysisJobs (close_event 0 st_subscribed) !! "job1" = Some job' ∧
          0 ∉ default [] (sseConnections job').
Proof.
  destruct (lookup_lt_is_Some_2 (conns st_subscribed) 0) as [c Hc]; [vm_compute; lia|].
  assert (conn_job c = Some "job1") as Hj.
  { revert Hc. vm_compute. intros [= <-]. reflexivity. }
  destruct (close_event_detaches st_subscribed 0 c "job1"
              {| urls := batch_home_first; headerHeight := Undefined;
                 footerHeight := Undefined; status := started; completed := [];
                 total := 2; startTime := 0%Z; sseConnections := Some [0] |}
              reachable_subscribed Hc Hj eq_refl) as (job' & Hjob' & Hgone & _).
  exists job'. split; [exact Hjob'|exact Hgone].
Defined.


Lemma broadcast_reaches_all_witness :
  written <$> conns (broadcastToJob "job1" (EvFinished "job1" 2 7%Z) st_two_subscribers) !! 1
  = Some [EvStarted "job1" 2 0; EvFinished "job1" 2 7%Z].
Proof.
  destruct (broadcast_reaches_all st_two_subscribers "job1"
              {| urls := batch_home_first; headerHeight := Undefined;
                 footerHeight := Undefined; status := started; completed := [];
                 total := 2; startTime := 0%Z; sseConnections := Some [0; 1] |}
              [0; 1] (EvFinished "job1" 2 7%Z) reachable_two_subscribers eq_refl eq_refl)
    as [_ Hall].
  { intros res c Hin Hc.
    apply elem_of_cons in Hin as [->|Hin];
      [|apply list_elem_of_singleton in Hin as ->];
      revert Hc; vm_compute; intros [= <-]; reflexivity. }
  rewrite (Hall 1 {| written := [EvStarted "job1" 2 0]; ended := false;
                     write_throws := false; conn_job := Some "job1" |} eq_refl).
  reflexivity.
Defined.

Lemma broadcast_guarantees_witness :
  ∃ arr',
    sseConnections <$> analysisJobs (broadcastToJob "job1" (EvFinished "job1" 2 7%Z)
                                       st_first_broken) !! "job1" = Some (Some arr') ∧
    arr' `sublist_of` [0; 1] ∧ 1 ∈ arr'.
Proof.
  assert (reachable st_first_broken) as Hreach.
  { apply (reachable_apply (SetWriteThrows 0 true)); [apply reachable_two_subscribers|done]. }
  destruct (broadcast_guarantees st_first_broken "job1"
              {| urls := batch_home_first; headerHeight := Undefined;
                 footerHeight := Undefined; status := started; completed := [];
                 total := 2; startTime := 0%Z; sseConnections := Some [0; 1] |}
              [0; 1] (EvFinished "job1" 2 7%Z) Hreach eq_refl eq_refl)
    as (arr' & Harr' & Hsub & Hkeep & _).
  exists arr'. split; [exact Harr'|]. split; [exact Hsub|].
  apply (Hkeep 1 {| written := [EvStarted "job1" 2 0]; ended := false;
                    write_throws := false; conn_job := Some "job1" |});
    [apply elem_of_cons; right; apply elem_of_cons; by left|reflexivity|reflexivity].
Defined.

Lemma batch_results_witness :
  ∃ job', analysisJobs (processAnalysisJob 2 "job1" worlds 4%Z st_started) !! "job1"
          = Some job' ∧
          length (completed job') = 2 ∧
          succeeded <$> (Return <$> completed job') = [false; true].
Proof.
  destruct (batch_results init "job1" "https://x.com/" ["https://x.com/products"]
              Undefined Undefined 0%Z worlds 4%Z (rtc_refl _ _) eq_refl)
    as (job' & Hjob' & _ & Hlen & Hres).
  exists job'. split; [exact Hjob'|]. split; [exact Hlen|]. rewrite Hres. reflexivity.
Defined.

End StateWitnesses.
